(** * shh-env: namespace resolution and layering engine

    A shallow embedding of the TypeScript sources of shh-env
    (lib/secrets.ts, lib/enumerate.ts, lib/spawn.ts and the commands run,
    list, get, set and delete) and the properties of the namespace codec,
    the keychain dump parsers, the entry filter, the layer merge, the
    merged tree view, the keychain operations and the command line of run.

    JavaScript strings are sequences of UTF-16 code units; they are modelled
    as [list N], one number per code unit.  String literals of the source are
    written [js "..."] when they are ASCII and as explicit code units
    otherwise. *)

From Stdlib Require Import NArith String Ascii List Lia Bool Sorted.
From stdpp Require Import gmap list sets sorting.

Local Open Scope N_scope.

(** ** JavaScript strings *)

Module JS.

(** An ASCII literal as a sequence of code units. *)
Definition js (s : string) : list N :=
  List.map N_of_ascii (list_ascii_of_string s).

Definition eqb (a b : list N) : bool := bool_decide (a = b).

(** A value of type [string | undefined] used as a condition: [undefined]
    and the empty string are falsy. *)
Definition truthy (o : option (list N)) : bool :=
  match o with
  | Some (_ :: _) => true
  | _ => false
  end.

(** A string used as a condition. *)
Definition nonEmpty (s : list N) : bool :=
  match s with
  | [] => false
  | _ :: _ => true
  end.

(** [s.startsWith(p)] *)
Fixpoint startsWith (p s : list N) : bool :=
  match p, s with
  | [], _ => true
  | _ :: _, [] => false
  | a :: p', b :: s' => (a =? b) && startsWith p' s'
  end.

(** [s.split(sep)] for a non-empty separator, as at every call site (the
    double colon, the colon and the line feed): the occurrences of [sep]
    are found from left to right without overlap.  [skip] counts the code
    units of the separator occurrence being consumed. *)
Fixpoint splitFrom (sep : list N) (skip : nat) (s : list N)
  : list (list N) :=
  match s with
  | [] => [[]]
  | c :: s' =>
      match skip with
      | S k => splitFrom sep k s'
      | O =>
          if startsWith sep s
          then [] :: splitFrom sep (length sep - 1) s'
          else match splitFrom sep 0 s' with
               | p :: ps => (c :: p) :: ps
               | [] => [[c]]
               end
      end
  end.

Definition split (sep s : list N) : list (list N) := splitFrom sep 0 s.

(** [parts.join(sep)], the inverse of [split]. *)
Fixpoint join (sep : list N) (parts : list (list N)) : list N :=
  match parts with
  | [] => []
  | [p] => p
  | p :: ps => p ++ sep ++ join sep ps
  end.

(** WhiteSpace and LineTerminator code points of ECMAScript: what
    [String.prototype.trim] strips and what [\s] matches. *)
Definition isWhiteSpace (c : N) : bool :=
  ((9 <=? c) && (c <=? 13)) || (c =? 32) || (c =? 160) || (c =? 5760)
  || ((8192 <=? c) && (c <=? 8202)) || (c =? 8232) || (c =? 8233)
  || (c =? 8239) || (c =? 8287) || (c =? 12288) || (c =? 65279).

(** Line terminators, which [.] does not match. *)
Definition isLineTerminator (c : N) : bool :=
  (c =? 10) || (c =? 13) || (c =? 8232) || (c =? 8233).

Fixpoint dropWhile (f : N -> bool) (s : list N) : list N :=
  match s with
  | [] => []
  | c :: s' => if f c then dropWhile f s' else s
  end.

Fixpoint takeWhile (f : N -> bool) (s : list N) : list N :=
  match s with
  | [] => []
  | c :: s' => if f c then c :: takeWhile f s' else []
  end.

(** [s.trim()] *)
Definition trim (s : list N) : list N :=
  rev (dropWhile isWhiteSpace (rev (dropWhile isWhiteSpace s))).

Definition isUpper (c : N) : bool := (65 <=? c) && (c <=? 90).
Definition isLower (c : N) : bool := (97 <=? c) && (c <=? 122).
Definition isDigit (c : N) : bool := (48 <=? c) && (c <=? 57).

(** The double quote, which a literal cannot hold. *)
Definition quote : N := 34.
Definition colon : N := 58.

End JS.

Import JS.

(** ** Exceptions *)

(** The outcome of a call that may [throw new Error(message)]. *)
Inductive result (A : Type) : Type :=
| Ok (a : A)
| Throw (message : list N).
Arguments Ok {A} a.
Arguments Throw {A} message.

Definition bind {A B} (r : result A) (k : A -> result B) : result B :=
  match r with
  | Ok a => k a
  | Throw m => Throw m
  end.

Notation "r ;;; k" := (bind r (fun _ => k))
  (at level 60, right associativity).

(** ** lib/secrets.ts: validation and the namespace codec *)

Module Secrets.

Definition DEFAULT_SERVICE : list N := js "_".

(** The class [[a-zA-Z0-9._-]]. *)
Definition serviceChar (c : N) : bool :=
  isLower c || isUpper c || isDigit c || (c =? 46) || (c =? 95) || (c =? 45).

(** The class [[a-zA-Z0-9_-]]. *)
Definition envChar (c : N) : bool :=
  isLower c || isUpper c || isDigit c || (c =? 95) || (c =? 45).

(** The class [[A-Z0-9_]]. *)
Definition keyChar (c : N) : bool :=
  isUpper c || isDigit c || (c =? 95).

(** [/^[a-zA-Z0-9._-]+$/.test(s)] *)
Definition SERVICE_PATTERN (s : list N) : bool :=
  nonEmpty s && forallb serviceChar s.

(** [/^[a-zA-Z0-9_-]+$/.test(s)] *)
Definition ENV_PATTERN (s : list N) : bool :=
  nonEmpty s && forallb envChar s.

(** [/^[A-Z][A-Z0-9_]*$/.test(s)] *)
Definition KEY_PATTERN (s : list N) : bool :=
  match s with
  | [] => false
  | c :: s' => isUpper c && forallb keyChar s'
  end.

Definition validateService (service : list N) : result unit :=
  if negb (eqb service DEFAULT_SERVICE) && negb (SERVICE_PATTERN service)
  then Throw (js "Invalid service name: " ++ [quote] ++ service ++ [quote]
              ++ js ". Allowed: a-z, A-Z, 0-9, -, _, . (no colons)")
  else Ok tt.

Definition validateEnv (env : list N) : result unit :=
  if negb (ENV_PATTERN env)
  then Throw (js "Invalid env name: " ++ [quote] ++ env ++ [quote]
              ++ js ". Allowed: a-z, A-Z, 0-9, -, _")
  else Ok tt.

Definition validateKey (key : list N) : result unit :=
  if negb (KEY_PATTERN key)
  then Throw (js "Invalid key name: " ++ [quote] ++ key ++ [quote]
              ++ js ". Must start with uppercase letter, allowed: A-Z, 0-9, _")
  else Ok tt.

(** The value of an optional string argument inside a template literal or
    a call: only read on paths where the argument is truthy. *)
Definition value (o : option (list N)) : list N := default [] o.

Definition buildServiceName (service env : option (list N))
  : result (list N) :=
  let svc := if truthy service then value service else DEFAULT_SERVICE in
  if truthy env then
    if negb (truthy service)
    then Throw (js "--env requires --service to be specified")
    else
      validateService (value service) ;;;
      validateEnv (value env) ;;;
      Ok (value service ++ js "::" ++ value env)
  else
    validateService svc ;;;
    Ok svc.

Record ServiceName := { service : list N; env : option (list N) }.

Definition parseServiceName (serviceName : list N) : ServiceName :=
  match split (js "::") serviceName with
  | [p0; p1] =>
      if nonEmpty p0 && nonEmpty p1
      then {| service := p0; env := Some p1 |}
      else {| service := serviceName; env := None |}
  | _ => {| service := serviceName; env := None |}
  end.

End Secrets.

(** ** lib/enumerate.ts: keychain dumps, grouping and the entry filter *)

Module Enumerate.

Record SecretEntry := { service : list N; key : list N }.

(** The outcome of awaiting the shell command's [text()]: the raw listing,
    or a rejection. *)
Definition ShellText : Type := result (list N).

(** *** macOS: [security dump-keychain] *)

Record MacState := {
  currentClass : list N;
  currentService : list N;
  currentAccount : list N
}.

Definition macInit : MacState :=
  {| currentClass := []; currentService := []; currentAccount := [] |}.

(** The patterns of the dump are written here with Q for the double
    quote: [/QsvceQ<blob>=Q([^Q]+)Q/] and [/QacctQ<blob>=Q([^Q]+)Q/].
    This is the literal that precedes the capture group, for the
    attribute [tag]. *)
Definition blobPrefix (tag : string) : list N :=
  [quote] ++ js tag ++ [quote] ++ js "<blob>=" ++ [quote].

Definition notQuote (c : N) : bool := negb (c =? quote).

(** One attempt of the pattern at the start of [s].  The
    group cannot cross a quote, so it is the whole run up to the next
    quote: a shorter run is followed by a code unit that is not a quote. *)
Definition blobAt (tag : string) (s : list N) : option (list N) :=
  if startsWith (blobPrefix tag) s then
    let rest := drop (length (blobPrefix tag)) s in
    let group := takeWhile notQuote rest in
    if nonEmpty group && startsWith [quote] (drop (length group) rest)
    then Some group
    else None
  else None.

(** [s.match(pattern)]: the leftmost position where an attempt succeeds;
    the result is the capture group. *)
Fixpoint matchBlob (tag : string) (s : list N) : option (list N) :=
  match blobAt tag s with
  | Some group => Some group
  | None =>
      match s with
      | [] => None
      | _ :: s' => matchBlob tag s'
      end
  end.

Definition genp : list N := [quote] ++ js "genp" ++ [quote].

(** The entry pushed when the pending record is valid. *)
Definition macPending (st : MacState) : list SecretEntry :=
  if eqb (currentClass st) genp
     && nonEmpty (currentService st) && nonEmpty (currentAccount st)
  then [{| service := currentService st; key := currentAccount st |}]
  else [].

(** The class named by a trimmed [class:] line: the second part of the
    split on the colon, trimmed; the empty string when it is missing or
    empty. *)
Definition classOf (trimmed : list N) : list N :=
  match split (js ":") trimmed !! 1%nat with
  | Some part => trim part
  | None => []
  end.

(** One iteration of the loop over the lines: the entries pushed and the
    next values of the three variables. *)
Definition macStep (st : MacState) (line : list N)
  : list SecretEntry * MacState :=
  let trimmed := trim line in
  if startsWith (js "class:") trimmed then
    (macPending st,
     {| currentClass := classOf trimmed;
        currentService := [];
        currentAccount := [] |})
  else if startsWith ([quote] ++ js "svce" ++ [quote]) trimmed then
    match matchBlob "svce" trimmed with
    | Some (c :: m) =>
        ([], {| currentClass := currentClass st;
                currentService := c :: m;
                currentAccount := currentAccount st |})
    | _ => ([], st)
    end
  else if startsWith ([quote] ++ js "acct" ++ [quote]) trimmed then
    match matchBlob "acct" trimmed with
    | Some (c :: m) =>
        ([], {| currentClass := currentClass st;
                currentService := currentService st;
                currentAccount := c :: m |})
    | _ => ([], st)
    end
  else ([], st).

Fixpoint macScan (st : MacState) (lines : list (list N))
  : list SecretEntry * MacState :=
  match lines with
  | [] => ([], st)
  | line :: rest =>
      let '(pushed, st') := macStep st line in
      let '(more, final) := macScan st' rest in
      (pushed ++ more, final)
  end.

(** The loop over the lines followed by the push of the last record. *)
Definition macLines (lines : list (list N)) : list SecretEntry :=
  let '(entries, final) := macScan macInit lines in
  entries ++ macPending final.

(** The body of the [try] block once the listing is there. *)
Definition parseMacOS (text : list N) : list SecretEntry :=
  macLines (split [10] text).

Definition enumerateMacOS (shell : ShellText) : list SecretEntry :=
  match shell with
  | Ok text => parseMacOS text
  | Throw _ => []
  end.

(** *** Linux: [secret-tool search] *)

Record LinuxState := {
  linuxService : list N;
  linuxAccount : list N
}.

Definition linuxInit : LinuxState :=
  {| linuxService := []; linuxAccount := [] |}.

(** [s.replace(pattern, empty)] with a string pattern and the empty
    replacement: the first occurrence is removed. *)
Fixpoint removeFirst (pattern s : list N) : list N :=
  if startsWith pattern s then drop (length pattern) s
  else match s with
       | [] => []
       | c :: s' => c :: removeFirst pattern s'
       end.

Definition linuxPending (st : LinuxState) : list SecretEntry :=
  if nonEmpty (linuxService st) && nonEmpty (linuxAccount st)
  then [{| service := linuxService st; key := linuxAccount st |}]
  else [].

Definition linuxStep (st : LinuxState) (line : list N)
  : list SecretEntry * LinuxState :=
  let trimmed := trim line in
  if startsWith (js "[") trimmed then
    (linuxPending st, linuxInit)
  else if startsWith (js "attribute.service = ") trimmed then
    ([], {| linuxService := removeFirst (js "attribute.service = ") trimmed;
            linuxAccount := linuxAccount st |})
  else if startsWith (js "attribute.account = ") trimmed then
    ([], {| linuxService := linuxService st;
            linuxAccount := removeFirst (js "attribute.account = ") trimmed |})
  else ([], st).

Fixpoint linuxScan (st : LinuxState) (lines : list (list N))
  : list SecretEntry * LinuxState :=
  match lines with
  | [] => ([], st)
  | line :: rest =>
      let '(pushed, st') := linuxStep st line in
      let '(more, final) := linuxScan st' rest in
      (pushed ++ more, final)
  end.

Definition linuxLines (lines : list (list N)) : list SecretEntry :=
  let '(entries, final) := linuxScan linuxInit lines in
  entries ++ linuxPending final.

Definition parseLinux (text : list N) : list SecretEntry :=
  linuxLines (split [10] text).

Definition enumerateLinux (shell : ShellText) : list SecretEntry :=
  match shell with
  | Ok text => parseLinux text
  | Throw _ => []
  end.

(** *** Windows: [cmdkey /list] *)

(** Canonicalisation of a code unit under the [i] flag, as far as the
    ASCII letters of the pattern can tell: a code unit from 128 on never
    canonicalises to an ASCII one. *)
Definition upperAscii (c : N) : N := if isLower c then c - 32 else c.

(** A literal of the pattern matched at the start of [s], ignoring case. *)
Fixpoint startsWithCI (p s : list N) : bool :=
  match p, s with
  | [], _ => true
  | _ :: _, [] => false
  | a :: p', b :: s' => (upperAscii a =? upperAscii b) && startsWithCI p' s'
  end.

Definition slash : N := 47.
Definition notSlash (c : N) : bool := negb (c =? slash).
Definition notLineTerminator (c : N) : bool := negb (isLineTerminator c).

(** [([^/]+)\/(.+)] at the start of [s].  The first group stops at the
    first slash (a shorter run is followed by no slash) and the second
    runs to the next line terminator or the end. *)
Definition targetGroups (s : list N) : option (list N * list N) :=
  let g1 := takeWhile notSlash s in
  if nonEmpty g1 then
    match drop (length g1) s with
    | c :: rest =>
        let g2 := takeWhile notLineTerminator rest in
        if (c =? slash) && nonEmpty g2 then Some (g1, g2) else None
    | [] => None
    end
  else None.

(** [(?:LegacyGeneric:target=)?([^/]+)\/(.+)]: the optional literal is
    tried first, then skipped. *)
Definition targetOptional (s : list N) : option (list N * list N) :=
  let literal := js "LegacyGeneric:target=" in
  match (if startsWithCI literal s
         then targetGroups (drop (length literal) s) else None) with
  | Some m => Some m
  | None => targetGroups s
  end.

(** [\s*] followed by the rest of the pattern: the longest run of white
    space first, then one less at each backtracking step. *)
Fixpoint targetSpaces (n : nat) (s : list N) : option (list N * list N) :=
  match targetOptional (drop n s) with
  | Some m => Some m
  | None =>
      match n with
      | O => None
      | S n' => targetSpaces n' s
      end
  end.

(** One attempt of the whole pattern at the start of [s]. *)
Definition targetAt (s : list N) : option (list N * list N) :=
  let literal := js "Target:" in
  if startsWithCI literal s then
    let rest := drop (length literal) s in
    targetSpaces (length (takeWhile isWhiteSpace rest)) rest
  else None.

(** [s.match(/Target:\s*(?:LegacyGeneric:target=)?([^/]+)\/(.+)/i)]: the
    leftmost position where an attempt succeeds; the result is the pair
    of capture groups. *)
Fixpoint matchTarget (s : list N) : option (list N * list N) :=
  match targetAt s with
  | Some m => Some m
  | None =>
      match s with
      | [] => None
      | _ :: s' => matchTarget s'
      end
  end.

(** One iteration of the loop over the lines. *)
Definition windowsStep (line : list N) : list SecretEntry :=
  let trimmed := trim line in
  if startsWith (js "Target:") trimmed then
    match matchTarget trimmed with
    | Some (c1 :: m1, c2 :: m2) =>
        [{| service := c1 :: m1; key := c2 :: m2 |}]
    | _ => []
    end
  else [].

Fixpoint windowsScan (lines : list (list N)) : list SecretEntry :=
  match lines with
  | [] => []
  | line :: rest => windowsStep line ++ windowsScan rest
  end.

Definition parseWindows (text : list N) : list SecretEntry :=
  windowsScan (split [10] text).

Definition enumerateWindows (shell : ShellText) : list SecretEntry :=
  match shell with
  | Ok text => parseWindows text
  | Throw _ => []
  end.

(** *** Well-formed records *)

(** A generic-password record of the macOS dump with the service [s] and
    the account [a], in the format of the comment in [enumerateMacOS]. *)
Definition macRecord (s a : list N) : list N :=
  js "class: " ++ genp ++ [10]
  ++ js "    " ++ blobPrefix "svce" ++ s ++ [quote] ++ [10]
  ++ js "    " ++ blobPrefix "acct" ++ a ++ [quote].

(** A record of the [secret-tool] listing, in the format of the comment in
    [enumerateLinux]. *)
Definition linuxRecord (s a : list N) : list N :=
  js "[/org/freedesktop/secrets/collection/login/1]" ++ [10]
  ++ js "label = x" ++ [10]
  ++ js "attribute.service = " ++ s ++ [10]
  ++ js "attribute.account = " ++ a.

(** A record of the [cmdkey] listing, in the format of the comment in
    [enumerateWindows]. *)
Definition windowsRecord (s a : list N) : list N :=
  js "    Target: LegacyGeneric:target=" ++ s ++ [slash] ++ a.

(** A listing with the line ends of Windows: every line feed preceded by a
    carriage return. *)
Definition crlf (text : list N) : list N :=
  flat_map (fun c => if c =? 10 then [13; 10] else [c]) text.

(** *** Platform dispatch *)


(** *** Grouping *)

(** The order of the default [Array.prototype.sort]: code unit by code
    unit. *)
Fixpoint strLe (a b : list N) : bool :=
  match a, b with
  | [], _ => true
  | _ :: _, [] => false
  | x :: a', y :: b' => (x <? y) || ((x =? y) && strLe a' b')
  end.

Fixpoint insertSorted (k : list N) (l : list (list N)) : list (list N) :=
  match l with
  | [] => [k]
  | h :: t => if strLe k h then k :: l else h :: insertSorted k t
  end.

(** [keys.sort()] *)
Definition sort (keys : list (list N)) : list (list N) :=
  foldr insertSorted [] keys.

(** The [Map] is modelled by what its [get] returns.  The order in which
    it iterates, which no caller modelled here reads, is
    [Grouping.insertionOrder]. *)
Definition groupByService (entries : list SecretEntry)
  : gmap (list N) (list (list N)) :=
  let groups :=
    foldl (fun (groups : gmap (list N) (list (list N))) entry =>
             let existing := default [] (groups !! service entry) in
             <[service entry := existing ++ [key entry]]> groups)
          ∅ entries in
  sort <$> groups.

(** *** The entry filter *)

(** [/^(_|[a-zA-Z0-9._-]+(::[a-zA-Z0-9_-]+)?)$/.test(s)].  The service run
    is the longest one: a shorter run is followed by a service character,
    which neither starts the optional group nor ends the string. *)
Definition servicePattern (s : list N) : bool :=
  eqb s (js "_")
  || (let run := takeWhile Secrets.serviceChar s in
      nonEmpty run
      && match drop (length run) s with
         | [] => true
         | rest =>
             startsWith (js "::") rest
             && Secrets.ENV_PATTERN (drop 2 rest)
         end).

(** [/^[A-Z][A-Z0-9_]*$/.test(s)] *)
Definition keyPattern (s : list N) : bool :=
  match s with
  | [] => false
  | c :: s' => isUpper c && forallb Secrets.keyChar s'
  end.

Definition filterShhEnvEntries (entries : list SecretEntry)
  : list SecretEntry :=
  List.filter
    (fun entry => servicePattern (service entry) && keyPattern (key entry))
    entries.

End Enumerate.

(** ** The secret store and asynchronous calls *)

(** [Bun.secrets.get({ service, name })] resolves to the stored value or to
    [null], or rejects. *)
Definition Store : Type := list N -> list N -> result (option (list N)).

(** A call to the store: [(service, name)]. *)
Definition Call : Type := list N * list N.

(** An asynchronous computation: the calls it made to the store, in order,
    and its outcome. *)
Definition Async (A : Type) : Type := list Call * result A.

Definition ret {A} (a : A) : Async A := ([], Ok a).

Definition abind {A B} (m : Async A) (k : A -> Async B) : Async B :=
  match m with
  | (calls, Ok a) => let '(calls', r) := k a in (calls ++ calls', r)
  | (calls, Throw e) => (calls, Throw e)
  end.

Notation "'await' x <- m 'in' k" := (abind m (fun x => k))
  (at level 10, x name, m at level 100, k at level 200).

Definition secretsGet (store : Store) (service name : list N)
  : Async (option (list N)) :=
  ([(service, name)], store service name).

Definition calls {A} (m : Async A) : list Call := fst m.
Definition outcome {A} (m : Async A) : result A := snd m.

(** A store that holds the listed items [(service, name, value)] and
    nothing else, and never rejects a read. *)
Definition storeOf (items : list (list N * list N * list N)) : Store :=
  fun service name =>
    Ok (snd <$> List.find
                  (fun item => eqb (fst (fst item)) service
                               && eqb (snd (fst item)) name)
                  items).

(** ** Objects used as maps *)

(** A [Record<string, string>] made by an object literal is modelled as the
    finite map of its own properties. *)
Module Obj.

Definition PROTO : list N := js "__proto__".

(** [obj[key] = value] for a string [value]: the own property is written,
    except under the name [__proto__], where the setter that the object
    inherits ignores a value that is neither an object nor [null]. *)
Definition setProperty (obj : gmap (list N) (list N)) (key value : list N)
  : gmap (list N) (list N) :=
  if eqb key PROTO then obj else <[key := value]> obj.

(** [Object.assign(target, source)]: every own property of [source] is
    written to [target] as by an assignment. *)
Definition assign (target source : gmap (list N) (list N))
  : gmap (list N) (list N) :=
  delete PROTO source ∪ target.

End Obj.

(** ** lib/secrets.ts: reading the values of a namespace *)

Module Fetch.

(** The loop of [getSecretsForService], [result] being the object under
    construction. *)
Fixpoint getSecretsLoop (store : Store) (serviceName : list N)
    (keys : list (list N)) (result : gmap (list N) (list N))
  : Async (gmap (list N) (list N)) :=
  match keys with
  | [] => ret result
  | key :: rest =>
      await value <- secretsGet store serviceName key in
      getSecretsLoop store serviceName rest
        match value with
        | Some v => Obj.setProperty result key v
        | None => result
        end
  end.

Definition getSecretsForService (store : Store) (serviceName : list N)
    (keys : list (list N)) : Async (gmap (list N) (list N)) :=
  getSecretsLoop store serviceName keys ∅.

(** The value the store holds under [k] when [k] is one of [keys], can be
    written as a property and the store has a value for it: what the loop
    writes under [k].  It serves to state the result of the loop. *)
Definition fetched (store : Store) (serviceName : list N)
    (keys : list (list N)) (k : list N) : option (list N) :=
  if bool_decide (k ∈ keys) && negb (eqb k Obj.PROTO)
  then match store serviceName k with
       | Ok (Some v) => Some v
       | _ => None
       end
  else None.

End Fetch.

(** ** commands/run.ts: the flat merge *)

Module Run.

(** The layers of a request: the root, then the service, then the
    service and environment, each only when its argument is truthy. *)
Definition layersOf (service env : option (list N)) : list (list N) :=
  [js "_"]
  ++ (if truthy service
      then [Secrets.value service]
           ++ (if truthy env
               then [Secrets.value service ++ js "::" ++ Secrets.value env]
               else [])
      else []).

(** The loop over the layers; [Object.assign(merged, secrets)] lets the
    values of [secrets] win. *)
Fixpoint mergeLayers (store : Store) (groups : gmap (list N) (list (list N)))
    (layers : list (list N)) (merged : gmap (list N) (list N))
  : Async (gmap (list N) (list N)) :=
  match layers with
  | [] => ret merged
  | layer :: rest =>
      let keys := default [] (groups !! layer) in
      if (0 <? length keys)%nat then
        await secrets <- Fetch.getSecretsForService store layer keys in
        mergeLayers store groups rest (Obj.assign merged secrets)
      else mergeLayers store groups rest merged
  end.

(** What [layer] gives for [k]: the value fetched under [k] when the group
    of [layer] has [k].  It serves to state the result of the loop. *)
Definition layerValue (store : Store) (groups : gmap (list N) (list (list N)))
    (layer k : list N) : option (list N) :=
  Fetch.fetched store layer (default [] (groups !! layer)) k.

(** [enumerated] is the outcome of [await enumerateSecrets()]. *)
Definition getMergedSecrets
    (enumerated : result (list Enumerate.SecretEntry)) (store : Store)
    (service env : option (list N)) : Async (gmap (list N) (list N)) :=
  await allEntries <- ([], enumerated) in
  let entries := Enumerate.filterShhEnvEntries allEntries in
  let groups := Enumerate.groupByService entries in
  mergeLayers store groups (layersOf service env) ∅.

End Run.

(** ** commands/list.ts: the merged view *)

Module ListCmd.

Definition STRIKETHROUGH_START : list N := [27] ++ js "[9m".
Definition STRIKETHROUGH_END : list N := [27] ++ js "[0m".

(** The two branch prefixes: U+251C or U+2514, twice U+2500, a space. *)
Definition branchMiddle : list N := [9500; 9472; 9472; 32].
Definition branchLast : list N := [9492; 9472; 9472; 32].

Definition layersOf (service : list N) (env : option (list N))
  : list (list N) :=
  [js "_"; service]
  ++ (if truthy env then [service ++ js "::" ++ Secrets.value env] else []).

(** The first loop: the last layer that has a key is recorded for it. *)
Definition winningLayer (groups : gmap (list N) (list (list N)))
    (layers : list (list N)) : gmap (list N) (list N) :=
  foldl (fun (winning : gmap (list N) (list N)) layer =>
           foldl (fun (winning : gmap (list N) (list N)) key =>
                    <[key := layer]> winning)
                 winning (default [] (groups !! layer)))
        ∅ layers.

(** The second loop: it runs over all layers but the last one, skips an
    empty layer name, and adds the string [layer:key] for every key whose
    winning layer is another one. *)
Definition overriddenKeys (groups : gmap (list N) (list (list N)))
    (layers : list (list N)) : gset (list N) :=
  let winning := winningLayer groups layers in
  foldl (fun (overridden : gset (list N)) layer =>
           if negb (nonEmpty layer) then overridden
           else
             foldl (fun (overridden : gset (list N)) key =>
                      if bool_decide (winning !! key ≠ Some layer)
                      then overridden ∪ {[ layer ++ js ":" ++ key ]}
                      else overridden)
                   overridden (default [] (groups !! layer)))
        ∅ (take (length layers - 1) layers).

(** [overriddenKeys.has(`${layer}:${key}`)] *)
Definition isOverridden (overridden : gset (list N)) (layer key : list N)
  : bool :=
  bool_decide (layer ++ js ":" ++ key ∈ overridden).

(** The lines printed by [printTreeWithOverrides]. *)
Fixpoint printTreeWithOverrides (keys : list (list N)) (layer : list N)
    (overridden : gset (list N)) : list (list N) :=
  match keys with
  | [] => []
  | key :: rest =>
      let prefix := match rest with [] => branchLast | _ => branchMiddle end in
      (if isOverridden overridden layer key
       then prefix ++ STRIKETHROUGH_START ++ key ++ STRIKETHROUGH_END
       else prefix ++ key)
      :: printTreeWithOverrides rest layer overridden
  end.

(** The third loop, from index [i] on: the lines printed for the layers
    that remain. *)
Fixpoint printLayers (groups : gmap (list N) (list (list N)))
    (overridden : gset (list N)) (i : nat) (layers : list (list N))
  : list (list N) :=
  match layers with
  | [] => []
  | layer :: rest =>
      let following := printLayers groups overridden (S i) rest in
      if negb (nonEmpty layer) then following
      else
        let keys := default [] (groups !! layer) in
        (if (0 <? i)%nat then [[]] else [])
        ++ (if (length keys =? 0)%nat && negb (eqb layer (js "_"))
            then following
            else [layer]
                 ++ (if (length keys =? 0)%nat then following
                     else printTreeWithOverrides keys layer overridden
                          ++ following))
  end.

(** The lines written to the console by [printMergedView]. *)
Definition printMergedView (groups : gmap (list N) (list (list N)))
    (service : list N) (env : option (list N)) : list (list N) :=
  let layers := layersOf service env in
  printLayers groups (overriddenKeys groups layers) 0 layers.

End ListCmd.


(** ** commands/list.ts: the plain tree *)

Module Tree.

(** The lines printed by [printTree]. *)
Fixpoint printTree (keys : list (list N)) : list (list N) :=
  match keys with
  | [] => []
  | key :: rest =>
      (match rest with
       | [] => ListCmd.branchLast
       | _ => ListCmd.branchMiddle
       end ++ key)
      :: printTree rest
  end.

(** The lines printed for a layer that is shown: its header and the tree
    of its keys. *)
Definition shownLayer (groups : gmap (list N) (list (list N)))
    (overridden : gset (list N)) (layer : list N) : list (list N) :=
  layer
  :: ListCmd.printTreeWithOverrides (default [] (groups !! layer)) layer
       overridden.

End Tree.

(** ** lib/enumerate.ts: the listing commands and the order of the groups *)

Module Shell.

(** What the native listing command did: the text it wrote to standard
    output and its exit status.  A command that cannot be started writes
    nothing there and has a status that is not 0. *)
Record Run := { output : list N; status : N }.

(** [await $`command 2>/dev/null || true`.text()], the line of
    [enumerateMacOS] and [enumerateLinux]: when the command fails, [true]
    runs and writes nothing, so the line ends with status 0 and its text is
    what the command wrote. *)
Definition orTrue (run : Run) : Enumerate.ShellText := Ok (output run).

(** [await $`command 2>nul`.text()], the line of [enumerateWindows]: the
    promise is rejected when the status is not 0.  The error is caught and
    never read. *)
Definition plain (run : Run) : Enumerate.ShellText :=
  if status run =? 0 then Ok (output run) else Throw (js "ShellError").

(** The text that the enumeration of [platform] awaits. *)
Definition text (platform : list N) (run : Run) : Enumerate.ShellText :=
  if eqb platform (js "win32") then plain run else orTrue run.

End Shell.

Module Grouping.

(** The keys of the [Map] that [groupByService] returns, in the order in
    which the [Map] iterates: a namespace is added at the end when it is
    set for the first time and keeps its place when it is set again. *)
Definition insertionOrder (entries : list Enumerate.SecretEntry)
  : list (list N) :=
  foldl (fun (order : list (list N)) entry =>
           if bool_decide (Enumerate.service entry ∈ order) then order
           else order ++ [Enumerate.service entry])
        [] entries.

End Grouping.

(** ** Bun.secrets as an interface *)

Module Bun.

(** The three operations of [Bun.secrets] over a keychain of type [K].
    Each takes the service, the name and the keychain before the call and
    gives the keychain after the call and what the promise settles to:
    [set] to nothing, [get] to the value or [null], [delete] to whether a
    secret was removed. *)
Record Secrets (K : Type) := {
  set : list N -> list N -> list N -> K -> K * result unit;
  get : list N -> list N -> K -> K * result (option (list N));
  delete : list N -> list N -> K -> K * result bool
}.

Arguments set {K} _ _ _ _ _.
Arguments get {K} _ _ _ _.
Arguments delete {K} _ _ _ _.

(** The laws of a keychain that stores what it is given: a value that was
    set is read back, a deleted one is gone, and no operation on one
    service and name changes what is read under another. *)
Record Lawful {K} (bun : Secrets K) : Prop := {
  get_after_set : forall service name v k k',
    set bun service name v k = (k', Ok tt) ->
    (get bun service name k').2 = Ok (Some v);
  get_after_delete : forall service name b k k',
    delete bun service name k = (k', Ok b) ->
    (get bun service name k').2 = Ok None;
  get_after_other_set : forall service name v service' name' k k',
    set bun service name v k = (k', Ok tt) ->
    (service, name) <> (service', name') ->
    (get bun service' name' k').2 = (get bun service' name' k).2;
  get_after_other_delete : forall service name b service' name' k k',
    delete bun service name k = (k', Ok b) ->
    (service, name) <> (service', name') ->
    (get bun service' name' k').2 = (get bun service' name' k).2
}.

(** A keychain that is a finite map and never rejects a call. *)
Definition mapKeychain : Secrets (gmap (list N * list N) (list N)) :=
  {| set service name v k := (<[(service, name) := v]> k, Ok tt);
     get service name k := (k, Ok (k !! (service, name)));
     delete service name k :=
       (base.delete (service, name) k,
        Ok (bool_decide (is_Some (k !! (service, name))))) |}.

End Bun.

(** ** lib/secrets.ts: the keychain operations *)

Module Keychain.

Section Wrappers.
Context {K : Type} (bun : Bun.Secrets K).

(** [validateKey(key); const serviceName = buildServiceName(service, env)]:
    the two steps that come before the keychain call in each wrapper. *)
Definition resolve (key : list N) (service env : option (list N))
  : result (list N) :=
  Secrets.validateKey key ;;; Secrets.buildServiceName service env.

Definition setSecret (key value : list N) (service env : option (list N))
    (k : K) : K * result unit :=
  match resolve key service env with
  | Throw message => (k, Throw message)
  | Ok serviceName => Bun.set bun serviceName key value k
  end.

Definition getSecret (key : list N) (service env : option (list N))
    (k : K) : K * result (option (list N)) :=
  match resolve key service env with
  | Throw message => (k, Throw message)
  | Ok serviceName => Bun.get bun serviceName key k
  end.

(** The boolean that [Bun.secrets.delete] resolves to is dropped. *)
Definition deleteSecret (key : list N) (service env : option (list N))
    (k : K) : K * result unit :=
  match resolve key service env with
  | Throw message => (k, Throw message)
  | Ok serviceName =>
      let '(k', r) := Bun.delete bun serviceName key k in
      (k', r ;;; Ok tt)
  end.

End Wrappers.

End Keychain.

(** ** The console and the exit code *)

Module Process.

(** What a command wrote to the two streams and the code it exits with. *)
Record Output := {
  stdout : list N;
  stderr : list N;
  exitCode : N
}.

(** [console.log(line)] and [console.error(line)] write the line and a
    line feed. *)
Definition log (line : list N) : list N := line ++ [10].

(** An optional string inside a template literal. *)
Definition template (o : option (list N)) : list N :=
  match o with
  | Some s => s
  | None => js "undefined"
  end.

(** The expression that get.ts, set.ts and delete.ts use to name the
    namespace in their messages. *)
Definition target (service env : option (list N)) : list N :=
  if truthy env then template service ++ js "::" ++ template env
  else if truthy service then Secrets.value service
  else js "_".

(** The catch block of the commands. *)
Definition failure (prompt message : list N) : Output :=
  {| stdout := prompt;
     stderr := log (js "Error: " ++ message);
     exitCode := 1 |}.

End Process.

(** ** commands/get.ts *)

Module GetCmd.
Import Process.

Definition run {K} (bun : Bun.Secrets K) (key : list N)
    (service env : option (list N)) (k : K) : K * Output :=
  match Keychain.getSecret bun key service env k with
  | (k', Ok (Some value)) =>
      (k', {| stdout := log value; stderr := []; exitCode := 0 |})
  | (k', Ok None) =>
      (k', failure [] (key ++ js " not found in " ++ target service env))
  | (k', Throw message) => (k', failure [] message)
  end.

End GetCmd.

(** ** commands/delete.ts *)

Module DeleteCmd.
Import Process.

(** The check mark U+2713 that opens the messages of success. *)
Definition check : list N := [10003].

Definition run {K} (bun : Bun.Secrets K) (key : list N)
    (service env : option (list N)) (k : K) : K * Output :=
  match Keychain.deleteSecret bun key service env k with
  | (k', Ok _) =>
      (k', {| stdout := log (check ++ js " Deleted " ++ key ++ js " from "
                            ++ target service env);
              stderr := [];
              exitCode := 0 |})
  | (k', Throw message) => (k', failure [] message)
  end.

End DeleteCmd.

(** ** commands/set.ts *)

Module SetCmd.
Import Process.

(** [value.indexOf(x)] on an array of bytes. *)
Fixpoint indexOf (x : N) (value : list N) : option nat :=
  match value with
  | [] => None
  | b :: rest => if b =? x then Some O else S <$> indexOf x rest
  end.

(** The loop of [readSecretFromStdin] over the chunks that the reader
    yields until it is done: the chunks that are pushed. *)
Fixpoint readChunks (stream : list (list N)) : list (list N) :=
  match stream with
  | [] => []
  | value :: rest =>
      match indexOf 10 value with
      | Some newlineIndex => [take newlineIndex value]
      | None => value :: readChunks rest
      end
  end.

(** [decode] is [new TextDecoder().decode], from bytes to code units. *)
Definition readSecretFromStdin (decode : list N -> list N)
    (stream : list (list N)) : list N :=
  trim (decode (concat (readChunks stream))).

Definition run {K} (bun : Bun.Secrets K) (decode : list N -> list N)
    (key : list N) (service env value : option (list N))
    (stdin : list (list N)) (k : K) : K * Output :=
  let prompt :=
    if truthy value then [] else js "Enter value for " ++ key ++ js ": " in
  let secretValue :=
    if truthy value then Secrets.value value
    else readSecretFromStdin decode stdin in
  if negb (nonEmpty secretValue) then
    (k, failure prompt (js "No value provided"))
  else
    match Keychain.setSecret bun key secretValue service env k with
    | (k', Ok _) =>
        (k', {| stdout := prompt
                          ++ log (DeleteCmd.check ++ js " Set " ++ key
                                  ++ js " in " ++ target service env);
                stderr := [];
                exitCode := 0 |})
    | (k', Throw message) => (k', failure prompt message)
    end.

End SetCmd.

(** ** lib/spawn.ts *)

Module Spawn.

(** [{ ...process.env, ...extraEnv }]: the properties of [extraEnv] win. *)
Definition childEnv (processEnv extraEnv : gmap (list N) (list N))
  : gmap (list N) (list N) :=
  extraEnv ∪ processEnv.

(** [os] stands for [Bun.spawn] and the wait for the child: from the
    command line and the environment to the exit code of the child, or a
    failure to start it. *)
Definition spawnWithEnv
    (os : list (list N) -> gmap (list N) (list N) -> result N)
    (processEnv : gmap (list N) (list N))
    (command : list N) (args : list (list N))
    (extraEnv : gmap (list N) (list N)) : result N :=
  os (command :: args) (childEnv processEnv extraEnv).

End Spawn.

(** ** commands/run.ts: the command line and the handler *)

Module RunCmd.
Import Process.

(** [rawArgs.indexOf(x)] *)
Fixpoint indexOf (x : list N) (rawArgs : list (list N)) : option nat :=
  match rawArgs with
  | [] => None
  | arg :: rest => if eqb arg x then Some O else S <$> indexOf x rest
  end.

(** The while loop from index [i] on, over the arguments that remain: the
    slice it ends with, or nothing when it runs off the end. *)
Fixpoint scan (rawArgs : list (list N)) : list (list N) :=
  match rawArgs with
  | [] => []
  | arg :: rest =>
      if negb (nonEmpty arg) then scan rest
      else if eqb arg (js "--service") || eqb arg (js "--env") then
        match rest with
        | [] => []
        | _ :: rest' => scan rest'
        end
      else if startsWith (js "--service=") arg
              || startsWith (js "--env=") arg then scan rest
      else if startsWith (js "-") arg then scan rest
      else rawArgs
  end.

(** The value of [commandAndArgs] after the search. *)
Definition findCommand (rawArgs : list (list N)) : list (list N) :=
  match indexOf (js "--") rawArgs with
  | Some dashDashIndex => drop (S dashDashIndex) rawArgs
  | None => scan rawArgs
  end.

Definition usage : list N :=
  js "Usage: shh-env run [--service <name>] [--env <env>] -- <command> [args...]".

(** The handler, from the point where it is called: the reads of the store
    it makes and what it writes and exits with.  The child writes to the
    inherited streams itself.  The command declares its positional
    argument as required, and the argument parser that calls the handler
    checks that before the call; that check is not part of the handler and
    not modelled here. *)
Definition run
    (os : list (list N) -> gmap (list N) (list N) -> result N)
    (processEnv : gmap (list N) (list N))
    (enumerated : result (list Enumerate.SecretEntry)) (store : Store)
    (rawArgs : list (list N)) (service env : option (list N))
  : list Call * Output :=
  match findCommand rawArgs with
  | [] =>
      ([], {| stdout := [];
              stderr := log (js "Error: No command specified") ++ log usage;
              exitCode := 1 |})
  | command :: restArgs =>
      if negb (nonEmpty command) then
        ([], failure [] (js "No command specified"))
      else
        let merged := Run.getMergedSecrets enumerated store service env in
        (calls merged,
         match outcome merged with
         | Throw message => failure [] message
         | Ok mergedSecrets =>
             match Spawn.spawnWithEnv os processEnv command restArgs
                     mergedSecrets with
             | Ok code => {| stdout := []; stderr := []; exitCode := code |}
             | Throw message => failure [] message
             end
         end)
  end.

End RunCmd.

Example split_triple :
  split (js "::") (js "a::b::c") = [js "a"; js "b"; js "c"].
Proof. reflexivity. Qed.

Example split_colons :
  split (js "::") (js "a:::b") = [js "a"; js ":b"].
Proof. reflexivity. Qed.

Example split_empty : split (js "::") [] = [[]].
Proof. reflexivity. Qed.

Example trim_ex : trim (js "  ab c  ") = js "ab c".
Proof. reflexivity. Qed.

Example build_ex :
  Secrets.buildServiceName (Some (js "a")) (Some (js "b")) = Ok (js "a::b").
Proof. reflexivity. Qed.
(** * Properties *)

(** ** Strings *)

Section Strings.

Lemma startsWith_app (p s : list N) : startsWith p (p ++ s) = true.
Proof.
  induction p as [|a p IH]; simpl; [done|].
  by rewrite N.eqb_refl, IH.
Qed.

Lemma startsWith_spec (p s : list N) :
  startsWith p s = true <-> exists t, s = p ++ t.
Proof.
  split.
  - revert s. induction p as [|a p IH]; intros s H.
    + by exists s.
    + destruct s as [|b s]; [done|]. simpl in H.
      apply andb_prop in H as [Hab H]. apply N.eqb_eq in Hab as ->.
      destruct (IH _ H) as [t ->]. by exists t.
  - intros [t ->]. apply startsWith_app.
Qed.

(** A string without the first code unit of the separator is one part. *)
Lemma splitFrom_none (c : N) (sep s : list N) :
  c ∉ s -> splitFrom (c :: sep) 0 s = [s].
Proof.
  induction s as [|d s IH]; intros Hs; [done|].
  apply not_elem_of_cons in Hs as [Hd Hs].
  cbn [splitFrom startsWith].
  destruct (N.eqb_spec c d) as [->|_]; [done|].
  cbn [andb]. by rewrite IH.
Qed.

(** The first occurrence of the separator ends the first part. *)
Lemma splitFrom_first (c : N) (sep a b : list N) :
  c ∉ a ->
  splitFrom (c :: sep) 0 (a ++ (c :: sep) ++ b)
  = a :: splitFrom (c :: sep) (length sep) (sep ++ b).
Proof.
  induction a as [|d a IH]; intros Ha.
  - pose proof (startsWith_app (c :: sep) b) as E.
    cbn [app] in E. cbn [app splitFrom]. rewrite E.
    cbn [length]. replace (S (length sep) - 1)%nat with (length sep) by lia.
    done.
  - apply not_elem_of_cons in Ha as [Hd Ha].
    cbn [app splitFrom startsWith].
    destruct (N.eqb_spec c d) as [->|_]; [done|].
    cbn [andb]. cbn [app] in IH. by rewrite IH.
Qed.

Lemma splitFrom_skip (sep t b : list N) :
  splitFrom sep (length t) (t ++ b) = splitFrom sep 0 b \/ b = [].
Proof.
  induction t as [|d t IH]; [by left|].
  destruct b as [|x b]; [by right|].
  left. cbn [length app splitFrom]. by destruct IH.
Qed.

Lemma split_two (a b : list N) :
  colon ∉ a -> colon ∉ b -> b <> [] ->
  split (js "::") (a ++ js "::" ++ b) = [a; b].
Proof.
  intros Ha Hb Hne. unfold split.
  change (js "::") with (colon :: [colon]).
  rewrite splitFrom_first by done.
  destruct (splitFrom_skip (colon :: [colon]) [colon] b) as [->|]; [|done].
  by rewrite splitFrom_none.
Qed.

End Strings.

(** ** Validation *)

Ltac bools :=
  repeat match goal with
    | H : _ && _ = true |- _ => apply andb_prop in H as [? ?]
    | H : _ || _ = true |- _ => apply orb_prop in H as [?|?]
    | H : (_ =? _) = true |- _ => apply N.eqb_eq in H
    | H : (_ <=? _) = true |- _ => apply N.leb_le in H
    | H : negb _ = true |- _ => apply negb_true_iff in H
    | H : negb _ = false |- _ => apply negb_false_iff in H
    end.

Section Validation.
Import Secrets.

Lemma serviceChar_not_colon (c : N) : serviceChar c = true -> c <> colon.
Proof.
  unfold serviceChar, isLower, isUpper, isDigit, colon.
  intros H. bools; lia.
Qed.

Lemma envChar_serviceChar (c : N) : envChar c = true -> serviceChar c = true.
Proof.
  unfold envChar, serviceChar. intros H.
  repeat (apply orb_prop in H as [H|H]); rewrite H;
    repeat rewrite orb_true_r; done.
Qed.

Lemma forallb_no_colon (f : N -> bool) (s : list N) :
  (forall c, f c = true -> c <> colon) ->
  forallb f s = true -> colon ∉ s.
Proof.
  intros Hf H Hin. apply list_elem_of_In in Hin.
  pose proof (proj1 (List.forallb_forall f s) H) as Hall.
  by apply (Hf _ (Hall _ Hin)).
Qed.

Lemma validateService_ok (s : list N) :
  validateService s = Ok tt <-> s = js "_" \/ SERVICE_PATTERN s = true.
Proof.
  unfold validateService, eqb, DEFAULT_SERVICE.
  case_bool_decide as Hs; cbn [negb andb].
  - split; [by left|done].
  - destruct (SERVICE_PATTERN s); cbn [negb]; split; try done.
    + by right.
    + by intros [|].
Qed.

Lemma validateEnv_ok (e : list N) :
  validateEnv e = Ok tt <-> ENV_PATTERN e = true.
Proof.
  unfold validateEnv. destruct (ENV_PATTERN e); cbn [negb]; by split.
Qed.

Lemma valid_service_shape (s : list N) :
  validateService s = Ok tt -> s <> [] /\ colon ∉ s.
Proof.
  intros [->|H]%validateService_ok.
  - split; [done|]. vm_compute. by intros ?%list_elem_of_singleton.
  - unfold SERVICE_PATTERN in H. apply andb_prop in H as [Hne Hall].
    split; [by destruct s|].
    eapply forallb_no_colon; [|done]. apply serviceChar_not_colon.
Qed.

Lemma valid_env_shape (e : list N) :
  validateEnv e = Ok tt -> e <> [] /\ colon ∉ e.
Proof.
  intros H%validateEnv_ok. unfold ENV_PATTERN in H.
  apply andb_prop in H as [Hne Hall].
  split; [by destruct e|].
  eapply forallb_no_colon; [|done].
  intros c Hc. by apply serviceChar_not_colon, envChar_serviceChar.
Qed.

End Validation.

(** ** The namespace codec *)

Section Codec.
Import Secrets.

(** C3. For a service accepted by validateService and an environment
    accepted by validateEnv, neither holds a colon, buildServiceName
    returns the two joined by the double colon, and parseServiceName
    returns exactly that service and that environment from it. *)
Theorem codec_round_trip (s e : list N) :
  validateService s = Ok tt ->
  validateEnv e = Ok tt ->
  (colon ∉ s) /\ (colon ∉ e)
  /\ buildServiceName (Some s) (Some e) = Ok (s ++ js "::" ++ e)
  /\ parseServiceName (s ++ js "::" ++ e)
     = {| service := s; env := Some e |}.
Proof.
  intros Hs He.
  destruct (valid_service_shape s Hs) as [Hsne Hsc].
  destruct (valid_env_shape e He) as [Hene Hec].
  repeat split; try done.
  - unfold buildServiceName.
    destruct s as [|c s]; [done|]. destruct e as [|d e]; [done|].
    cbn [truthy negb]. change (value (Some ?x)) with x.
    by rewrite Hs, He.
  - unfold parseServiceName. rewrite split_two by done.
    destruct s as [|c s]; [done|]. by destruct e as [|d e].
Qed.

Lemma codec_round_trip_witness :
  (colon ∉ js "my-app") /\ (colon ∉ js "dev")
  /\ buildServiceName (Some (js "my-app")) (Some (js "dev"))
     = Ok (js "my-app" ++ js "::" ++ js "dev")
  /\ parseServiceName (js "my-app" ++ js "::" ++ js "dev")
     = {| service := js "my-app"; env := Some (js "dev") |}.
Proof.
  apply (codec_round_trip (js "my-app") (js "dev")); reflexivity.
Defined.

End Codec.
Section SplitJoin.

Lemma splitFrom_nonempty (sep : list N) (k : nat) (s : list N) :
  splitFrom sep k s <> [].
Proof.
  revert k. induction s as [|c s IH]; intros k; [done|].
  destruct k; cbn [splitFrom]; [|apply IH].
  destruct (startsWith sep (c :: s)); [done|].
  by destruct (splitFrom sep 0 s).
Qed.

Lemma join_cons_head (sep : list N) (c : N) (p : list N)
    (ps : list (list N)) :
  join sep ((c :: p) :: ps) = c :: join sep (p :: ps).
Proof. by destruct ps. Qed.

Lemma join_cons_next (sep p q : list N) (qs : list (list N)) :
  join sep (p :: q :: qs) = p ++ sep ++ join sep (q :: qs).
Proof. done. Qed.

(** Splitting loses nothing: joining the parts gives the string back. *)
Lemma join_splitFrom (sep : list N) (k : nat) (s : list N) :
  sep <> [] -> join sep (splitFrom sep k s) = drop k s.
Proof.
  intros Hsep. revert k. induction s as [|c s IH]; intros k.
  - by destruct k.
  - destruct k; cbn [splitFrom drop]; [|apply IH].
    destruct (startsWith sep (c :: s)) eqn:E.
    + apply startsWith_spec in E as [t E].
      destruct sep as [|d sep]; [done|]. injection E as <- ->.
      pose proof (splitFrom_nonempty (c :: sep) (length (c :: sep) - 1)
                    (sep ++ t)) as Hne.
      pose proof (IH (length (c :: sep) - 1)%nat) as IH'.
      destruct (splitFrom (c :: sep) (length (c :: sep) - 1) (sep ++ t))
        as [|p ps]; [done|].
      rewrite join_cons_next, IH'. cbn [length app].
      replace (S (length sep) - 1)%nat with (length sep) by lia.
      by rewrite drop_app_length.
    + pose proof (splitFrom_nonempty sep 0 s) as Hne.
      pose proof (IH 0%nat) as IH'.
      destruct (splitFrom sep 0 s) as [|p ps]; [done|].
      rewrite join_cons_head, IH'. by rewrite drop_0.
Qed.

Lemma join_split (sep s : list N) :
  sep <> [] -> join sep (split sep s) = s.
Proof. intros H. unfold split. by rewrite join_splitFrom. Qed.

End SplitJoin.

Section CodecEdges.
Import Secrets.

(** C4. The code at the input that breaks the invariant: with the sentinel
    as service and an environment, buildServiceName returns the sentinel
    followed by the double colon and the environment, and the filter keeps
    an entry stored under that namespace. *)
Theorem sentinel_with_environment :
  buildServiceName (Some (js "_")) (Some (js "dev")) = Ok (js "_::dev")
  /\ Enumerate.filterShhEnvEntries
       [{| Enumerate.service := js "_::dev"; Enumerate.key := js "KEY" |}]
     = [{| Enumerate.service := js "_::dev"; Enumerate.key := js "KEY" |}].
Proof. split; reflexivity. Qed.

(** C5. parseServiceName returns the two parts as service and environment
    when the split on the double colon gives exactly two parts and both
    are non-empty (the string is then the two joined by one separator),
    and in every other case it returns the whole string as
    the service, without environment; a string with two separators is not
    decomposed. *)
Theorem parse_conservative (ns : list N) :
  (forall a b, split (js "::") ns = [a; b] -> a <> [] -> b <> [] ->
     parseServiceName ns = {| service := a; env := Some b |}
     /\ ns = a ++ js "::" ++ b)
  /\ ((forall a b, split (js "::") ns = [a; b] -> a = [] \/ b = []) ->
      parseServiceName ns = {| service := ns; env := None |})
  /\ parseServiceName (js "a::b::c")
     = {| service := js "a::b::c"; env := None |}.
Proof.
  split; [|split].
  - intros a b E Ha Hb. split.
    + unfold parseServiceName. rewrite E.
      destruct a; [done|]. by destruct b.
    + rewrite <- (join_split (js "::") ns) by done. by rewrite E.
  - intros H. unfold parseServiceName.
    destruct (split (js "::") ns) as [|a [|b [|c l]]] eqn:E; try done.
    destruct (H a b eq_refl) as [->| ->]; [done|].
    by destruct a.
  - reflexivity.
Qed.

Lemma parse_conservative_witness :
  (parseServiceName (js "my-app::dev")
   = {| service := js "my-app"; env := Some (js "dev") |}
   /\ js "my-app::dev" = js "my-app" ++ js "::" ++ js "dev")
  /\ parseServiceName (js "::dev")
     = {| service := js "::dev"; env := None |}.
Proof.
  split.
  - apply (proj1 (parse_conservative (js "my-app::dev")));
      [reflexivity | discriminate | discriminate].
  - apply (proj1 (proj2 (parse_conservative (js "::dev")))).
    intros a b E. vm_compute in E. injection E as <- <-. by left.
Defined.

(** C10. With the empty string as service and no environment,
    buildServiceName returns the sentinel, although validateService
    rejects the empty string; with the empty string as service and an
    environment it fails with the message that the environment requires a
    service. *)
Theorem build_empty_service :
  buildServiceName (Some []) None = Ok (js "_")
  /\ (exists m, validateService [] = Throw m)
  /\ (forall e, e <> [] ->
        buildServiceName (Some []) (Some e)
        = Throw (js "--env requires --service to be specified")).
Proof.
  split; [reflexivity|]. split; [by eexists|].
  intros e He. destruct e; [done|]. reflexivity.
Qed.

Lemma build_empty_service_witness :
  buildServiceName (Some []) (Some (js "dev"))
  = Throw (js "--env requires --service to be specified").
Proof.
  apply (proj2 (proj2 build_empty_service)). discriminate.
Defined.

End CodecEdges.
(** ** Grouping and filtering *)

Section Grouping.
Import Enumerate.

Implicit Types (entries : list SecretEntry) (l : list N).

(** The keys of the entries stored under [l], in the order of the
    entries. *)
Local Abbreviation keysUnder l entries :=
  (List.map key (List.filter (fun e => eqb (service e) l) entries)).

Lemma grouping_lookup entries (g : gmap (list N) (list (list N))) l :
  foldl (fun (groups : gmap (list N) (list (list N))) entry =>
           let existing := default [] (groups !! service entry) in
           <[service entry := existing ++ [key entry]]> groups)
        g entries !! l
  = match g !! l, keysUnder l entries with
    | None, [] => None
    | o, ks => Some (default [] o ++ ks)
    end.
Proof.
  revert g. induction entries as [|e rest IH]; intros g; cbn [foldl].
  - cbn. destruct (g !! l); [|done]. by rewrite app_nil_r.
  - rewrite IH. cbn [List.filter].
    destruct (decide (service e = l)) as [Hs|Hs].
    + assert (eqb (service e) l = true) as ->
        by by apply bool_decide_eq_true.
      rewrite <- Hs, lookup_insert_eq. cbn [List.map default].
      destruct (g !! service e) as [ks0|]; cbn [default app].
      all: unfold id; by rewrite <- ?app_assoc.
    + assert (eqb (service e) l = false) as ->
        by by apply bool_decide_eq_false.
      by rewrite lookup_insert_ne.
Qed.

Lemma insertSorted_elem (k x : list N) (ks : list (list N)) :
  x ∈ insertSorted k ks <-> x = k \/ x ∈ ks.
Proof.
  induction ks as [|h t IH]; cbn [insertSorted].
  - rewrite list_elem_of_singleton. split; [by left|].
    intros [?|?%elem_of_nil]; done.
  - destruct (strLe k h).
    + by rewrite elem_of_cons.
    + rewrite !elem_of_cons, IH. tauto.
Qed.

Lemma sort_elem (x : list N) (ks : list (list N)) : x ∈ sort ks <-> x ∈ ks.
Proof.
  unfold sort. induction ks as [|k ks IH]; [done|].
  cbn [foldr]. by rewrite insertSorted_elem, elem_of_cons, IH.
Qed.

Lemma strLe_total (a b : list N) : strLe a b = false -> strLe b a = true.
Proof.
  revert b. induction a as [|x a IH]; intros [|y b]; cbn; try done.
  intros H. apply orb_false_elim in H as [Hlt H].
  apply N.ltb_ge in Hlt.
  destruct (N.eqb_spec x y) as [->|Hne].
  - cbn in H. rewrite N.eqb_refl, (IH _ H). by rewrite orb_true_r.
  - assert ((y <? x) = true) as -> by (apply N.ltb_lt; lia). done.
Qed.

Lemma insertSorted_perm (k : list N) (ks : list (list N)) :
  insertSorted k ks ≡ₚ k :: ks.
Proof.
  induction ks as [|h t IH]; [done|]. cbn [insertSorted].
  destruct (strLe k h); [done|]. by rewrite IH, Permutation_swap.
Qed.

(** Sorting rearranges the keys and puts them in ascending order. *)
Lemma sort_perm (ks : list (list N)) : sort ks ≡ₚ ks.
Proof.
  unfold sort. induction ks as [|k ks IH]; [done|].
  cbn [foldr]. by rewrite insertSorted_perm, IH.
Qed.

Lemma insertSorted_sorted (k : list N) (ks : list (list N)) :
  Sorted (fun a b => strLe a b = true) ks ->
  Sorted (fun a b => strLe a b = true) (insertSorted k ks).
Proof.
  induction 1 as [|h t Ht IH Hhd]; cbn [insertSorted].
  - by repeat constructor.
  - destruct (strLe k h) eqn:E.
    + by repeat constructor.
    + constructor; [done|].
      destruct t as [|h' t]; cbn [insertSorted].
      * constructor. by apply strLe_total.
      * destruct (strLe k h'); constructor;
          [by apply strLe_total | by inversion Hhd].
Qed.

Lemma sort_sorted (ks : list (list N)) :
  Sorted (fun a b => strLe a b = true) (sort ks).
Proof.
  unfold sort. induction ks as [|k ks IH]; [constructor|].
  cbn [foldr]. by apply insertSorted_sorted.
Qed.

Example group_sorts_keys :
  groupByService [ {| service := js "_"; key := js "B" |};
                   {| service := js "_"; key := js "A" |} ]
  = {[ js "_" := [js "A"; js "B"] ]}.
Proof. vm_compute. reflexivity. Qed.

Lemma groupByService_lookup entries l :
  groupByService entries !! l
  = match keysUnder l entries with
    | [] => None
    | ks => Some (sort ks)
    end.
Proof.
  unfold groupByService. rewrite lookup_fmap, grouping_lookup, lookup_empty.
  by destruct (keysUnder l entries).
Qed.

(** The keys of a group are the keys of the entries of its namespace. *)
Lemma groupByService_keys entries l k :
  k ∈ default [] (groupByService entries !! l)
  <-> exists e, e ∈ entries /\ service e = l /\ key e = k.
Proof.
  rewrite groupByService_lookup.
  assert (H : k ∈ keysUnder l entries
              <-> exists e, e ∈ entries /\ service e = l /\ key e = k).
  { rewrite list_elem_of_In, in_map_iff. split.
    - intros (e & <- & [He Hs]%filter_In). exists e.
      apply list_elem_of_In in He. unfold eqb in Hs.
      by apply bool_decide_eq_true in Hs.
    - intros (e & He & <- & <-). exists e. split; [done|].
      apply filter_In. split; [by apply list_elem_of_In|].
      by apply bool_decide_eq_true. }
  rewrite <- H. destruct (keysUnder l entries) as [|k0 ks]; [done|].
  apply sort_elem.
Qed.

Lemma filter_entries (all : list SecretEntry) (e : SecretEntry) :
  e ∈ filterShhEnvEntries all
  <-> e ∈ all /\ servicePattern (service e) = true
      /\ keyPattern (key e) = true.
Proof.
  unfold filterShhEnvEntries.
  rewrite !list_elem_of_In, filter_In, andb_true_iff. tauto.
Qed.

Lemma keyChar_not_colon (c : N) : Secrets.keyChar c = true -> c <> colon.
Proof.
  unfold Secrets.keyChar, isUpper, isDigit, colon. intros H. bools; lia.
Qed.

Lemma keyPattern_no_colon (k : list N) : keyPattern k = true -> colon ∉ k.
Proof.
  destruct k as [|c k]; [done|]. cbn [keyPattern].
  intros [Hc Hk]%andb_prop. apply not_elem_of_cons. split.
  - unfold isUpper, colon in *. bools. lia.
  - eapply forallb_no_colon; [|done]. apply keyChar_not_colon.
Qed.

Lemma servicePattern_nonempty l : servicePattern l = true -> l <> [].
Proof. by intros H ->. Qed.

(** The group map of the filtered entries has keys without colon and no
    keys under the empty name. *)
Lemma pipeline_keys_no_colon (all : list SecretEntry) l k :
  k ∈ default [] (groupByService (filterShhEnvEntries all) !! l) ->
  colon ∉ k.
Proof.
  intros (e & (_ & _ & Hk)%filter_entries & _ & <-)%groupByService_keys.
  by apply keyPattern_no_colon.
Qed.

Lemma pipeline_keys_not_proto (all : list SecretEntry) l k :
  k ∈ default [] (groupByService (filterShhEnvEntries all) !! l) ->
  k <> Obj.PROTO.
Proof.
  intros (e & (_ & _ & Hk)%filter_entries & _ & <-)%groupByService_keys.
  intros E. by rewrite E in Hk.
Qed.

Lemma pipeline_named_layers (all : list SecretEntry) k :
  k ∉ default [] (groupByService (filterShhEnvEntries all) !! []).
Proof.
  intros (e & (_ & Hs & _)%filter_entries & E & _)%groupByService_keys.
  by rewrite E in Hs.
Qed.

End Grouping.


(** ** The unit tests of the repository, on the embedding *)

Section RepositoryTests.
Import Enumerate.

Let entry (s k : string) : SecretEntry := {| service := js s; key := js k |}.

Example test_groups_entries_by_service :
  let groups :=
    groupByService [entry "_" "A"; entry "_" "B"; entry "my-app" "C"] in
  groups !! js "_" = Some [js "A"; js "B"]
  /\ groups !! js "my-app" = Some [js "C"].
Proof. vm_compute. by split. Qed.

Example test_sorts_keys_within_each_service :
  groupByService [entry "_" "ZEBRA"; entry "_" "ALPHA"; entry "_" "MIDDLE"]
  !! js "_" = Some [js "ALPHA"; js "MIDDLE"; js "ZEBRA"].
Proof. vm_compute. reflexivity. Qed.

Example test_empty_map_for_empty_input : groupByService [] = ∅.
Proof. reflexivity. Qed.

Example test_handles_service_env_entries :
  let groups :=
    groupByService [entry "my-app" "API_KEY"; entry "my-app::dev" "DEBUG";
                    entry "my-app::dev" "DB_URL"] in
  groups !! js "my-app" = Some [js "API_KEY"]
  /\ groups !! js "my-app::dev" = Some [js "DB_URL"; js "DEBUG"].
Proof. vm_compute. by split. Qed.

Example test_keeps_valid_entries :
  filterShhEnvEntries
    [entry "_" "API_KEY"; entry "my-app" "DATABASE_URL";
     entry "my-app::dev" "DEBUG"]
  = [entry "_" "API_KEY"; entry "my-app" "DATABASE_URL";
     entry "my-app::dev" "DEBUG"].
Proof. reflexivity. Qed.

Example test_filters_spaces_in_service :
  filterShhEnvEntries
    [entry "_" "API_KEY"; entry "AirPort" "WIFI_NAME";
     entry "Soduto Host" "SOME_KEY"]
  = [entry "_" "API_KEY"; entry "AirPort" "WIFI_NAME"].
Proof. reflexivity. Qed.

Example test_filters_lowercase_keys :
  filterShhEnvEntries
    [entry "_" "VALID_KEY"; entry "_" "invalid_key"; entry "_" "MixedCase"]
  = [entry "_" "VALID_KEY"].
Proof. reflexivity. Qed.

Example test_filters_keys_starting_with_numbers :
  filterShhEnvEntries [entry "_" "GOOD"; entry "_" "1BAD"]
  = [entry "_" "GOOD"].
Proof. reflexivity. Qed.

Example test_filters_special_chars_in_service :
  filterShhEnvEntries
    [entry "valid-svc" "KEY"; entry "bad svc" "KEY"; entry "bad/svc" "KEY";
     entry "bad@svc" "KEY"]
  = [entry "valid-svc" "KEY"].
Proof. reflexivity. Qed.

Example test_accepts_dots_and_dashes :
  filterShhEnvEntries
    [entry "my.app" "KEY"; entry "my-app" "KEY"; entry "my_app" "KEY";
     entry "app.v2.3" "KEY"]
  = [entry "my.app" "KEY"; entry "my-app" "KEY"; entry "my_app" "KEY";
     entry "app.v2.3" "KEY"].
Proof. reflexivity. Qed.

Example test_accepts_service_env_format :
  filterShhEnvEntries
    [entry "my-app::dev" "KEY"; entry "my-app::staging-1" "KEY";
     entry "app::prod_v2" "KEY"]
  = [entry "my-app::dev" "KEY"; entry "my-app::staging-1" "KEY";
     entry "app::prod_v2" "KEY"].
Proof. reflexivity. Qed.

Example test_rejects_malformed_service_env :
  filterShhEnvEntries
    [entry "::dev" "KEY"; entry "app::" "KEY"; entry "app::dev::extra" "KEY"]
  = [].
Proof. reflexivity. Qed.

Example test_filters_keys_with_dashes_or_dots :
  filterShhEnvEntries
    [entry "_" "API-KEY"; entry "_" "API.KEY"; entry "_" "API_KEY"]
  = [entry "_" "API_KEY"].
Proof. reflexivity. Qed.

End RepositoryTests.
(** ** Fetching the values of a namespace *)

Section FetchFacts.
Import Obj Fetch.

Implicit Types (store : Store) (keys : list (list N)).
Implicit Types (acc m : gmap (list N) (list N)).

Lemma outcome_abind_Ok {A B} (m : Async A) (k : A -> Async B) (b : B) :
  outcome (abind m k) = Ok b ->
  exists a, outcome m = Ok a /\ outcome (k a) = Ok b.
Proof.
  destruct m as [cs [a|e]]; [|done]. unfold abind, outcome.
  intros H. exists a. split; [done|]. by destruct (k a).
Qed.

Lemma abind_ret {A B} (a : A) (k : A -> Async B) : abind (ret a) k = k a.
Proof. unfold abind, ret. by destruct (k a). Qed.

Lemma abind_ext {A B} (m : Async A) (f g : A -> Async B) :
  (forall a, f a = g a) -> abind m f = abind m g.
Proof. intros H. destruct m as [cs [a|e]]; [|done]. cbn. by rewrite H. Qed.

Lemma abind_assoc {A B C} (m : Async A) (f : A -> Async B)
    (g : B -> Async C) :
  abind (abind m f) g = abind m (fun a => abind (f a) g).
Proof.
  destruct m as [cs [a|e]]; [|done]. unfold abind.
  destruct (f a) as [cs1 [b|e]]; [|done].
  destruct (g b) as [cs2 r]. by rewrite app_assoc.
Qed.

Lemma setProperty_lookup acc key v k :
  setProperty acc key v !! k
  = if bool_decide (k = key) && negb (eqb k PROTO) then Some v
    else acc !! k.
Proof.
  unfold setProperty, eqb.
  destruct (decide (k = key)) as [->|Hne].
  - rewrite (bool_decide_eq_true_2 (key = key)) by done.
    case_bool_decide; cbn [negb andb]; [done|].
    by rewrite lookup_insert_eq.
  - rewrite (bool_decide_eq_false_2 (k = key)) by done. cbn [andb].
    case_bool_decide; [done|]. by rewrite lookup_insert_ne.
Qed.

(** The loop reads the store under the given service, for the given keys
    only. *)
Lemma getSecretsLoop_calls store svc keys acc :
  forall c, c ∈ calls (getSecretsLoop store svc keys acc) ->
            c.1 = svc /\ c.2 ∈ keys.
Proof.
  revert acc. induction keys as [|key rest IH]; intros acc c.
  - cbn. by intros ?%elem_of_nil.
  - cbn [getSecretsLoop]. unfold secretsGet, abind.
    destruct (store svc key) as [value|e].
    + specialize (IH (match value with
                      | Some v => setProperty acc key v
                      | None => acc
                      end) c).
      destruct (getSecretsLoop store svc rest _) as [cs r].
      cbn in *. intros [->|H]%elem_of_cons.
      * split; [done|]. apply elem_of_cons. by left.
      * destruct (IH H). split; [done|]. apply elem_of_cons. by right.
    + cbn. intros ->%list_elem_of_singleton.
      split; [done|]. apply elem_of_cons. by left.
Qed.

(** The result of the loop, when it ends without a rejected read. *)
Lemma getSecretsLoop_lookup store svc keys acc m :
  outcome (getSecretsLoop store svc keys acc) = Ok m ->
  forall k, m !! k = match fetched store svc keys k with
                     | Some v => Some v
                     | None => acc !! k
                     end.
Proof.
  revert acc. induction keys as [|key rest IH]; intros acc.
  - intros [= <-] k. unfold fetched.
    rewrite bool_decide_eq_false_2; [done|]. apply not_elem_of_nil.
  - cbn [getSecretsLoop]. intros (value & Hv & Hm)%outcome_abind_Ok.
    unfold secretsGet, outcome in Hv. cbn in Hv.
    intros k. rewrite (IH _ Hm). unfold fetched.
    destruct (decide (k = key)) as [->|Hne].
    + rewrite (bool_decide_eq_true_2 (key ∈ key :: rest))
        by (apply elem_of_cons; by left).
      rewrite Hv. cbn [andb].
      destruct (bool_decide (key ∈ rest)), (negb (eqb key PROTO)) eqn:Hp,
        value as [v|]; cbn [andb]; try done;
        by rewrite setProperty_lookup, Hp, ?bool_decide_eq_true_2.
    + assert (Hrest : bool_decide (k ∈ key :: rest) = bool_decide (k ∈ rest)).
      { apply bool_decide_ext. split.
        - by intros [?|?]%elem_of_cons.
        - intros ?. apply elem_of_cons. by right. }
      rewrite Hrest.
      assert (Hacc : (match value with
                      | Some v => setProperty acc key v
                      | None => acc
                      end) !! k = acc !! k).
      { destruct value as [v|]; [|done].
        by rewrite setProperty_lookup, bool_decide_eq_false_2. }
      by rewrite Hacc.
Qed.

(** The loop reads every key once, in order, when no read is rejected. *)
Lemma getSecretsLoop_total store svc keys acc :
  (forall k, k ∈ keys -> exists o, store svc k = Ok o) ->
  exists m, getSecretsLoop store svc keys acc
            = (List.map (fun k => (svc, k)) keys, Ok m).
Proof.
  revert acc. induction keys as [|key rest IH]; intros acc Hok.
  - by exists acc.
  - destruct (Hok key) as [value Hv]; [apply elem_of_cons; by left|].
    destruct (IH (match value with
                  | Some v => setProperty acc key v
                  | None => acc
                  end))
      as (m & Hm).
    { intros k Hk. apply Hok, elem_of_cons. by right. }
    exists m. cbn [getSecretsLoop]. unfold secretsGet, abind.
    by rewrite Hv, Hm.
Qed.

Lemma fetched_Some store svc keys k v :
  fetched store svc keys k = Some v
  <-> k ∈ keys /\ k <> PROTO /\ store svc k = Ok (Some v).
Proof.
  unfold fetched, eqb.
  destruct (decide (k ∈ keys)) as [Hk|Hk], (decide (k = PROTO)) as [Hp|Hp].
  all: rewrite ?(bool_decide_eq_true_2 _ Hk), ?(bool_decide_eq_false_2 _ Hk),
         ?(bool_decide_eq_true_2 _ Hp), ?(bool_decide_eq_false_2 _ Hp);
       cbn [negb andb]; try (split; [done|tauto]).
  destruct (store svc k) as [[w|]|]; split; try done.
  - by intros [= ->].
  - by intros (_ & _ & [= ->]).
  - by intros (_ & _ & ?).
  - by intros (_ & _ & ?).
Qed.

Lemma fetched_proto store svc keys : fetched store svc keys PROTO = None.
Proof.
  unfold fetched, eqb. rewrite (bool_decide_eq_true_2 (PROTO = PROTO)) by done.
  by rewrite andb_false_r.
Qed.

Lemma getSecretsForService_ok store svc keys :
  (forall k, k ∈ keys -> exists o, store svc k = Ok o) ->
  exists m,
    getSecretsForService store svc keys
    = (List.map (fun k => (svc, k)) keys, Ok m)
    /\ forall k, m !! k = fetched store svc keys k.
Proof.
  intros Hok. destruct (getSecretsLoop_total store svc keys ∅ Hok)
    as [m Hm].
  exists m. split; [done|]. intros k.
  rewrite (getSecretsLoop_lookup store svc keys ∅ m) by by rewrite Hm.
  rewrite lookup_empty. by destruct (fetched store svc keys k).
Qed.

(** [Object.assign] from a result of the loop is the union that prefers
    the result. *)
Lemma assign_fetched store (svc : list N) keys
    (target secrets : gmap (list N) (list N)) :
  (forall k, secrets !! k = fetched store svc keys k) ->
  assign target secrets = secrets ∪ target.
Proof.
  intros H. unfold assign. rewrite delete_id; [done|].
  by rewrite H, fetched_proto.
Qed.

End FetchFacts.
(** ** The flat merge *)

Section MergeFacts.
Import Obj Fetch Run.

Variable store : Store.
Variable groups : gmap (list N) (list (list N)).

Implicit Types (layers : list (list N)) (m : gmap (list N) (list N)).
Implicit Types (layer k : list N).

Local Abbreviation keysOf layer := (default [] (groups !! layer)).

(** A layer without keys is the same as a layer whose fetch is empty. *)
Lemma mergeLayers_cons layer layers m :
  mergeLayers store groups (layer :: layers) m
  = abind (getSecretsForService store layer (keysOf layer))
      (fun secrets => mergeLayers store groups layers (assign m secrets)).
Proof.
  cbn [mergeLayers]. destruct (keysOf layer) as [|key rest]; [|done].
  cbn [length Nat.ltb Nat.leb]. unfold getSecretsForService.
  cbn [getSecretsLoop]. rewrite abind_ret. unfold assign.
  by rewrite delete_empty, (left_id_L ∅ (∪)).
Qed.

Lemma mergeLayers_app layers1 layers2 m :
  mergeLayers store groups (layers1 ++ layers2) m
  = abind (mergeLayers store groups layers1 m)
      (fun m1 => mergeLayers store groups layers2 m1).
Proof.
  revert m. induction layers1 as [|layer rest IH]; intros m.
  - cbn [app mergeLayers]. by rewrite abind_ret.
  - cbn [app]. rewrite !mergeLayers_cons, abind_assoc.
    apply abind_ext. intros secrets. apply IH.
Qed.

(** The result of a fetch that ends is described by [fetched]. *)
Lemma fetch_outcome layer (secrets : gmap (list N) (list N)) :
  outcome (getSecretsForService store layer (keysOf layer)) = Ok secrets ->
  forall k, secrets !! k = layerValue store groups layer k.
Proof.
  intros Hs k. unfold layerValue.
  rewrite (getSecretsLoop_lookup _ _ _ _ _ Hs), lookup_empty.
  by destruct (fetched store layer (keysOf layer) k).
Qed.

(** A layer whose read of [k] finds nothing leaves [k] as it was. *)
Lemma mergeLayers_absent layer m m' k :
  store layer k = Ok None ->
  outcome (mergeLayers store groups [layer] m) = Ok m' ->
  m' !! k = m !! k.
Proof.
  intros Hk. rewrite mergeLayers_cons.
  intros (secrets & Hs & [= <-])%outcome_abind_Ok.
  pose proof (fetch_outcome layer secrets Hs) as Hf.
  rewrite (assign_fetched _ _ _ _ _ Hf), lookup_union_r; [done|].
  rewrite Hf. unfold layerValue, fetched. rewrite Hk.
  by destruct (bool_decide (k ∈ keysOf layer) && negb (eqb k PROTO)).
Qed.

Lemma mergeLayers_calls layers m c :
  c ∈ calls (mergeLayers store groups layers m) ->
  c.1 ∈ layers /\ c.2 ∈ keysOf c.1.
Proof.
  revert m. induction layers as [|layer rest IH]; intros m.
  - cbn. by intros ?%elem_of_nil.
  - rewrite mergeLayers_cons. unfold abind.
    pose proof (getSecretsLoop_calls store layer (keysOf layer) ∅ c) as Hc.
    fold (getSecretsForService store layer (keysOf layer)) in Hc.
    destruct (getSecretsForService store layer (keysOf layer))
      as [cs [secrets|e]]; cbn in Hc.
    + specialize (IH (assign m secrets)).
      destruct (mergeLayers store groups rest (assign m secrets))
        as [cs' r].
      cbn in *. intros [H|H]%elem_of_app.
      * destruct (Hc H) as [-> ?]. split; [|done].
        apply elem_of_cons. by left.
      * destruct (IH H). split; [|done]. apply elem_of_cons. by right.
    + cbn. intros H. destruct (Hc H) as [-> ?]. split; [|done].
      apply elem_of_cons. by left.
Qed.

(** When no read of an enumerated key is rejected, the loop ends with a
    map in which every key holds the value of the last layer that has one
    for it, or else the value it had before the loop. *)
Lemma mergeLayers_ok layers m :
  (forall layer k, layer ∈ layers -> k ∈ keysOf layer ->
                   exists o, store layer k = Ok o) ->
  exists m',
    outcome (mergeLayers store groups layers m) = Ok m'
    /\ forall k v,
        m' !! k = Some v <->
        (exists before layer after,
            layers = before ++ layer :: after
            /\ layerValue store groups layer k = Some v
            /\ forall l, l ∈ after -> layerValue store groups l k = None)
        \/ (m !! k = Some v
            /\ forall l, l ∈ layers -> layerValue store groups l k = None).
Proof.
  revert m. induction layers as [|layer rest IH]; intros m Hok.
  - exists m. split; [done|]. intros k v. split.
    + intros H. right. split; [done|]. by intros l ?%elem_of_nil.
    + intros [(before & l & after & E & _)|[H _]]; [|done].
      by destruct before.
  - destruct (getSecretsForService_ok store layer (keysOf layer))
      as (secrets & Hs & Hlook).
    { intros k Hk. apply Hok; [apply elem_of_cons; by left|done]. }
    destruct (IH (assign m secrets)) as (m' & Hm' & Hchar).
    { intros l k Hl. apply Hok, elem_of_cons. by right. }
    exists m'. split.
    { rewrite mergeLayers_cons, Hs. unfold abind, outcome in *.
      by destruct (mergeLayers store groups rest (assign m secrets)). }
    intros k v. rewrite Hchar, (assign_fetched _ _ _ m _ Hlook).
    rewrite lookup_union_Some_raw, Hlook. split.
    + intros [(before & l & after & -> & Hv & Hafter)
             |[[Hv|[Hnone Hm]] Hrest]].
      * left. by exists (layer :: before), l, after.
      * left. by exists [], layer, rest.
      * right. split; [done|].
        intros l [->|Hl]%elem_of_cons; [done|by apply Hrest].
    + intros [(before & l & after & E & Hv & Hafter)|[Hm Hall]].
      * destruct before as [|b before]; cbn in E; injection E as -> ->.
        -- right. split; [by left|done].
        -- left. by exists before, l, after.
      * right. split.
        -- right. split; [|done]. apply Hall, elem_of_cons. by left.
        -- intros l Hl. apply Hall, elem_of_cons. by right.
Qed.

End MergeFacts.
Section MergeClaims.
Import Enumerate Obj Fetch Run.

Lemma getMergedSecrets_unfold allEntries store service env :
  getMergedSecrets (Ok allEntries) store service env
  = mergeLayers store (groupByService (filterShhEnvEntries allEntries))
      (layersOf service env) ∅.
Proof.
  unfold getMergedSecrets, abind.
  by destruct (mergeLayers _ _ _ _).
Qed.

(** C1. For every enumeration result, store and request in which no read
    of an enumerated key of a layer is rejected: the store is only read
    for keys that the group map has under a layer of the request (so a
    layer absent from the group map causes no read and no error); the
    merge ends with a map in which a key holds the value v exactly when
    some layer of the sequence defines the key with v and no later layer
    of the sequence defines it.  The sequence is the root, then the
    service, then the service with the environment.  With X defined as 1,
    2 and 3 in the three layers of app and dev, the merge is X = 3. *)
Theorem flat_merge_last_layer_wins :
  (forall allEntries store service env,
      let groups := groupByService (filterShhEnvEntries allEntries) in
      let layers := layersOf service env in
      let run := getMergedSecrets (Ok allEntries) store service env in
      (forall layer k, layer ∈ layers ->
                       k ∈ default [] (groups !! layer) ->
                       exists o, store layer k = Ok o) ->
      (forall c, c ∈ calls run ->
                 c.1 ∈ layers /\ c.2 ∈ default [] (groups !! c.1))
      /\ exists merged,
          outcome run = Ok merged
          /\ forall k v,
              merged !! k = Some v <->
              exists before layer after,
                layers = before ++ layer :: after
                /\ (k ∈ default [] (groups !! layer)
                    /\ store layer k = Ok (Some v))
                /\ forall l, l ∈ after ->
                     ~ (k ∈ default [] (groups !! l)
                        /\ exists w, store l k = Ok (Some w)))
  /\ (forall s e, s <> [] -> e <> [] ->
        layersOf (Some s) (Some e) = [js "_"; s; s ++ js "::" ++ e]
        /\ layersOf (Some s) None = [js "_"; s]
        /\ layersOf None None = [js "_"])
  /\ getMergedSecrets
       (Ok [ {| service := js "_"; key := js "X" |};
             {| service := js "app"; key := js "X" |};
             {| service := js "app::dev"; key := js "X" |} ])
       (storeOf [ (js "_", js "X", js "1");
                  (js "app", js "X", js "2");
                  (js "app::dev", js "X", js "3") ])
       (Some (js "app")) (Some (js "dev"))
     = ([ (js "_", js "X"); (js "app", js "X"); (js "app::dev", js "X") ],
        Ok {[ js "X" := js "3" ]}).
Proof.
  split; [|split].
  - intros allEntries store service env groups layers run Hok.
    subst run. rewrite getMergedSecrets_unfold. fold groups layers.
    split; [intros c; apply mergeLayers_calls|].
    destruct (mergeLayers_ok store groups layers ∅ Hok)
      as (merged & Hm & Hchar).
    exists merged. split; [done|]. intros k v. rewrite Hchar. split.
    + intros [(before & layer & after & E & Hv & Hafter)|[H _]];
        [|by rewrite lookup_empty in H].
      exists before, layer, after. split; [done|].
      apply fetched_Some in Hv as (Hk & _ & Hv). split; [done|].
      intros l Hl [Hk' [w Hw]].
      specialize (Hafter l Hl).
      assert (layerValue store groups l k = Some w) as Hs.
      { apply fetched_Some. split; [done|]. split; [|done].
        by eapply pipeline_keys_not_proto. }
      congruence.
    + intros (before & layer & after & E & [Hk Hv] & Hafter). left.
      exists before, layer, after. split; [done|]. split.
      { apply fetched_Some. split; [done|]. split; [|done].
        by eapply pipeline_keys_not_proto. }
      intros l Hl.
      destruct (layerValue store groups l k) as [w|] eqn:Hw; [|done].
      apply fetched_Some in Hw as (? & _ & ?). exfalso.
      apply (Hafter l Hl). eauto.
  - intros s e Hs He. destruct s; [done|]. by destruct e.
  - vm_compute. reflexivity.
Qed.

Lemma flat_merge_last_layer_wins_witness :
  exists merged,
    outcome (getMergedSecrets
               (Ok [ {| service := js "_"; key := js "EDITOR" |};
                     {| service := js "app"; key := js "API_KEY" |};
                     {| service := js "app::dev"; key := js "API_KEY" |} ])
               (storeOf [ (js "_", js "EDITOR", js "vim");
                          (js "app", js "API_KEY", js "k1");
                          (js "app::dev", js "API_KEY", js "k2") ])
               (Some (js "app")) (Some (js "dev")))
    = Ok merged
    /\ merged !! js "API_KEY" = Some (js "k2").
Proof.
  destruct (proj1 flat_merge_last_layer_wins
              [ {| service := js "_"; key := js "EDITOR" |};
                {| service := js "app"; key := js "API_KEY" |};
                {| service := js "app::dev"; key := js "API_KEY" |} ]
              (storeOf [ (js "_", js "EDITOR", js "vim");
                         (js "app", js "API_KEY", js "k1");
                         (js "app::dev", js "API_KEY", js "k2") ])
              (Some (js "app")) (Some (js "dev")))
    as [_ (merged & Hm & Hchar)].
  - intros layer k _ _. by eexists.
  - exists merged. split; [exact Hm|]. apply Hchar.
    exists [js "_"; js "app"], (js "app::dev"), [].
    split; [reflexivity|]. split.
    + split; [|reflexivity]. vm_compute. apply elem_of_cons. by left.
    + by intros l ?%elem_of_nil.
Defined.

(** C9, counterexample.  For the key list that holds the one name that an
    assignment does not write as an own property, the store is read and
    returns a value, and the result does not hold the key: its domain is
    not the set of requested keys with a value. *)
Example proto_is_not_written :
  storeOf [ (js "app", PROTO, js "x") ] (js "app") PROTO = Ok (Some (js "x"))
  /\ getSecretsForService
       (storeOf [ (js "app", PROTO, js "x") ]) (js "app") [PROTO]
     = ([ (js "app", PROTO) ], Ok ∅).
Proof. split; vm_compute; reflexivity. Qed.

(** C9, as amended.  For every key list that does not hold the name
    __proto__ (no key of the key grammar is that name), when no read of a
    requested key is rejected, getSecretsForService reads each requested
    key once and returns a map that holds a key exactly when the key was
    requested and its read found a value, with that value; with no key it
    reads nothing and returns the empty map.
    In the merge loop, a layer added after others whose read of a key
    finds nothing leaves the value the earlier layers gave that key. *)
Theorem absent_values_are_omitted :
  (forall store serviceName keys,
      PROTO ∉ keys ->
      (forall k, k ∈ keys -> exists o, store serviceName k = Ok o) ->
      exists m,
        getSecretsForService store serviceName keys
        = (List.map (fun k => (serviceName, k)) keys, Ok m)
        /\ (forall k, k ∈ dom m <->
                      k ∈ keys
                      /\ exists v, store serviceName k = Ok (Some v))
        /\ (forall k v, m !! k = Some v <->
                        k ∈ keys /\ store serviceName k = Ok (Some v)))
  /\ (forall store serviceName,
        getSecretsForService store serviceName [] = ([], Ok ∅))
  /\ (forall store groups lower layer merged merged' k,
        store layer k = Ok None ->
        outcome (mergeLayers store groups lower ∅) = Ok merged ->
        outcome (mergeLayers store groups (lower ++ [layer]) ∅)
        = Ok merged' ->
        merged' !! k = merged !! k).
Proof.
  split; [|split].
  - intros store svc keys Hproto Hok.
    destruct (getSecretsForService_ok store svc keys Hok)
      as (m & Hm & Hlook).
    exists m. split; [done|].
    assert (Hv : forall k v, m !! k = Some v <->
                             k ∈ keys /\ store svc k = Ok (Some v)).
    { intros k v. rewrite Hlook, fetched_Some. split.
      - by intros (? & _ & ?).
      - intros [Hk ?]. split; [done|]. split; [|done]. by intros ->. }
    split; [|done]. intros k. rewrite elem_of_dom. split.
    + intros [v H]. apply Hv in H as [? ?]. eauto.
    + intros [Hk [v H]]. exists v. by apply Hv.
  - done.
  - intros store groups lower layer merged merged' k Hk Hlow.
    rewrite mergeLayers_app.
    intros (m1 & Hm1 & Hlast)%outcome_abind_Ok.
    assert (m1 = merged) as -> by congruence.
    by eapply mergeLayers_absent.
Qed.

Lemma absent_values_are_omitted_witness :
  (exists m,
      getSecretsForService
        (storeOf [ (js "app", js "A", js "1") ]) (js "app")
        [js "A"; js "B"]
      = ([ (js "app", js "A"); (js "app", js "B") ], Ok m)
      /\ (js "A" ∈ dom m) /\ (js "B" ∉ dom m))
  /\ ({[ js "A" := js "1"; js "B" := js "2" ]} : gmap (list N) (list N))
     !! js "A"
     = ({[ js "A" := js "1" ]} : gmap (list N) (list N)) !! js "A".
Proof.
  split.
  - destruct (proj1 absent_values_are_omitted
                (storeOf [ (js "app", js "A", js "1") ]) (js "app")
                [js "A"; js "B"])
      as (m & Hm & Hdom & _).
    + compute_done.
    + intros k _. by eexists.
    + exists m. split; [exact Hm|]. split.
      * apply Hdom. split; [apply elem_of_cons; by left|].
        by eexists.
      * intros [_ [v Hv]]%Hdom. vm_compute in Hv. discriminate.
  - apply (proj2 (proj2 absent_values_are_omitted)
             (storeOf [ (js "_", js "A", js "1");
                        (js "app", js "B", js "2") ])
             {[ js "_" := [js "A"]; js "app" := [js "A"; js "B"] ]}
             [js "_"] (js "app")).
    + reflexivity.
    + vm_compute. reflexivity.
    + vm_compute. reflexivity.
Defined.

End MergeClaims.
(** ** The merged view *)

Lemma first_occurrence_inj (c : N) (p q u v : list N) :
  c ∉ p -> c ∉ q -> p ++ c :: u = q ++ c :: v -> p = q /\ u = v.
Proof.
  revert q. induction p as [|d p IH]; intros [|e q] Hp Hq E; cbn in E.
  - by injection E as ->.
  - injection E as -> _. exfalso. apply Hq, elem_of_cons. by left.
  - injection E as -> _. exfalso. apply Hp, elem_of_cons. by left.
  - injection E as -> E.
    apply not_elem_of_cons in Hp as [_ Hp].
    apply not_elem_of_cons in Hq as [_ Hq].
    destruct (IH q Hp Hq E) as [-> ->]. done.
Qed.

(** The string [layer:key] determines the layer and the key when keys hold
    no colon. *)
Lemma layer_key_inj (l l' k k' : list N) :
  colon ∉ k -> colon ∉ k' ->
  l ++ js ":" ++ k = l' ++ js ":" ++ k' -> l = l' /\ k = k'.
Proof.
  intros Hk Hk' E. change (js ":") with [colon] in E.
  apply (f_equal (@rev N)) in E. rewrite !rev_app_distr in E.
  cbn [rev app] in E. rewrite <- !app_assoc in E. cbn [app] in E.
  apply first_occurrence_inj in E as [Ek El].
  - split.
    + by rewrite <- (rev_involutive l), El, rev_involutive.
    + by rewrite <- (rev_involutive k), Ek, rev_involutive.
  - intros H. apply Hk, list_elem_of_In, in_rev. by apply list_elem_of_In.
  - intros H. apply Hk', list_elem_of_In, in_rev. by apply list_elem_of_In.
Qed.

Section MergedView.
Import ListCmd.

Variable groups : gmap (list N) (list (list N)).

Implicit Types (layers : list (list N)) (layer key : list N).

Local Abbreviation keysOf layer := (default [] (groups !! layer)).

(** [last] is the last layer of [layers] that has [key]. *)
Local Abbreviation lastWith layers key last :=
  (exists before after,
      layers = before ++ last :: after
      /\ key ∈ keysOf last
      /\ forall l, l ∈ after -> key ∉ keysOf l).

Lemma winning_keys (w : gmap (list N) (list N)) layer (keys : list (list N))
    key :
  foldl (fun (winning : gmap (list N) (list N)) k => <[k := layer]> winning)
        w keys !! key
  = if bool_decide (key ∈ keys) then Some layer else w !! key.
Proof.
  revert w. induction keys as [|k keys IH]; intros w; cbn [foldl].
  - rewrite bool_decide_eq_false_2; [done|apply not_elem_of_nil].
  - rewrite IH. destruct (decide (key ∈ keys)) as [Hin|Hnin].
    + rewrite !bool_decide_eq_true_2; [done| |done].
      apply elem_of_cons. by right.
    + rewrite (bool_decide_eq_false_2 (key ∈ keys)) by done.
      destruct (decide (key = k)) as [->|Hne].
      * rewrite bool_decide_eq_true_2 by (apply elem_of_cons; by left).
        by rewrite lookup_insert_eq.
      * rewrite bool_decide_eq_false_2.
        2:{ intros [?|?]%elem_of_cons; done. }
        by rewrite lookup_insert_ne.
Qed.

Lemma winning_layers (w : gmap (list N) (list N)) layers key last :
  foldl (fun (winning : gmap (list N) (list N)) layer =>
           foldl (fun (winning : gmap (list N) (list N)) k =>
                    <[k := layer]> winning)
                 winning (keysOf layer))
        w layers !! key = Some last
  <-> lastWith layers key last
      \/ (w !! key = Some last /\ forall l, l ∈ layers -> key ∉ keysOf l).
Proof.
  revert w. induction layers as [|layer rest IH]; intros w; cbn [foldl].
  - split.
    + intros H. right. split; [done|]. by intros l ?%elem_of_nil.
    + intros [(before & after & E & _)|[H _]]; [|done]. by destruct before.
  - rewrite IH, winning_keys. split.
    + intros [(before & after & -> & Hk & Hafter)|[Hw Hrest]].
      * left. by exists (layer :: before), after.
      * case_bool_decide as Hin.
        -- injection Hw as <-. left. by exists [], rest.
        -- right. split; [done|].
           intros l [->|Hl]%elem_of_cons; [done|by apply Hrest].
    + intros [(before & after & E & Hk & Hafter)|[Hw Hall]].
      * destruct before as [|b before]; cbn in E; injection E as -> ->.
        -- right. split; [by rewrite bool_decide_eq_true_2|done].
        -- left. by exists before, after.
      * right. split.
        -- rewrite bool_decide_eq_false_2; [done|].
           apply Hall, elem_of_cons. by left.
        -- intros l Hl. apply Hall, elem_of_cons. by right.
Qed.

Lemma winningLayer_spec layers key last :
  winningLayer groups layers !! key = Some last <-> lastWith layers key last.
Proof.
  unfold winningLayer. rewrite winning_layers. split; [|by left].
  intros [H|[H _]]; [done|]. by rewrite lookup_empty in H.
Qed.

(** A key of a layer of the sequence has a last layer. *)
Lemma lastWith_exists layers layer key :
  layer ∈ layers -> key ∈ keysOf layer -> exists last, lastWith layers key last.
Proof.
  revert layer.
  induction layers as [|l rest IH]; intros layer; [by intros ?%elem_of_nil|].
  intros Hin Hk.
  destruct (decide (Exists (fun l' => key ∈ keysOf l') rest)) as [Hex|Hno].
  - apply Exists_exists in Hex as (l' & Hl' & Hk').
    destruct (IH l' Hl' Hk') as (last & before & after & -> & ? & ?).
    exists last, (l :: before), after. done.
  - apply elem_of_cons in Hin as [->|Hin].
    + exists l, [], rest. split; [done|]. split; [done|].
      intros l' Hl' Hk'. apply Hno, Exists_exists. eauto.
    + exfalso. apply Hno, Exists_exists. eauto.
Qed.

Lemma lastWith_unique layers key last last' :
  lastWith layers key last -> lastWith layers key last' -> last = last'.
Proof.
  intros H H'. apply winningLayer_spec in H, H'. congruence.
Qed.

Lemma overridden_keys (w : gmap (list N) (list N)) (o : gset (list N))
    layer (keys : list (list N)) (x : list N) :
  x ∈ foldl (fun (overridden : gset (list N)) k =>
               if bool_decide (w !! k ≠ Some layer)
               then overridden ∪ {[ layer ++ js ":" ++ k ]}
               else overridden)
            o keys
  <-> x ∈ o
      \/ exists k, k ∈ keys /\ w !! k ≠ Some layer
                   /\ x = layer ++ js ":" ++ k.
Proof.
  revert o. induction keys as [|k keys IH]; intros o; cbn [foldl].
  - split; [by left|]. intros [H|(k & ?%elem_of_nil & _)]; done.
  - rewrite IH. split.
    + intros [H|(k' & Hk' & Hw & ->)].
      * case_bool_decide as Hw.
        -- apply elem_of_union in H as [H|H]; [by left|].
           apply elem_of_singleton in H as ->.
           right. exists k. split; [apply elem_of_cons; by left|done].
        -- by left.
      * right. exists k'. split; [apply elem_of_cons; by right|done].
    + intros [H|(k' & [->|Hk']%elem_of_cons & Hw & ->)].
      * left. case_bool_decide; [|done]. apply elem_of_union. by left.
      * left. rewrite bool_decide_eq_true_2 by done.
        apply elem_of_union. right. by apply elem_of_singleton.
      * right. by exists k'.
Qed.

Lemma overridden_layers (w : gmap (list N) (list N)) (o : gset (list N))
    layers (x : list N) :
  x ∈ foldl (fun (overridden : gset (list N)) layer =>
               if negb (nonEmpty layer) then overridden
               else
                 foldl (fun (overridden : gset (list N)) k =>
                          if bool_decide (w !! k ≠ Some layer)
                          then overridden ∪ {[ layer ++ js ":" ++ k ]}
                          else overridden)
                       overridden (keysOf layer))
            o layers
  <-> x ∈ o
      \/ exists l k, l ∈ layers /\ l <> [] /\ k ∈ keysOf l
                     /\ w !! k ≠ Some l /\ x = l ++ js ":" ++ k.
Proof.
  revert o. induction layers as [|layer rest IH]; intros o; cbn [foldl].
  - split; [by left|]. intros [H|(l & k & ?%elem_of_nil & _)]; done.
  - rewrite IH. split.
    + intros [H|(l & k & Hl & ?)].
      * destruct layer as [|c layer]; cbn [nonEmpty negb] in H; [by left|].
        apply overridden_keys in H as [H|(k & Hk & Hw & ->)]; [by left|].
        right. exists (c :: layer), k.
        split; [apply elem_of_cons; by left|done].
      * right. exists l, k. split; [apply elem_of_cons; by right|done].
    + intros [H|(l & k & [->|Hl]%elem_of_cons & Hne & Hk & Hw & ->)].
      * left. destruct layer as [|c layer]; cbn [nonEmpty negb]; [done|].
        apply overridden_keys. by left.
      * left. destruct layer as [|c layer]; [done|]. cbn [nonEmpty negb].
        apply overridden_keys. right. by exists k.
      * right. by exists l, k.
Qed.

(** The group maps that the filter and the grouping produce: no key holds a
    colon and the empty name has no keys. *)
Hypothesis keys_no_colon : forall l k, k ∈ keysOf l -> colon ∉ k.
Hypothesis named_layers : forall k, k ∉ keysOf [].

(** A key of a layer is struck through exactly when another layer of the
    sequence is the last one that has the key. *)
Lemma isOverridden_spec layers layer key :
  layer ∈ layers -> key ∈ keysOf layer ->
  isOverridden (overriddenKeys groups layers) layer key = true
  <-> exists last, lastWith layers key last /\ last <> layer.
Proof.
  intros Hlayer Hkey. unfold isOverridden, overriddenKeys.
  rewrite bool_decide_eq_true, overridden_layers. split.
  - intros [?%elem_of_empty|(l & k & Hl & Hne & Hk & Hw & E)]; [done|].
    apply layer_key_inj in E as [E1 E2]; [|by eapply keys_no_colon..].
    subst l k.
    destruct (lastWith_exists layers layer key Hlayer Hkey) as [last Hlast].
    exists last. split; [done|]. intros ->.
    by apply Hw, winningLayer_spec.
  - intros (last & Hlast & Hne). right. exists layer, key.
    assert (Hw : winningLayer groups layers !! key ≠ Some layer).
    { intros H. apply winningLayer_spec in H.
      by apply Hne, (lastWith_unique layers key). }
    destruct Hlast as (before & after & -> & Hk & Hafter).
    repeat split; try done.
    + rewrite length_app. cbn [length].
      rewrite take_app_ge by lia. apply elem_of_app. left.
      apply elem_of_app in Hlayer as [H|[->|H]%elem_of_cons]; [done..|].
      by destruct (Hafter layer H).
    + intros ->. by apply (named_layers key).
Qed.

End MergedView.

Section ViewClaims.
Import Enumerate ListCmd.

(** C2. In the group map of any filtered enumeration and for any request,
    a key of a layer of the request is struck through exactly when another
    layer of the request is the last one in the sequence that has the key;
    it is shown plainly in the last layer that has it, and shown plainly
    whenever no other layer of the request has it, whatever the namespaces
    outside the request hold.  With X under the root, app and app::dev, and under
    a namespace outside the request, X is struck through under the root
    and under app, and plain under app::dev. *)
Theorem shadowed_unless_last_layer :
  (forall allEntries service env layer key,
      let groups := groupByService (filterShhEnvEntries allEntries) in
      let layers := layersOf service env in
      let overridden := overriddenKeys groups layers in
      layer ∈ layers ->
      key ∈ default [] (groups !! layer) ->
      (isOverridden overridden layer key = true
       <-> exists last,
            (exists before after,
                layers = before ++ last :: after
                /\ key ∈ default [] (groups !! last)
                /\ forall l, l ∈ after -> key ∉ default [] (groups !! l))
            /\ last <> layer)
      /\ ((exists before after,
              layers = before ++ layer :: after
              /\ forall l, l ∈ after -> key ∉ default [] (groups !! l)) ->
          isOverridden overridden layer key = false)
      /\ ((forall l, l ∈ layers -> l <> layer ->
                     key ∉ default [] (groups !! l)) ->
          isOverridden overridden layer key = false))
  /\ (let groups :=
        groupByService
          (filterShhEnvEntries
             [ {| service := js "_"; key := js "X" |};
               {| service := js "_"; key := js "EDITOR" |};
               {| service := js "app"; key := js "X" |};
               {| service := js "app::dev"; key := js "X" |};
               {| service := js "other"; key := js "EDITOR" |};
               {| service := js "other"; key := js "X" |} ]) in
      let overridden :=
        overriddenKeys groups (layersOf (js "app") (Some (js "dev"))) in
      isOverridden overridden (js "_") (js "X") = true
      /\ isOverridden overridden (js "app") (js "X") = true
      /\ isOverridden overridden (js "app::dev") (js "X") = false
      /\ isOverridden overridden (js "_") (js "EDITOR") = false
      /\ printMergedView groups (js "app") (Some (js "dev"))
         = [ js "_";
             branchMiddle ++ js "EDITOR";
             branchLast ++ STRIKETHROUGH_START ++ js "X" ++ STRIKETHROUGH_END;
             [];
             js "app";
             branchLast ++ STRIKETHROUGH_START ++ js "X" ++ STRIKETHROUGH_END;
             [];
             js "app::dev";
             branchLast ++ js "X" ]).
Proof.
  split.
  - intros allEntries service env layer key groups layers overridden
      Hlayer Hkey.
    pose proof (isOverridden_spec groups
                  (pipeline_keys_no_colon allEntries)
                  (pipeline_named_layers allEntries)
                  layers layer key Hlayer Hkey) as Hspec.
    split; [exact Hspec|]. split.
    { intros (before & after & Hl & Hafter).
      destruct (isOverridden overridden layer key) eqn:E; [exfalso|done].
      apply Hspec in E as (last & Hlast & Hne). apply Hne.
      apply (lastWith_unique groups layers key); [done|].
      by exists before, after. }
    intros Hother. destruct (isOverridden overridden layer key) eqn:E;
      [exfalso|done].
    apply Hspec in E as (last & (before & after & Hl & Hk & _) & Hne).
    apply (Hother last); [|done..].
    subst layers. rewrite Hl. apply elem_of_app. right.
    apply elem_of_cons. by left.
  - vm_compute. repeat split; reflexivity.
Qed.

Lemma shadowed_unless_last_layer_witness :
  isOverridden
    (overriddenKeys
       (groupByService
          (filterShhEnvEntries
             [ {| service := js "_"; key := js "PATH_ADDITION" |};
               {| service := js "my-app"; key := js "PATH_ADDITION" |};
               {| service := js "zzz"; key := js "API_KEY" |};
               {| service := js "my-app"; key := js "API_KEY" |} ]))
       (layersOf (js "my-app") None))
    (js "_") (js "PATH_ADDITION") = true
  /\ isOverridden
    (overriddenKeys
       (groupByService
          (filterShhEnvEntries
             [ {| service := js "_"; key := js "PATH_ADDITION" |};
               {| service := js "my-app"; key := js "PATH_ADDITION" |};
               {| service := js "zzz"; key := js "API_KEY" |};
               {| service := js "my-app"; key := js "API_KEY" |} ]))
       (layersOf (js "my-app") None))
    (js "my-app") (js "API_KEY") = false.
Proof.
  split.
  - apply (proj1 shadowed_unless_last_layer
             [ {| service := js "_"; key := js "PATH_ADDITION" |};
               {| service := js "my-app"; key := js "PATH_ADDITION" |};
               {| service := js "zzz"; key := js "API_KEY" |};
               {| service := js "my-app"; key := js "API_KEY" |} ]
             (js "my-app") None (js "_") (js "PATH_ADDITION")).
    + apply elem_of_cons. by left.
    + vm_compute. apply elem_of_cons. by left.
    + exists (js "my-app"). split; [|discriminate].
      exists [js "_"], []. split; [reflexivity|]. split.
      * vm_compute. apply elem_of_cons. right. apply elem_of_cons. by left.
      * by intros l ?%elem_of_nil.
  - apply (proj1 shadowed_unless_last_layer
             [ {| service := js "_"; key := js "PATH_ADDITION" |};
               {| service := js "my-app"; key := js "PATH_ADDITION" |};
               {| service := js "zzz"; key := js "API_KEY" |};
               {| service := js "my-app"; key := js "API_KEY" |} ]
             (js "my-app") None (js "my-app") (js "API_KEY")).
    + apply elem_of_cons. right. apply elem_of_cons. by left.
    + vm_compute. apply elem_of_cons. by left.
    + intros l [->|[->|?%elem_of_nil]%elem_of_cons]%elem_of_cons Hne;
        [|done..].
      vm_compute. intros [?|?%elem_of_nil]%elem_of_cons; [discriminate|done].
Defined.

(** C8. The merged view at inputs where a layer of the request has no
    group: the blank line of the layer is printed although the layer is
    left out.  With keys under the root and under app::dev only, two blank
    lines separate the two printed namespaces; with keys under the root
    only, the output for the service app ends with a blank line.  The root
    without keys still prints its header. *)
Theorem merged_view_absent_layer :
  printMergedView
    (groupByService
       (filterShhEnvEntries
          [ {| service := js "_"; key := js "A" |};
            {| service := js "app::dev"; key := js "B" |} ]))
    (js "app") (Some (js "dev"))
  = [ js "_"; branchLast ++ js "A"; []; []; js "app::dev";
      branchLast ++ js "B" ]
  /\ printMergedView
       (groupByService
          (filterShhEnvEntries [ {| service := js "_"; key := js "A" |} ]))
       (js "app") None
     = [ js "_"; branchLast ++ js "A"; [] ]
  /\ printMergedView
       (groupByService
          (filterShhEnvEntries [ {| service := js "app"; key := js "A" |} ]))
       (js "app") None
     = [ js "_"; []; js "app"; branchLast ++ js "A" ].
Proof. vm_compute. repeat split; reflexivity. Qed.

End ViewClaims.

(** ** The keychain dump parsers *)

Section Parsers.
Import Enumerate.

Implicit Types (text line : list N) (lines : list (list N)).

(** Lines are independent of what follows the line feed. *)
Lemma split_lines_app (a b : list N) :
  split [10] (a ++ 10 :: b) = split [10] a ++ split [10] b.
Proof.
  unfold split. induction a as [|d a IH].
  - done.
  - cbn [app splitFrom startsWith].
    destruct (N.eqb_spec 10 d) as [<-|Hd]; cbn [andb length Nat.sub].
    + by rewrite IH.
    + rewrite IH. pose proof (splitFrom_nonempty [10] 0 a) as Hne.
      by destruct (splitFrom [10] 0 a).
Qed.

Lemma split_lines_single (a : list N) : 10 ∉ a -> split [10] a = [a].
Proof. apply splitFrom_none. Qed.

(** *** macOS *)

Lemma macScan_app (st : MacState) lines1 lines2 :
  macScan st (lines1 ++ lines2)
  = let '(e1, st1) := macScan st lines1 in
    let '(e2, st2) := macScan st1 lines2 in
    (e1 ++ e2, st2).
Proof.
  revert st. induction lines1 as [|line rest IH]; intros st.
  - cbn [app macScan]. by destruct (macScan st lines2).
  - cbn [app macScan]. destruct (macStep st line) as [pushed st'].
    rewrite IH. destruct (macScan st' rest) as [e1 st1].
    destruct (macScan st1 lines2) as [e2 st2]. by rewrite app_assoc.
Qed.

(** A [class:] line pushes the pending record and forgets the state. *)
Lemma macStep_boundary line :
  startsWith (js "class:") (trim line) = true ->
  exists next, forall st, macStep st line = (macPending st, next).
Proof. intros H. eexists. intros st. unfold macStep. by rewrite H. Qed.

(** The end of the listing closes the last record as a [class:] line
    does. *)
Lemma macLines_app lines1 line lines2 :
  startsWith (js "class:") (trim line) = true ->
  macLines (lines1 ++ line :: lines2)
  = macLines lines1 ++ macLines (line :: lines2).
Proof.
  intros [next H]%macStep_boundary. unfold macLines. rewrite macScan_app.
  destruct (macScan macInit lines1) as [e1 st1]. cbn [macScan].
  rewrite !H. destruct (macScan next lines2) as [e2 st2].
  change (macPending macInit) with (@nil SecretEntry).
  cbn [app]. by rewrite <- !app_assoc.
Qed.

Lemma macLines_boundary_last lines line :
  startsWith (js "class:") (trim line) = true ->
  fst (macScan macInit (lines ++ [line])) = macLines lines.
Proof.
  intros [next H]%macStep_boundary. unfold macLines. rewrite macScan_app.
  destruct (macScan macInit lines) as [e1 st1]. cbn [macScan].
  rewrite H. cbn [fst]. by rewrite app_nil_r.
Qed.





(** *** Linux *)

Lemma linuxScan_app (st : LinuxState) lines1 lines2 :
  linuxScan st (lines1 ++ lines2)
  = let '(e1, st1) := linuxScan st lines1 in
    let '(e2, st2) := linuxScan st1 lines2 in
    (e1 ++ e2, st2).
Proof.
  revert st. induction lines1 as [|line rest IH]; intros st.
  - cbn [app linuxScan]. by destruct (linuxScan st lines2).
  - cbn [app linuxScan]. destruct (linuxStep st line) as [pushed st'].
    rewrite IH. destruct (linuxScan st' rest) as [e1 st1].
    destruct (linuxScan st1 lines2) as [e2 st2]. by rewrite app_assoc.
Qed.

(** A bracketed header pushes the pending record and forgets the state. *)
Lemma linuxStep_boundary (st : LinuxState) line :
  startsWith (js "[") (trim line) = true ->
  linuxStep st line = (linuxPending st, linuxInit).
Proof. intros H. unfold linuxStep. by rewrite H. Qed.

Lemma linuxLines_app lines1 line lines2 :
  startsWith (js "[") (trim line) = true ->
  linuxLines (lines1 ++ line :: lines2)
  = linuxLines lines1 ++ linuxLines (line :: lines2).
Proof.
  intros H. unfold linuxLines. rewrite linuxScan_app.
  destruct (linuxScan linuxInit lines1) as [e1 st1]. cbn [linuxScan].
  rewrite (linuxStep_boundary st1 line H),
    (linuxStep_boundary linuxInit line H).
  destruct (linuxScan linuxInit lines2) as [e2 st2].
  change (linuxPending linuxInit) with (@nil SecretEntry).
  cbn [app]. by rewrite <- !app_assoc.
Qed.

Lemma linuxLines_boundary_last lines line :
  startsWith (js "[") (trim line) = true ->
  fst (linuxScan linuxInit (lines ++ [line])) = linuxLines lines.
Proof.
  intros H. unfold linuxLines. rewrite linuxScan_app.
  destruct (linuxScan linuxInit lines) as [e1 st1]. cbn [linuxScan].
  rewrite (linuxStep_boundary st1 line H). cbn [fst]. by rewrite app_nil_r.
Qed.





(** *** Windows *)

Lemma windowsScan_app lines1 lines2 :
  windowsScan (lines1 ++ lines2) = windowsScan lines1 ++ windowsScan lines2.
Proof.
  induction lines1 as [|line rest IH]; [done|].
  cbn [app windowsScan]. by rewrite IH, app_assoc.
Qed.


End Parsers.

(** A line feed occurs in no part of a line. *)
Ltac line_feed_free :=
  let H := fresh in
  intros H;
  repeat (apply elem_of_app in H as [H|H]);
  first [ done | by (revert H; compute_done) ].

Section Records.
Import Enumerate.

Implicit Types (s a text : list N).

Lemma dropWhile_head (f : N -> bool) (c : N) s :
  f c = false -> dropWhile f (c :: s) = c :: s.
Proof. intros H. cbn. by rewrite H. Qed.

(** Trimming leaves a string that neither starts nor ends with white
    space. *)
Lemma trim_id (c d : N) s :
  isWhiteSpace c = false -> isWhiteSpace d = false ->
  trim (c :: s ++ [d]) = c :: s ++ [d].
Proof.
  intros Hc Hd. unfold trim. rewrite dropWhile_head by done.
  change (c :: s ++ [d]) with ((c :: s) ++ [d]).
  rewrite rev_app_distr. cbn [rev app].
  rewrite dropWhile_head by done.
  change (d :: rev s ++ [c]) with ([d] ++ rev (c :: s)).
  by rewrite rev_app_distr, rev_involutive.
Qed.

(** Trimming strips leading blanks. *)
Lemma trim_indent s : trim (js "    " ++ s) = trim s.
Proof. done. Qed.

Lemma takeWhile_stop (f : N -> bool) s (c : N) (t : list N) :
  forallb f s = true -> f c = false ->
  takeWhile f (s ++ c :: t) = s.
Proof.
  intros Hs Hc. induction s as [|d s IH]; cbn.
  - by rewrite Hc.
  - cbn in Hs. apply andb_prop in Hs as [-> Hs]. by rewrite IH.
Qed.

Lemma takeWhile_all (f : N -> bool) s :
  forallb f s = true -> takeWhile f s = s.
Proof.
  induction s as [|d s IH]; [done|]. cbn.
  intros [-> Hs]%andb_prop. by rewrite IH.
Qed.

Lemma forallb_not_elem (c : N) s :
  c ∉ s -> forallb (fun x => negb (x =? c)) s = true.
Proof.
  induction s as [|d s IH]; [done|].
  intros [Hd Hs]%not_elem_of_cons. cbn.
  rewrite IH by done. destruct (N.eqb_spec d c); [by subst|done].
Qed.

Lemma matchBlob_value (tag : string) s :
  s <> [] -> quote ∉ s ->
  matchBlob tag (blobPrefix tag ++ s ++ [quote]) = Some s.
Proof.
  intros Hne Hq.
  assert (H : blobAt tag (blobPrefix tag ++ s ++ [quote]) = Some s).
  { unfold blobAt. rewrite startsWith_app, drop_app_length.
    rewrite (takeWhile_stop notQuote s quote []).
    - rewrite drop_app_length. cbn [startsWith]. rewrite N.eqb_refl.
      by destruct s.
    - by apply forallb_not_elem.
    - unfold notQuote. by rewrite N.eqb_refl. }
  destruct (blobPrefix tag ++ s ++ [quote]); cbn [matchBlob]; by rewrite H.
Qed.

Lemma blob_line_shape (tag : string) s :
  blobPrefix tag ++ s ++ [quote]
  = quote :: (tl (blobPrefix tag) ++ s) ++ [quote].
Proof. unfold blobPrefix. cbn [app tl]. by rewrite <- !app_assoc. Qed.

Lemma trim_blob_line (tag : string) s :
  trim (js "    " ++ blobPrefix tag ++ s ++ [quote])
  = blobPrefix tag ++ s ++ [quote].
Proof.
  rewrite trim_indent, blob_line_shape. by apply trim_id.
Qed.

Lemma macStep_svce (st : MacState) s :
  s <> [] -> quote ∉ s ->
  macStep st (js "    " ++ blobPrefix "svce" ++ s ++ [quote])
  = ([], {| currentClass := currentClass st;
            currentService := s;
            currentAccount := currentAccount st |}).
Proof.
  intros Hne Hq. unfold macStep. rewrite trim_blob_line.
  rewrite matchBlob_value by done.
  change (startsWith (js "class:") (blobPrefix "svce" ++ s ++ [quote]))
    with false.
  change (startsWith ([quote] ++ js "svce" ++ [quote])
            (blobPrefix "svce" ++ s ++ [quote])) with true.
  by destruct s.
Qed.

Lemma macStep_acct (st : MacState) a :
  a <> [] -> quote ∉ a ->
  macStep st (js "    " ++ blobPrefix "acct" ++ a ++ [quote])
  = ([], {| currentClass := currentClass st;
            currentService := currentService st;
            currentAccount := a |}).
Proof.
  intros Hne Hq. unfold macStep. rewrite trim_blob_line.
  rewrite matchBlob_value by done.
  change (startsWith (js "class:") (blobPrefix "acct" ++ a ++ [quote]))
    with false.
  change (startsWith ([quote] ++ js "svce" ++ [quote])
            (blobPrefix "acct" ++ a ++ [quote])) with false.
  change (startsWith ([quote] ++ js "acct" ++ [quote])
            (blobPrefix "acct" ++ a ++ [quote])) with true.
  by destruct a.
Qed.

Lemma macScan_cons (st st' : MacState) line lines pushed :
  macStep st line = (pushed, st') ->
  macScan st (line :: lines)
  = (pushed ++ fst (macScan st' lines), snd (macScan st' lines)).
Proof.
  intros H. cbn [macScan]. rewrite H. by destruct (macScan st' lines).
Qed.

Lemma macLines_record s a :
  s <> [] -> a <> [] -> quote ∉ s -> quote ∉ a ->
  macLines [ js "class: " ++ genp;
             js "    " ++ blobPrefix "svce" ++ s ++ [quote];
             js "    " ++ blobPrefix "acct" ++ a ++ [quote] ]
  = [{| service := s; key := a |}].
Proof.
  intros Hs Ha Hqs Hqa. unfold macLines.
  rewrite (macScan_cons macInit
             {| currentClass := genp; currentService := [];
                currentAccount := [] |} _ _ []) by reflexivity.
  rewrite (macScan_cons _ _ _ _ _ (macStep_svce _ s Hs Hqs)).
  rewrite (macScan_cons _ _ _ _ _ (macStep_acct _ a Ha Hqa)).
  cbn [macScan fst snd app currentClass currentService currentAccount].
  unfold macPending. cbn [currentClass currentService currentAccount].
  destruct s; [done|]. by destruct a.
Qed.

Lemma split_macRecord s a :
  10 ∉ s -> 10 ∉ a ->
  split [10] (macRecord s a)
  = [ js "class: " ++ genp;
      js "    " ++ blobPrefix "svce" ++ s ++ [quote];
      js "    " ++ blobPrefix "acct" ++ a ++ [quote] ].
Proof.
  intros Hs Ha.
  assert (E : macRecord s a
              = (js "class: " ++ genp)
                ++ 10 :: (js "    " ++ blobPrefix "svce" ++ s ++ [quote])
                ++ 10 :: (js "    " ++ blobPrefix "acct" ++ a ++ [quote])).
  { unfold macRecord. by rewrite <- !app_assoc. }
  rewrite E, !split_lines_app.
  rewrite !split_lines_single; [done| | |]; line_feed_free.
Qed.

(** A complete record at the end of the dump gives its entry. *)
Lemma parseMacOS_final_record text s a :
  s <> [] -> a <> [] -> quote ∉ s -> quote ∉ a -> 10 ∉ s -> 10 ∉ a ->
  parseMacOS (text ++ [10] ++ macRecord s a)
  = parseMacOS text ++ [{| service := s; key := a |}].
Proof.
  intros Hs Ha Hqs Hqa Hns Hna. unfold parseMacOS.
  change ([10] ++ ?x) with (10 :: x).
  rewrite split_lines_app, split_macRecord by done.
  rewrite macLines_app by reflexivity.
  by rewrite macLines_record.
Qed.

(** *** Linux records *)

Lemma trim_ends (c : N) (m s : list N) :
  isWhiteSpace c = false -> s <> [] ->
  (forall d, d ∈ s -> isWhiteSpace d = false) ->
  trim (c :: m ++ s) = c :: m ++ s.
Proof.
  intros Hc Hne Hs. destruct (exists_last Hne) as (s' & d & ->).
  rewrite app_assoc. apply trim_id; [done|].
  apply Hs, elem_of_app. right. by apply list_elem_of_singleton.
Qed.

Lemma no_space_no_line_feed s :
  (forall d, d ∈ s -> isWhiteSpace d = false) -> 10 ∉ s.
Proof. intros Hs H. by apply Hs in H. Qed.

Lemma removeFirst_unfold (p t : list N) :
  removeFirst p t
  = if startsWith p t then drop (length p) t
    else match t with
         | [] => []
         | c :: t' => c :: removeFirst p t'
         end.
Proof. by destruct t. Qed.

Lemma removeFirst_prefix (p t : list N) : removeFirst p (p ++ t) = t.
Proof.
  by rewrite removeFirst_unfold, startsWith_app, drop_app_length.
Qed.

Lemma linuxScan_cons (st st' : LinuxState) line lines pushed :
  linuxStep st line = (pushed, st') ->
  linuxScan st (line :: lines)
  = (pushed ++ fst (linuxScan st' lines), snd (linuxScan st' lines)).
Proof.
  intros H. cbn [linuxScan]. rewrite H. by destruct (linuxScan st' lines).
Qed.

Lemma linuxStep_service (st : LinuxState) s :
  s <> [] -> (forall d, d ∈ s -> isWhiteSpace d = false) ->
  linuxStep st (js "attribute.service = " ++ s)
  = ([], {| linuxService := s; linuxAccount := linuxAccount st |}).
Proof.
  intros Hne Hs. unfold linuxStep.
  assert (Htrim : trim (js "attribute.service = " ++ s)
                  = js "attribute.service = " ++ s)
    by exact (trim_ends 97 (js "ttribute.service = ") s eq_refl Hne Hs).
  rewrite !Htrim.
  change (startsWith (js "[") (js "attribute.service = " ++ s)) with false.
  by rewrite startsWith_app, removeFirst_prefix.
Qed.

Lemma linuxStep_account (st : LinuxState) a :
  a <> [] -> (forall d, d ∈ a -> isWhiteSpace d = false) ->
  linuxStep st (js "attribute.account = " ++ a)
  = ([], {| linuxService := linuxService st; linuxAccount := a |}).
Proof.
  intros Hne Ha. unfold linuxStep.
  assert (Htrim : trim (js "attribute.account = " ++ a)
                  = js "attribute.account = " ++ a)
    by exact (trim_ends 97 (js "ttribute.account = ") a eq_refl Hne Ha).
  rewrite !Htrim.
  change (startsWith (js "[") (js "attribute.account = " ++ a)) with false.
  change (startsWith (js "attribute.service = ")
            (js "attribute.account = " ++ a)) with false.
  by rewrite startsWith_app, removeFirst_prefix.
Qed.

Lemma split_linuxRecord s a :
  10 ∉ s -> 10 ∉ a ->
  split [10] (linuxRecord s a)
  = [ js "[/org/freedesktop/secrets/collection/login/1]";
      js "label = x";
      js "attribute.service = " ++ s;
      js "attribute.account = " ++ a ].
Proof.
  intros Hs Ha.
  assert (E : linuxRecord s a
              = js "[/org/freedesktop/secrets/collection/login/1]"
                ++ 10 :: js "label = x"
                ++ 10 :: (js "attribute.service = " ++ s)
                ++ 10 :: (js "attribute.account = " ++ a)).
  { unfold linuxRecord. by rewrite <- !app_assoc. }
  rewrite E, !split_lines_app.
  rewrite !split_lines_single; [done| | | |]; line_feed_free.
Qed.

Lemma linuxLines_record s a :
  s <> [] -> a <> [] ->
  (forall d, d ∈ s -> isWhiteSpace d = false) ->
  (forall d, d ∈ a -> isWhiteSpace d = false) ->
  linuxLines [ js "[/org/freedesktop/secrets/collection/login/1]";
               js "label = x";
               js "attribute.service = " ++ s;
               js "attribute.account = " ++ a ]
  = [{| service := s; key := a |}].
Proof.
  intros Hs Ha Hws Hwa. unfold linuxLines.
  rewrite (linuxScan_cons linuxInit linuxInit _ _ []) by reflexivity.
  rewrite (linuxScan_cons linuxInit linuxInit _ _ []) by reflexivity.
  rewrite (linuxScan_cons _ _ _ _ _ (linuxStep_service _ s Hs Hws)).
  rewrite (linuxScan_cons _ _ _ _ _ (linuxStep_account _ a Ha Hwa)).
  cbn [linuxScan fst snd app linuxService linuxAccount].
  unfold linuxPending. cbn [linuxService linuxAccount].
  destruct s; [done|]. by destruct a.
Qed.

(** A complete record at the end of the listing gives its entry. *)
Lemma parseLinux_final_record text s a :
  s <> [] -> a <> [] ->
  (forall d, d ∈ s -> isWhiteSpace d = false) ->
  (forall d, d ∈ a -> isWhiteSpace d = false) ->
  parseLinux (text ++ [10] ++ linuxRecord s a)
  = parseLinux text ++ [{| service := s; key := a |}].
Proof.
  intros Hs Ha Hws Hwa. unfold parseLinux.
  change ([10] ++ ?x) with (10 :: x).
  rewrite split_lines_app, split_linuxRecord
    by by apply no_space_no_line_feed.
  rewrite linuxLines_app by reflexivity.
  by rewrite linuxLines_record.
Qed.

End Records.

Section WindowsRecords.
Import Enumerate.

Implicit Types (s a text : list N).

Lemma white_space_line_terminator (d : N) :
  isWhiteSpace d = false -> isLineTerminator d = false.
Proof.
  unfold isLineTerminator. intros H.
  repeat match goal with
         | |- context [?x =? ?y] => destruct (N.eqb_spec x y) as [->|]
         end; done.
Qed.

Lemma matchTarget_unfold (t : list N) :
  matchTarget t
  = match targetAt t with
    | Some m => Some m
    | None => match t with
              | [] => None
              | _ :: t' => matchTarget t'
              end
    end.
Proof. by destruct t. Qed.

Lemma targetGroups_value s a :
  s <> [] -> a <> [] -> slash ∉ s ->
  (forall d, d ∈ a -> isLineTerminator d = false) ->
  targetGroups (s ++ [slash] ++ a) = Some (s, a).
Proof.
  intros Hs Ha Hslash Hlt. unfold targetGroups.
  cbn [app]. rewrite (takeWhile_stop notSlash s slash a).
  - rewrite drop_app_length, N.eqb_refl, takeWhile_all.
    + destruct s; [done|]. by destruct a.
    + apply forallb_forall. intros d Hd%list_elem_of_In.
      unfold notLineTerminator. by rewrite Hlt.
  - by apply forallb_not_elem.
  - unfold notSlash. by rewrite N.eqb_refl.
Qed.

Lemma startsWithCI_app (p t : list N) : startsWithCI p (p ++ t) = true.
Proof.
  induction p as [|c p IH]; [done|]. cbn. by rewrite N.eqb_refl, IH.
Qed.

Lemma targetAt_record s a :
  s <> [] -> a <> [] -> slash ∉ s ->
  (forall d, d ∈ a -> isLineTerminator d = false) ->
  targetAt (js "Target: LegacyGeneric:target=" ++ s ++ [slash] ++ a)
  = Some (s, a).
Proof.
  intros Hs Ha Hslash Hlt. unfold targetAt.
  change (startsWithCI (js "Target:")
            (js "Target: LegacyGeneric:target=" ++ s ++ [slash] ++ a))
    with true.
  cbv iota.
  change (drop (length (js "Target:"))
            (js "Target: LegacyGeneric:target=" ++ s ++ [slash] ++ a))
    with (32 :: js "LegacyGeneric:target=" ++ s ++ [slash] ++ a).
  change (takeWhile isWhiteSpace
            (32 :: js "LegacyGeneric:target=" ++ s ++ [slash] ++ a))
    with [32].
  cbn [length targetSpaces drop]. unfold targetOptional.
  rewrite !drop_0, startsWithCI_app, drop_app_length.
  by rewrite targetGroups_value.
Qed.

Lemma windowsStep_record s a :
  s <> [] -> a <> [] -> slash ∉ s ->
  (forall d, d ∈ a -> isWhiteSpace d = false) ->
  windowsStep (windowsRecord s a) = [{| service := s; key := a |}].
Proof.
  intros Hs Ha Hslash Hws. unfold windowsStep, windowsRecord.
  assert (Htrim : trim (js "    Target: LegacyGeneric:target="
                        ++ s ++ [slash] ++ a)
                  = js "Target: LegacyGeneric:target=" ++ s ++ [slash] ++ a).
  { rewrite (app_assoc s), app_assoc.
    change (js "    Target: LegacyGeneric:target=" ++ s ++ [slash])
      with (js "    " ++ 84 :: js "arget: LegacyGeneric:target="
            ++ s ++ [slash]).
    rewrite <- (app_assoc (js "    ")).
    exact (trim_ends 84 (js "arget: LegacyGeneric:target=" ++ s ++ [slash])
             a eq_refl Ha Hws). }
  rewrite !Htrim.
  change (startsWith (js "Target:")
            (js "Target: LegacyGeneric:target=" ++ s ++ [slash] ++ a))
    with true.
  rewrite matchTarget_unfold, targetAt_record; try done.
  - destruct s; [done|]. by destruct a.
  - intros d Hd. by apply white_space_line_terminator, Hws.
Qed.

(** A complete record at the end of the listing gives its entry. *)
Lemma parseWindows_final_record text s a :
  s <> [] -> a <> [] -> slash ∉ s -> 10 ∉ s ->
  (forall d, d ∈ a -> isWhiteSpace d = false) ->
  parseWindows (text ++ [10] ++ windowsRecord s a)
  = parseWindows text ++ [{| service := s; key := a |}].
Proof.
  intros Hs Ha Hslash Hns Hws. unfold parseWindows.
  change ([10] ++ ?x) with (10 :: x).
  rewrite split_lines_app, windowsScan_app.
  rewrite (split_lines_single (windowsRecord s a)).
  - cbn [windowsScan]. by rewrite windowsStep_record, app_nil_r.
  - pose proof (no_space_no_line_feed a Hws).
    unfold windowsRecord. line_feed_free.
Qed.

End WindowsRecords.

Section ParserClaims.
Import Enumerate.

Implicit Types (text s a line : list N).



Lemma parseWindows_app text1 text2 :
  parseWindows (text1 ++ 10 :: text2)
  = parseWindows text1 ++ parseWindows text2.
Proof.
  unfold parseWindows. by rewrite split_lines_app, windowsScan_app.
Qed.

(** C6. On each platform a complete record at the end of the listing,
    followed by no further record boundary, gives its entry after the
    entries of the text before it.  On macOS and Linux the record that is
    pending when the scan ends is pushed, exactly as a boundary line
    appended to the listing would push it; on Windows a record is one line
    and is pushed at its line, so the last line needs no boundary after
    it. *)
Theorem final_record_is_flushed :
  (forall text s a,
      s <> [] -> a <> [] -> quote ∉ s -> quote ∉ a -> 10 ∉ s -> 10 ∉ a ->
      parseMacOS (text ++ [10] ++ macRecord s a)
      = parseMacOS text ++ [{| service := s; key := a |}])
  /\ (forall text entries final,
        macScan macInit (split [10] text) = (entries, final) ->
        currentClass final = genp ->
        currentService final <> [] -> currentAccount final <> [] ->
        parseMacOS text
        = entries ++ [{| service := currentService final;
                         key := currentAccount final |}])
  /\ (forall text,
        parseMacOS text
        = fst (macScan macInit (split [10] (text ++ [10] ++ js "class:"))))
  /\ (forall text s a,
        s <> [] -> a <> [] ->
        (forall d, d ∈ s -> isWhiteSpace d = false) ->
        (forall d, d ∈ a -> isWhiteSpace d = false) ->
        parseLinux (text ++ [10] ++ linuxRecord s a)
        = parseLinux text ++ [{| service := s; key := a |}])
  /\ (forall text entries final,
        linuxScan linuxInit (split [10] text) = (entries, final) ->
        linuxService final <> [] -> linuxAccount final <> [] ->
        parseLinux text
        = entries ++ [{| service := linuxService final;
                         key := linuxAccount final |}])
  /\ (forall text,
        parseLinux text
        = fst (linuxScan linuxInit (split [10] (text ++ [10] ++ js "["))))
  /\ (forall text s a,
        s <> [] -> a <> [] -> slash ∉ s -> 10 ∉ s ->
        (forall d, d ∈ a -> isWhiteSpace d = false) ->
        parseWindows (text ++ [10] ++ windowsRecord s a)
        = parseWindows text ++ [{| service := s; key := a |}])
  /\ (forall text line,
        10 ∉ line ->
        parseWindows (text ++ [10] ++ line)
        = parseWindows text ++ windowsStep line).
Proof.
  repeat split.
  - apply parseMacOS_final_record.
  - intros text entries final E Hc Hs Ha. unfold parseMacOS, macLines.
    rewrite E. unfold macPending. rewrite Hc.
    destruct (currentService final); [done|].
    by destruct (currentAccount final).
  - intros text. unfold parseMacOS. change ([10] ++ ?x) with (10 :: x).
    rewrite split_lines_app. symmetry.
    by apply macLines_boundary_last.
  - apply parseLinux_final_record.
  - intros text entries final E Hs Ha. unfold parseLinux, linuxLines.
    rewrite E. unfold linuxPending.
    destruct (linuxService final); [done|].
    by destruct (linuxAccount final).
  - intros text. unfold parseLinux. change ([10] ++ ?x) with (10 :: x).
    rewrite split_lines_app. symmetry.
    by apply linuxLines_boundary_last.
  - apply parseWindows_final_record.
  - intros text line Hl. change ([10] ++ ?x) with (10 :: x).
    rewrite parseWindows_app. unfold parseWindows at 2.
    rewrite split_lines_single by done. cbn [windowsScan].
    by rewrite app_nil_r.
Qed.

Ltac no_white_space :=
  let d := fresh in
  let H := fresh in
  intros d H;
  repeat (apply elem_of_cons in H as [->|H]; [reflexivity|]);
  by apply elem_of_nil in H.

Lemma final_record_is_flushed_witness :
  parseMacOS (js "keychain: login" ++ [10]
              ++ macRecord (js "my-app") (js "API_KEY"))
  = parseMacOS (js "keychain: login")
    ++ [{| service := js "my-app"; key := js "API_KEY" |}]
  /\ parseLinux (js "" ++ [10] ++ linuxRecord (js "my-app::dev") (js "DEBUG"))
     = parseLinux (js "")
       ++ [{| service := js "my-app::dev"; key := js "DEBUG" |}]
  /\ parseWindows (js "Currently stored credentials:" ++ [10]
                   ++ windowsRecord (js "_") (js "EDITOR"))
     = parseWindows (js "Currently stored credentials:")
       ++ [{| service := js "_"; key := js "EDITOR" |}]
  /\ parseWindows (js "" ++ [10] ++ js "Target: a/B")
     = parseWindows (js "") ++ windowsStep (js "Target: a/B").
Proof.
  destruct final_record_is_flushed
    as (Hmac & _ & _ & Hlinux & _ & _ & Hwin & Hline).
  split; [|split; [|split]].
  - apply Hmac; [discriminate | discriminate | | | |]; compute_done.
  - apply Hlinux; [discriminate | discriminate | |]; no_white_space.
  - apply Hwin; [discriminate | discriminate | | |];
      [compute_done | compute_done | no_white_space].
  - apply Hline. compute_done.
Defined.




End ParserClaims.


(** * Further properties *)

(** ** The codec and the filter *)

Section CodecAndFilter.
Import Secrets.

Implicit Types (s e ns : list N).

Local Abbreviation servicePattern := Enumerate.servicePattern.

Lemma takeWhile_forallb (f : N -> bool) s : forallb f (takeWhile f s) = true.
Proof.
  induction s as [|c s IH]; [done|]. cbn.
  destruct (f c) eqn:E; [|done]. cbn. by rewrite E.
Qed.

Lemma takeWhile_drop (f : N -> bool) s :
  takeWhile f s ++ drop (length (takeWhile f s)) s = s.
Proof.
  induction s as [|c s IH]; [done|]. cbn.
  destruct (f c); [|done]. cbn. by rewrite IH.
Qed.

Lemma serviceChar_colon : serviceChar colon = false.
Proof. reflexivity. Qed.

(** What validateService accepts is a non-empty run of service
    characters. *)
Lemma valid_service_chars s :
  validateService s = Ok tt -> s <> [] /\ forallb serviceChar s = true.
Proof.
  intros [->|H]%validateService_ok; [done|].
  unfold SERVICE_PATTERN in H. apply andb_prop in H as [Hne Hall].
  split; [by destruct s|done].
Qed.

Lemma chars_valid_service s :
  s <> [] -> forallb serviceChar s = true -> validateService s = Ok tt.
Proof.
  intros Hne Hall. apply validateService_ok. right.
  unfold SERVICE_PATTERN. rewrite Hall. by destruct s.
Qed.

(** The namespaces of the two shapes pass the pattern of the filter. *)
Lemma servicePattern_bare s :
  validateService s = Ok tt -> servicePattern s = true.
Proof.
  intros [Hne Hall]%valid_service_chars. unfold Enumerate.servicePattern.
  rewrite takeWhile_all by done. rewrite drop_all.
  rewrite orb_true_iff. right. by destruct s.
Qed.

Lemma servicePattern_layered s e :
  validateService s = Ok tt -> validateEnv e = Ok tt ->
  servicePattern (s ++ js "::" ++ e) = true.
Proof.
  intros [Hne Hall]%valid_service_chars He%validateEnv_ok.
  unfold Enumerate.servicePattern.
  change (js "::" ++ e) with (colon :: colon :: e).
  rewrite (takeWhile_stop serviceChar s colon (colon :: e)) by done.
  rewrite drop_app_length.
  change (startsWith (js "::") (colon :: colon :: e)) with true.
  cbn [drop andb]. rewrite drop_0, He.
  rewrite orb_true_iff. right. by destruct s.
Qed.

(** A string that passes the pattern of the filter has one of the two
    shapes. *)
Lemma servicePattern_shape ns :
  servicePattern ns = true ->
  validateService ns = Ok tt
  \/ exists s e, ns = s ++ js "::" ++ e
                 /\ validateService s = Ok tt /\ validateEnv e = Ok tt.
Proof.
  unfold Enumerate.servicePattern, eqb. intros [H|H]%orb_prop.
  - apply bool_decide_eq_true in H as ->. by left.
  - apply andb_prop in H as [Hne H].
    pose proof (takeWhile_drop serviceChar ns) as Hns.
    pose proof (takeWhile_forallb serviceChar ns) as Hall.
    destruct (drop (length (takeWhile serviceChar ns)) ns) as [|c rest].
    + left. rewrite app_nil_r in Hns. rewrite Hns in *.
      apply chars_valid_service; [by destruct ns|done].
    + right. apply andb_prop in H as [Hsep He].
      apply startsWith_spec in Hsep as [e Hsep].
      change (js "::" ++ e) with (colon :: colon :: e) in Hsep.
      rewrite Hsep in *. cbn [drop] in He.
      exists (takeWhile serviceChar ns), e. split; [done|]. split.
      * apply chars_valid_service; [|done].
        by destruct (takeWhile serviceChar ns).
      * by apply validateEnv_ok.
Qed.

Lemma accepted_is_built ns :
  servicePattern ns = true ->
  exists service env, buildServiceName service env = Ok ns.
Proof.
  intros [H|(s & e & -> & Hs & He)]%servicePattern_shape.
  - exists (Some ns), None. unfold buildServiceName.
    destruct (valid_service_chars ns H) as [Hne _].
    destruct ns; [done|]. cbn [truthy].
    change (value (Some ?x)) with x. by rewrite H.
  - exists (Some s), (Some e).
    destruct (valid_service_chars s Hs) as [Hne _].
    destruct (valid_env_shape e He) as [Hene _].
    unfold buildServiceName. destruct s; [done|]. destruct e; [done|].
    cbn [truthy negb]. change (value (Some ?x)) with x.
    by rewrite Hs, He.
Qed.

Lemma built_is_accepted service env ns :
  buildServiceName service env = Ok ns -> servicePattern ns = true.
Proof.
  intros H. unfold buildServiceName in H.
  destruct (truthy env) eqn:Henv.
  - destruct (truthy service) eqn:Hsvc; [|done]. cbn [negb] in H.
    destruct (validateService (value service)) as [[]|] eqn:Hs; [|done].
    destruct (validateEnv (value env)) as [[]|] eqn:He; [|done].
    assert (ns = value service ++ js "::" ++ value env) as ->
      by by injection H.
    by apply servicePattern_layered.
  - destruct (validateService _) as [[]|] eqn:Hs; [|done].
    injection H as <-. by apply servicePattern_bare.
Qed.

(** X1. The filter accepts exactly the namespaces that buildServiceName can
    return: what the tool can write is what the tool lists, and nothing
    else. *)
Theorem filter_accepts_exactly_built_namespaces ns :
  servicePattern ns = true
  <-> exists service env, buildServiceName service env = Ok ns.
Proof.
  split; [apply accepted_is_built|].
  intros (service & env & H). by eapply built_is_accepted.
Qed.

(** The namespace that buildServiceName returns gives back the service and
    the environment in effect: the sentinel for a missing or empty service,
    no environment for a missing or empty one. *)
Lemma parse_built service env ns :
  buildServiceName service env = Ok ns ->
  parseServiceName ns
  = {| service := if truthy service then value service else js "_";
       env := if truthy env then Some (value env) else None |}.
Proof.
  unfold buildServiceName. intros H.
  destruct (truthy env) eqn:Henv.
  - destruct (truthy service) eqn:Hsvc; [|done]. cbn [negb] in H.
    destruct (validateService (value service)) as [[]|] eqn:Hs; [|done].
    destruct (validateEnv (value env)) as [[]|] eqn:He; [|done].
    assert (ns = value service ++ js "::" ++ value env) as ->
      by by injection H.
    destruct (valid_service_shape _ Hs) as [Hsne Hsc].
    destruct (valid_env_shape _ He) as [Hene Hec].
    unfold parseServiceName. rewrite split_two by done.
    destruct (value service); [done|]. by destruct (value env).
  - destruct (validateService _) as [[]|] eqn:Hs; [|done].
    injection H as <-.
    destruct (valid_service_shape _ Hs) as [Hsne Hsc].
    unfold parseServiceName, split. change (js "::") with [colon; colon].
    by rewrite splitFrom_none.
Qed.

(** X2. Two requests that buildServiceName maps to the same namespace have
    the same service and the same environment in effect: a plain service
    never collides with a service and environment, nor two different pairs
    with each other. *)
Theorem built_namespaces_do_not_collide service env service' env' ns :
  buildServiceName service env = Ok ns ->
  buildServiceName service' env' = Ok ns ->
  (if truthy service then value service else js "_")
  = (if truthy service' then value service' else js "_")
  /\ (if truthy env then Some (value env) else None)
     = (if truthy env' then Some (value env') else None).
Proof.
  intros H%parse_built H'%parse_built. rewrite H in H'.
  by injection H' as -> ->.
Qed.

Lemma built_namespaces_do_not_collide_witness :
  (if truthy (Some []) then value (Some []) else js "_")
  = (if truthy (Some (js "_")) then value (Some (js "_")) else js "_")
  /\ (if truthy None then Some (value None) else None)
     = (if truthy (Some []) then Some (value (Some [])) else None).
Proof.
  apply (built_namespaces_do_not_collide (Some []) None (Some (js "_"))
           (Some []) (js "_")); reflexivity.
Defined.

(** X3. For every namespace that the filter accepts, parsing it and
    building from the parts gives the namespace back. *)
Theorem build_parsed_namespace ns :
  servicePattern ns = true ->
  buildServiceName (Some (service (parseServiceName ns)))
                   (env (parseServiceName ns))
  = Ok ns.
Proof.
  intros [H|(s & e & -> & Hs & He)]%servicePattern_shape.
  - destruct (valid_service_shape ns H) as [Hne Hc].
    assert (parseServiceName ns = {| service := ns; env := None |}) as ->.
    { unfold parseServiceName, split. change (js "::") with [colon; colon].
      by rewrite splitFrom_none. }
    cbn [service env]. unfold buildServiceName.
    destruct ns; [done|]. cbn [truthy].
    change (value (Some ?x)) with x. by rewrite H.
  - destruct (valid_service_shape s Hs) as [Hsne Hsc].
    destruct (valid_env_shape e He) as [Hene Hec].
    assert (parseServiceName (s ++ js "::" ++ e)
            = {| service := s; env := Some e |}) as ->.
    { unfold parseServiceName. rewrite split_two by done.
      destruct s; [done|]. by destruct e. }
    cbn [service env]. unfold buildServiceName.
    destruct s; [done|]. destruct e; [done|].
    cbn [truthy negb]. change (value (Some ?x)) with x.
    by rewrite Hs, He.
Qed.

Lemma build_parsed_namespace_witness :
  buildServiceName (Some (service (parseServiceName (js "my.app::prod_v2"))))
                   (env (parseServiceName (js "my.app::prod_v2")))
  = Ok (js "my.app::prod_v2").
Proof. apply build_parsed_namespace. reflexivity. Defined.

End CodecAndFilter.

(** ** Grouping *)

Section GroupingMore.
Import Enumerate.

Implicit Types (entries : list SecretEntry) (l : list N).

Local Abbreviation le := (fun a b : list N => strLe a b = true).

Lemma strLe_refl (a : list N) : strLe a a = true.
Proof.
  induction a as [|x a IH]; [done|]. cbn.
  by rewrite N.eqb_refl, IH, orb_true_r.
Qed.

Lemma strLe_cons (x y : N) (a b : list N) :
  strLe (x :: a) (y :: b) = true <-> x < y \/ (x = y /\ strLe a b = true).
Proof.
  cbn. rewrite orb_true_iff, andb_true_iff, N.ltb_lt, N.eqb_eq. tauto.
Qed.

Lemma strLe_trans (a b c : list N) :
  strLe a b = true -> strLe b c = true -> strLe a c = true.
Proof.
  revert b c. induction a as [|x a IH]; intros [|y b] [|z c]; try done.
  rewrite !strLe_cons. intros [?|[-> ?]] [?|[-> ?]].
  - left. lia.
  - by left.
  - by left.
  - right. split; [done|]. by eapply IH.
Qed.

Lemma strLe_antisym (a b : list N) :
  strLe a b = true -> strLe b a = true -> a = b.
Proof.
  revert b. induction a as [|x a IH]; intros [|y b]; try done.
  rewrite !strLe_cons. intros [?|[-> ?]] [?|[? ?]]; try lia.
  f_equal. by apply IH.
Qed.

Local Instance strLe_transitive : Transitive le.
Proof. intros a b c. apply strLe_trans. Qed.

Local Instance strLe_antisymmetric : AntiSymm (=) le.
Proof. intros a b. apply strLe_antisym. Qed.

(** Sorting depends on the keys only, not on their order. *)
Lemma sort_permutation (ks ks' : list (list N)) :
  ks ≡ₚ ks' -> sort ks = sort ks'.
Proof.
  intros H. apply (Sorted_unique le); [apply sort_sorted..|].
  by rewrite !sort_perm.
Qed.

Lemma keys_under_permutation entries entries' l :
  entries ≡ₚ entries' ->
  List.map key (List.filter (fun e => eqb (service e) l) entries)
  ≡ₚ List.map key (List.filter (fun e => eqb (service e) l) entries').
Proof.
  induction 1 as [|e es es' _ IH|e e' es|es1 es2 es3 _ IH1 _ IH2].
  - done.
  - cbn. destruct (eqb (service e) l); cbn; by rewrite IH.
  - cbn. destruct (eqb (service e) l), (eqb (service e') l); cbn;
      try done. apply Permutation_swap.
  - by rewrite IH1.
Qed.

(** X4. For every namespace, the group of the namespace is missing exactly
    when no entry is stored under it; a group that is there is not empty,
    is in ascending order of code units, and holds the keys of the entries
    of the namespace, each as often as it is listed. *)
Theorem groups_hold_sorted_keys entries l :
  (groupByService entries !! l = None
   <-> forall e, e ∈ entries -> service e <> l)
  /\ forall ks,
      groupByService entries !! l = Some ks ->
      ks <> []
      /\ Sorted (fun a b => strLe a b = true) ks
      /\ ks ≡ₚ List.map key
                 (List.filter (fun e => eqb (service e) l) entries).
Proof.
  rewrite groupByService_lookup.
  set (under := List.map key
                  (List.filter (fun e => eqb (service e) l) entries)).
  assert (Hunder : under = [] <-> forall e, e ∈ entries -> service e <> l).
  { unfold under. split.
    - intros H e He Hs.
      assert (key e ∈ @nil (list N)) as Hin; [|by apply elem_of_nil in Hin].
      rewrite <- H. apply list_elem_of_In, in_map, filter_In.
      split; [by apply list_elem_of_In|]. by apply bool_decide_eq_true.
    - intros H. destruct (List.filter _ entries) as [|e es] eqn:E; [done|].
      assert (In e (List.filter (fun e => eqb (service e) l) entries)) as Hin
        by (rewrite E; by left).
      apply filter_In in Hin as [Hin Hs].
      apply bool_decide_eq_true in Hs.
      by destruct (H e (proj2 (list_elem_of_In _ _) Hin)). }
  split.
  - rewrite <- Hunder. by destruct under.
  - intros ks. destruct under as [|k0 under'] eqn:E; [done|].
    intros Hks. assert (ks = sort (k0 :: under')) as -> by congruence.
    split; [|split].
    + intros Hs. pose proof (sort_perm (k0 :: under')) as Hp.
      rewrite Hs in Hp. by apply Permutation_nil_cons in Hp.
    + apply sort_sorted.
    + apply sort_perm.
Qed.

Lemma groups_hold_sorted_keys_witness :
  [js "DB_URL"; js "DEBUG"] <> []
  /\ Sorted (fun a b => strLe a b = true) [js "DB_URL"; js "DEBUG"]
  /\ [js "DB_URL"; js "DEBUG"]
     ≡ₚ List.map key
          (List.filter (fun e => eqb (service e) (js "my-app::dev"))
             [ {| service := js "my-app"; key := js "API_KEY" |};
               {| service := js "my-app::dev"; key := js "DEBUG" |};
               {| service := js "my-app::dev"; key := js "DB_URL" |} ]).
Proof.
  apply (proj2 (groups_hold_sorted_keys
                  [ {| service := js "my-app"; key := js "API_KEY" |};
                    {| service := js "my-app::dev"; key := js "DEBUG" |};
                    {| service := js "my-app::dev"; key := js "DB_URL" |} ]
                  (js "my-app::dev"))).
  vm_compute. reflexivity.
Defined.

Lemma groupByService_permutation entries entries' :
  entries ≡ₚ entries' -> groupByService entries = groupByService entries'.
Proof.
  intros H. apply map_eq. intros l. rewrite !groupByService_lookup.
  pose proof (keys_under_permutation entries entries' l H) as Hp.
  destruct (List.map key (List.filter _ entries)) as [|k ks] eqn:E.
  - apply Permutation_nil_l in Hp. by rewrite <- Hp.
  - destruct (List.map key (List.filter _ entries')) as [|k' ks'] eqn:E'.
    + by apply Permutation_nil_r in Hp.
    + f_equal. by apply sort_permutation.
Qed.

(** One more entry: its namespace goes to the end unless it is there. *)
Lemma insertionOrder_snoc entries (e : SecretEntry) :
  Grouping.insertionOrder (entries ++ [e])
  = if bool_decide (service e ∈ Grouping.insertionOrder entries)
    then Grouping.insertionOrder entries
    else Grouping.insertionOrder entries ++ [service e].
Proof. unfold Grouping.insertionOrder. by rewrite foldl_snoc. Qed.

Lemma insertionOrder_elem entries l :
  l ∈ Grouping.insertionOrder entries
  <-> exists e, e ∈ entries /\ service e = l.
Proof.
  induction entries as [|e entries IH] using rev_ind.
  { split; [by intros ?%elem_of_nil|]. by intros (e & ?%elem_of_nil & _). }
  rewrite insertionOrder_snoc. case_bool_decide as Hin.
  - rewrite IH. split.
    + intros (e' & He' & E). exists e'. split; [|done].
      apply elem_of_app. by left.
    + intros (e' & [He'|He']%elem_of_app & E); [by exists e'|].
      apply list_elem_of_singleton in He' as ->. subst l. by apply IH.
  - rewrite elem_of_app, IH, list_elem_of_singleton. split.
    + intros [(e' & He' & E)| ->].
      * exists e'. split; [|done]. apply elem_of_app. by left.
      * exists e. split; [|done]. apply elem_of_app. right.
        by apply list_elem_of_singleton.
    + intros (e' & [He'|He']%elem_of_app & E); [left; by exists e'|].
      apply list_elem_of_singleton in He' as ->. by right.
Qed.

Lemma insertionOrder_NoDup entries : NoDup (Grouping.insertionOrder entries).
Proof.
  induction entries as [|e entries IH] using rev_ind; [constructor|].
  rewrite insertionOrder_snoc. case_bool_decide as Hin; [done|].
  apply NoDup_app. split; [done|]. split; [|apply NoDup_singleton].
  by intros x Hx ->%list_elem_of_singleton.
Qed.

(** The insertions from an order that is already there. *)
Lemma insertionOrder_from (acc : list (list N)) entries :
  foldl (fun (order : list (list N)) entry =>
           if bool_decide (service entry ∈ order) then order
           else order ++ [service entry])
        acc entries
  = acc ++ filter (fun l => l ∉ acc) (Grouping.insertionOrder entries).
Proof.
  induction entries as [|e entries IH] using rev_ind.
  { cbn. by rewrite app_nil_r. }
  rewrite foldl_snoc, IH, insertionOrder_snoc.
  destruct (decide (service e ∈ acc)) as [Hacc|Hacc].
  - rewrite bool_decide_eq_true_2 by (apply elem_of_app; by left).
    case_bool_decide; [done|].
    rewrite filter_app, filter_singleton_False, app_nil_r; [done..|].
    by intros ?.
  - destruct (decide (service e ∈ Grouping.insertionOrder entries))
      as [Hin|Hin].
    + rewrite bool_decide_eq_true_2.
      { by rewrite bool_decide_eq_true_2. }
      apply elem_of_app. right. by apply list_elem_of_filter.
    + rewrite bool_decide_eq_false_2.
      { rewrite bool_decide_eq_false_2 by done.
        rewrite filter_app, filter_singleton_True by done.
        by rewrite app_assoc. }
      intros [?|[_ ?]%list_elem_of_filter]%elem_of_app; done.
Qed.

(** X5. The groups do not depend on the order in which the entries are
    listed, the order of the Map does.  For permuted entries every
    namespace has the same group and the Map has the same namespaces.  The
    namespaces of the Map are those that have a group, each once, and
    they come in the order of their first entries: the namespace of the
    first entry comes first, and the others follow as they do for the
    entries that remain. *)
Theorem groups_of_permuted_entries :
  (forall entries entries',
      entries ≡ₚ entries' ->
      (forall l, groupByService entries !! l = groupByService entries' !! l)
      /\ Grouping.insertionOrder entries
         ≡ₚ Grouping.insertionOrder entries')
  /\ (forall entries,
        NoDup (Grouping.insertionOrder entries)
        /\ forall l, l ∈ Grouping.insertionOrder entries
                     <-> is_Some (groupByService entries !! l))
  /\ (forall (e : SecretEntry) entries,
        Grouping.insertionOrder (e :: entries)
        = service e
          :: filter (fun l => l <> service e)
               (Grouping.insertionOrder entries)).
Proof.
  split; [|split].
  - intros entries entries' H. split.
    + intros l. by rewrite (groupByService_permutation entries entries').
    + apply NoDup_Permutation; [apply insertionOrder_NoDup..|].
      intros l. rewrite !insertionOrder_elem. split.
      * intros (e & He & E). exists e. by rewrite <- H.
      * intros (e & He & E). exists e. by rewrite H.
  - intros entries. split; [apply insertionOrder_NoDup|].
    intros l. rewrite insertionOrder_elem, groupByService_lookup. split.
    + intros (e & He & E).
      destruct (List.map key (List.filter _ entries)) as [|k ks] eqn:Hks;
        [|by eexists].
      apply map_eq_nil in Hks.
      assert (In e (List.filter (fun e => eqb (service e) l) entries)).
      { apply filter_In. split; [by apply list_elem_of_In|].
        by apply bool_decide_eq_true. }
      by rewrite Hks in *.
    + destruct (List.filter (fun e => eqb (service e) l) entries)
        as [|e rest] eqn:Hf; [by intros [? ?]|].
      intros _. exists e.
      assert (In e (List.filter (fun e => eqb (service e) l) entries))
        as [Hin Hl]%filter_In by (rewrite Hf; by left).
      split; [by apply list_elem_of_In|]. by apply bool_decide_eq_true in Hl.
  - intros e entries.
    change (Grouping.insertionOrder (e :: entries))
      with (foldl (fun (order : list (list N)) entry =>
                     if bool_decide (service entry ∈ order) then order
                     else order ++ [service entry])
                  [service e] entries).
    rewrite insertionOrder_from. cbn [app]. f_equal.
    apply list_filter_iff. intros l.
    by rewrite list_elem_of_singleton.
Qed.

Lemma groups_of_permuted_entries_witness :
  ((forall l,
       groupByService [ {| service := js "app"; key := js "C" |};
                        {| service := js "_"; key := js "B" |};
                        {| service := js "_"; key := js "A" |} ] !! l
       = groupByService [ {| service := js "_"; key := js "A" |};
                          {| service := js "app"; key := js "C" |};
                          {| service := js "_"; key := js "B" |} ] !! l)
   /\ Grouping.insertionOrder
        [ {| service := js "app"; key := js "C" |};
          {| service := js "_"; key := js "B" |};
          {| service := js "_"; key := js "A" |} ]
      ≡ₚ Grouping.insertionOrder
           [ {| service := js "_"; key := js "A" |};
             {| service := js "app"; key := js "C" |};
             {| service := js "_"; key := js "B" |} ])
  /\ Grouping.insertionOrder
       [ {| service := js "app"; key := js "C" |};
         {| service := js "_"; key := js "B" |};
         {| service := js "_"; key := js "A" |} ]
     = [js "app"; js "_"]
  /\ Grouping.insertionOrder
       [ {| service := js "_"; key := js "A" |};
         {| service := js "app"; key := js "C" |};
         {| service := js "_"; key := js "B" |} ]
     = [js "_"; js "app"].
Proof.
  split; [|split; reflexivity].
  apply (proj1 groups_of_permuted_entries).
  apply (Permutation_app_comm
           [ {| service := js "app"; key := js "C" |};
             {| service := js "_"; key := js "B" |} ]
           [ {| service := js "_"; key := js "A" |} ]).
Defined.

End GroupingMore.

(** ** The parsers *)

Section ParsersMore.
Import Enumerate.

Implicit Types (text line s : list N) (lines : list (list N)).

(** *** What the entries hold *)

Lemma takeWhile_not_elem (c : N) s :
  c ∉ takeWhile (fun x => negb (x =? c)) s.
Proof.
  induction s as [|d s IH]; cbn; [apply not_elem_of_nil|].
  destruct (N.eqb_spec d c) as [->|Hne]; cbn; [apply not_elem_of_nil|].
  apply not_elem_of_cons. split; [done|apply IH].
Qed.

Lemma blobAt_group (tag : string) s g :
  blobAt tag s = Some g -> g <> [] /\ quote ∉ g.
Proof.
  unfold blobAt. destruct (startsWith (blobPrefix tag) s); [|done].
  set (rest := drop (length (blobPrefix tag)) s).
  destruct (nonEmpty _ && _) eqn:E; [|done]. intros H.
  assert (g = takeWhile notQuote rest) as -> by congruence.
  apply andb_prop in E as [Hne _]. split.
  - intros Hg. by rewrite Hg in Hne.
  - apply takeWhile_not_elem.
Qed.

Lemma matchBlob_group (tag : string) s g :
  matchBlob tag s = Some g -> g <> [] /\ quote ∉ g.
Proof.
  induction s as [|c s IH]; cbn [matchBlob].
  - destruct (blobAt tag []) eqn:E; [|done].
    intros [= <-]. by eapply blobAt_group.
  - destruct (blobAt tag (c :: s)) eqn:E; [|done].
    intros [= <-]. by eapply blobAt_group.
Qed.

Lemma macStep_quote_free (st : MacState) line :
  quote ∉ currentService st -> quote ∉ currentAccount st ->
  let '(pushed, st') := macStep st line in
  (forall e, e ∈ pushed ->
     service e <> [] /\ key e <> []
     /\ (quote ∉ service e) /\ (quote ∉ key e))
  /\ (quote ∉ currentService st') /\ (quote ∉ currentAccount st').
Proof.
  intros Hs Ha. unfold macStep.
  destruct (startsWith (js "class:") (trim line)).
  - split; [|split; apply not_elem_of_nil].
    unfold macPending. destruct (_ && _) eqn:E.
    + apply andb_prop in E as [[_ E1]%andb_prop E2].
      intros e ->%list_elem_of_singleton. cbn [service key].
      repeat split; try done.
      * intros H. by rewrite H in E1.
      * intros H. by rewrite H in E2.
    + by intros e ?%elem_of_nil.
  - destruct (startsWith ([quote] ++ js "svce" ++ [quote]) (trim line)).
    + destruct (matchBlob "svce" (trim line)) as [[|c m]|] eqn:E;
        (split; [by intros e ?%elem_of_nil|]); try done.
      split; [|done]. by apply matchBlob_group in E as [_ ?].
    + destruct (startsWith ([quote] ++ js "acct" ++ [quote]) (trim line));
        [|split; [by intros e ?%elem_of_nil|done]].
      destruct (matchBlob "acct" (trim line)) as [[|c m]|] eqn:E;
        (split; [by intros e ?%elem_of_nil|]); try done.
      split; [done|]. by apply matchBlob_group in E as [_ ?].
Qed.

Lemma macScan_quote_free (st : MacState) lines :
  quote ∉ currentService st -> quote ∉ currentAccount st ->
  (forall e, e ∈ fst (macScan st lines) ->
     service e <> [] /\ key e <> []
     /\ (quote ∉ service e) /\ (quote ∉ key e))
  /\ (quote ∉ currentService (snd (macScan st lines)))
  /\ (quote ∉ currentAccount (snd (macScan st lines))).
Proof.
  revert st. induction lines as [|line rest IH]; intros st Hs Ha.
  - cbn. split; [by intros e ?%elem_of_nil|done].
  - cbn [macScan]. pose proof (macStep_quote_free st line Hs Ha) as Hstep.
    destruct (macStep st line) as [pushed st'].
    destruct Hstep as (Hp & Hs' & Ha').
    destruct (IH st' Hs' Ha') as (He & Hfs & Hfa).
    destruct (macScan st' rest) as [more final]. cbn [fst snd] in *.
    split; [|done]. intros e [H|H]%elem_of_app; auto.
Qed.

Lemma targetGroups_fields s g1 g2 :
  targetGroups s = Some (g1, g2) -> slash ∉ g1.
Proof.
  unfold targetGroups. destruct (nonEmpty _); [|done].
  destruct (drop _ s) as [|c rest]; [done|].
  destruct (_ && _); [|done]. intros [= <- _]. apply takeWhile_not_elem.
Qed.

Lemma targetOptional_fields s g1 g2 :
  targetOptional s = Some (g1, g2) -> slash ∉ g1.
Proof.
  unfold targetOptional.
  destruct (startsWithCI _ s).
  - destruct (targetGroups (drop _ s)) as [[a b]|] eqn:E.
    + intros [= <- <-]. by eapply targetGroups_fields.
    + apply targetGroups_fields.
  - apply targetGroups_fields.
Qed.

Lemma targetSpaces_fields (n : nat) s g1 g2 :
  targetSpaces n s = Some (g1, g2) -> slash ∉ g1.
Proof.
  induction n as [|n IH]; cbn [targetSpaces].
  - destruct (targetOptional (drop 0 s)) as [[a b]|] eqn:E; [|done].
    intros [= <- <-]. by eapply targetOptional_fields.
  - destruct (targetOptional (drop (S n) s)) as [[a b]|] eqn:E; [|done].
    intros [= <- <-]. by eapply targetOptional_fields.
Qed.

Lemma matchTarget_fields s g1 g2 :
  matchTarget s = Some (g1, g2) -> slash ∉ g1.
Proof.
  assert (Hat : forall t, targetAt t = Some (g1, g2) -> slash ∉ g1).
  { intros t. unfold targetAt. destruct (startsWithCI _ t); [|done].
    apply targetSpaces_fields. }
  induction s as [|c s IH]; cbn [matchTarget].
  - destruct (targetAt []) as [[a b]|] eqn:E; [|done].
    intros [= <- <-]. by eapply Hat.
  - destruct (targetAt (c :: s)) as [[a b]|] eqn:E; [|done].
    intros [= <- <-]. by eapply Hat.
Qed.

(** X6. No parser returns an entry with an empty service or an empty key,
    whatever the listing holds; on macOS neither field holds a double
    quote, and on Windows the service holds no slash. *)
Theorem entries_have_both_fields :
  (forall shell e, e ∈ enumerateMacOS shell ->
     service e <> [] /\ key e <> []
     /\ (quote ∉ service e) /\ (quote ∉ key e))
  /\ (forall shell e, e ∈ enumerateLinux shell ->
        service e <> [] /\ key e <> [])
  /\ (forall shell e, e ∈ enumerateWindows shell ->
        service e <> [] /\ key e <> [] /\ (slash ∉ service e)).
Proof.
  split; [|split].
  - intros [text|m] e; [|by intros ?%elem_of_nil].
    cbn [enumerateMacOS]. unfold parseMacOS, macLines.
    destruct (macScan_quote_free macInit (split [10] text))
      as (He & Hs & Ha); [apply not_elem_of_nil..|].
    destruct (macScan macInit (split [10] text)) as [entries final].
    cbn [fst snd] in *. intros [H|H]%elem_of_app; [by apply He|].
    unfold macPending in H. destruct (_ && _) eqn:E;
      [|by apply elem_of_nil in H].
    apply andb_prop in E as [[_ E1]%andb_prop E2].
    apply list_elem_of_singleton in H as ->. cbn [service key].
    repeat split; try done.
    + intros H. by rewrite H in E1.
    + intros H. by rewrite H in E2.
  - intros [text|m] e; [|by intros ?%elem_of_nil].
    cbn [enumerateLinux]. unfold parseLinux, linuxLines.
    assert (Hscan : forall lines st e',
               e' ∈ fst (linuxScan st lines) ->
               service e' <> [] /\ key e' <> []).
    { induction lines as [|line rest IH]; intros st e'.
      - cbn. by intros ?%elem_of_nil.
      - cbn [linuxScan].
        assert (Hstep : forall x, x ∈ fst (linuxStep st line) ->
                                  service x <> [] /\ key x <> []).
        { unfold linuxStep. intros x.
          destruct (startsWith (js "[") (trim line)).
          - cbn [fst]. unfold linuxPending.
            destruct (linuxService st), (linuxAccount st);
              cbn; try by intros ?%elem_of_nil.
            by intros ->%list_elem_of_singleton.
          - destruct (startsWith (js "attribute.service = ") (trim line));
              [by intros ?%elem_of_nil|].
            destruct (startsWith (js "attribute.account = ") (trim line));
              by intros ?%elem_of_nil. }
        destruct (linuxStep st line) as [pushed st'].
        specialize (IH st' e').
        destruct (linuxScan st' rest) as [more final]. cbn [fst] in *.
        intros [H|H]%elem_of_app; auto. }
    specialize (Hscan (split [10] text) linuxInit e).
    destruct (linuxScan linuxInit (split [10] text)) as [entries final].
    cbn [fst] in Hscan. intros [H|H]%elem_of_app; [by apply Hscan|].
    unfold linuxPending in H.
    destruct (linuxService final), (linuxAccount final);
      cbn in H; try by apply elem_of_nil in H.
    by apply list_elem_of_singleton in H as ->.
  - intros [text|m] e; [|by intros ?%elem_of_nil].
    cbn [enumerateWindows]. unfold parseWindows.
    induction (split [10] text) as [|line rest IH];
      [by intros ?%elem_of_nil|].
    cbn [windowsScan]. intros [H|H]%elem_of_app; [|by apply IH].
    unfold windowsStep in H.
    destruct (startsWith (js "Target:") (trim line));
      [|by apply elem_of_nil in H].
    destruct (matchTarget (trim line)) as [[[|c1 m1] [|c2 m2]]|] eqn:E;
      try by apply elem_of_nil in H.
    apply list_elem_of_singleton in H as ->. cbn [service key].
    repeat split; try done. by apply matchTarget_fields in E.
Qed.

Lemma entries_have_both_fields_witness :
  service {| service := js "a"; key := js "B" |} <> []
  /\ key {| service := js "a"; key := js "B" |} <> []
  /\ slash ∉ service {| service := js "a"; key := js "B" |}.
Proof.
  apply (proj2 (proj2 entries_have_both_fields)
           (Ok (js "Target: a/B"))).
  vm_compute. apply elem_of_cons. by left.
Defined.

(** *** Line ends *)

Lemma dropWhile_app (f : N -> bool) (l t : list N) :
  dropWhile f (l ++ t)
  = if forallb f l then dropWhile f t else dropWhile f l ++ t.
Proof.
  induction l as [|c l IH]; [done|]. cbn.
  destruct (f c); [|done]. by rewrite IH.
Qed.

Lemma dropWhile_all (f : N -> bool) (l : list N) :
  forallb f l = true -> dropWhile f l = [].
Proof.
  induction l as [|c l IH]; [done|]. cbn.
  intros [-> H]%andb_prop. by apply IH.
Qed.

(** A carriage return at the end of a line is trimmed away. *)
Lemma trim_carriage_return line : trim (line ++ [13]) = trim line.
Proof.
  unfold trim. rewrite dropWhile_app.
  destruct (forallb isWhiteSpace line) eqn:E.
  - by rewrite (dropWhile_all _ line E).
  - by rewrite rev_app_distr.
Qed.

(** The lines of the listing with the line ends of Windows are the lines
    of the listing, some with a carriage return at their end. *)
Lemma split_crlf text :
  Forall2 (fun a b => a = b \/ a = b ++ [13])
    (split [10] (crlf text)) (split [10] text).
Proof.
  unfold split. induction text as [|c text IH].
  - repeat constructor.
  - cbn [crlf flat_map]. fold (crlf text).
    destruct (N.eqb_spec c 10) as [->|Hc].
    + cbn [app splitFrom startsWith N.eqb Pos.eqb andb length Nat.sub].
      pose proof (splitFrom_nonempty [10] 0 (crlf text)) as Hne.
      constructor; [right; reflexivity | exact IH].
    + cbn [app splitFrom startsWith].
      destruct (N.eqb_spec 10 c) as [E|_]; [congruence|]. cbn [andb].
      pose proof (splitFrom_nonempty [10] 0 (crlf text)) as Hne.
      pose proof (splitFrom_nonempty [10] 0 text) as Hne'.
      destruct (splitFrom [10] 0 (crlf text)) as [|p ps]; [done|].
      destruct (splitFrom [10] 0 text) as [|p' ps']; [done|].
      apply Forall2_cons in IH as [[->| ->] IH]; constructor; auto.
Qed.

Lemma same_trimmed_lines text :
  Forall2 (fun a b => trim a = trim b)
    (split [10] (crlf text)) (split [10] text).
Proof.
  eapply Forall2_impl; [apply split_crlf|].
  intros a b [->| ->]; [done|apply trim_carriage_return].
Qed.

(** The steps read a line through its trimmed form only. *)
Lemma macScan_trimmed (st : MacState) lines lines' :
  Forall2 (fun a b => trim a = trim b) lines lines' ->
  macScan st lines = macScan st lines'.
Proof.
  intros H. revert st. induction H as [|a b l l' Hab _ IH]; intros st.
  - done.
  - cbn [macScan]. assert (macStep st a = macStep st b) as ->
      by (unfold macStep; by rewrite Hab).
    destruct (macStep st b) as [pushed st']. by rewrite IH.
Qed.

Lemma linuxScan_trimmed (st : LinuxState) lines lines' :
  Forall2 (fun a b => trim a = trim b) lines lines' ->
  linuxScan st lines = linuxScan st lines'.
Proof.
  intros H. revert st. induction H as [|a b l l' Hab _ IH]; intros st.
  - done.
  - cbn [linuxScan]. assert (linuxStep st a = linuxStep st b) as ->
      by (unfold linuxStep; by rewrite Hab).
    destruct (linuxStep st b) as [pushed st']. by rewrite IH.
Qed.

Lemma windowsScan_trimmed lines lines' :
  Forall2 (fun a b => trim a = trim b) lines lines' ->
  windowsScan lines = windowsScan lines'.
Proof.
  induction 1 as [|a b l l' Hab _ IH]; [done|].
  cbn [windowsScan]. assert (windowsStep a = windowsStep b) as ->
    by (unfold windowsStep; by rewrite Hab).
  by rewrite IH.
Qed.

(** X7. The three parsers give the same entries for a listing whose lines
    end with a carriage return and a line feed as for the listing with
    line feeds alone. *)
Theorem line_ends_do_not_matter text :
  parseMacOS (crlf text) = parseMacOS text
  /\ parseLinux (crlf text) = parseLinux text
  /\ parseWindows (crlf text) = parseWindows text.
Proof.
  pose proof (same_trimmed_lines text) as H.
  unfold parseMacOS, macLines, parseLinux, linuxLines, parseWindows.
  rewrite (macScan_trimmed _ _ _ H), (linuxScan_trimmed _ _ _ H),
    (windowsScan_trimmed _ _ H).
  done.
Qed.

End ParsersMore.

(** ** The trees and the merged view *)

Section ViewMore.
Import Enumerate ListCmd Tree.

Implicit Types (groups : gmap (list N) (list (list N))).
Implicit Types (layers keys : list (list N)) (layer key line : list N).
Implicit Types (overridden : gset (list N)).

(** X8. The tree with overrides has one line for each key, and for keys of
    which none is overridden it is the plain tree. *)
Theorem tree_with_overrides_shape keys layer overridden :
  length (printTreeWithOverrides keys layer overridden) = length keys
  /\ ((forall key, key ∈ keys -> isOverridden overridden layer key = false)
      -> printTreeWithOverrides keys layer overridden = printTree keys).
Proof.
  split.
  - induction keys as [|key rest IH]; [done|]. cbn. by rewrite IH.
  - induction keys as [|key rest IH]; [done|]. intros H.
    cbn [printTreeWithOverrides printTree].
    rewrite (H key) by (apply elem_of_cons; by left).
    rewrite IH; [done|]. intros k Hk. apply H, elem_of_cons. by right.
Qed.

Lemma tree_with_overrides_shape_witness :
  printTreeWithOverrides [js "A"; js "B"] (js "_") ∅
  = printTree [js "A"; js "B"].
Proof.
  apply (proj2 (tree_with_overrides_shape [js "A"; js "B"] (js "_") ∅)).
  intros key _. reflexivity.
Defined.

Lemma printLayers_present groups overridden (i : nat) layers :
  (forall layer, layer ∈ layers ->
     layer <> [] /\ default [] (groups !! layer) <> []) ->
  printLayers groups overridden (S i) layers
  = flat_map (fun layer => [] :: shownLayer groups overridden layer) layers.
Proof.
  revert i. induction layers as [|layer rest IH]; intros i H; [done|].
  destruct (H layer) as [Hne Hkeys]; [apply elem_of_cons; by left|].
  cbn [printLayers flat_map]. rewrite IH.
  2:{ intros l Hl. apply H, elem_of_cons. by right. }
  destruct layer as [|c layer]; [done|]. cbn [nonEmpty negb].
  change (shownLayer groups overridden (c :: layer))
    with ((c :: layer)
          :: printTreeWithOverrides (default [] (groups !! (c :: layer)))
               (c :: layer) overridden).
  by destruct (default [] (groups !! (c :: layer))) as [|k ks].
Qed.

(** X9. When the service is not empty and every layer after the root has
    keys, the merged view is the header of the root and its tree, then for
    each further layer one blank line, the header of the layer and its
    tree. *)
Theorem merged_view_of_present_layers groups service env :
  service <> [] ->
  (forall layer, layer ∈ tail (layersOf service env) ->
     default [] (groups !! layer) <> []) ->
  let overridden := overriddenKeys groups (layersOf service env) in
  printMergedView groups service env
  = shownLayer groups overridden (js "_")
    ++ flat_map (fun layer => [] :: shownLayer groups overridden layer)
         (tail (layersOf service env)).
Proof.
  intros Hs Hkeys overridden. unfold printMergedView. fold overridden.
  assert (Hlayers : layersOf service env
                    = js "_" :: tail (layersOf service env)) by done.
  clearbody overridden. rewrite Hlayers at 1. cbn [printLayers].
  change (nonEmpty (js "_")) with true.
  change (eqb (js "_") (js "_")) with true.
  cbn [negb andb Nat.ltb Nat.leb app].
  rewrite printLayers_present.
  - rewrite andb_false_r.
    change (shownLayer groups overridden (js "_"))
      with (js "_"
            :: printTreeWithOverrides (default [] (groups !! js "_"))
                 (js "_") overridden).
    by destruct (default [] (groups !! js "_")).
  - intros layer Hl. split; [|by apply Hkeys].
    unfold layersOf in Hl. cbn [app tail] in Hl.
    apply elem_of_cons in Hl as [->|Hl]; [done|].
    destruct (truthy env); [|by apply elem_of_nil in Hl].
    apply list_elem_of_singleton in Hl as ->. by destruct service.
Qed.

Lemma merged_view_of_present_layers_witness :
  printMergedView
    {[ js "_" := [js "A"]; js "app" := [js "A"; js "B"] ]} (js "app") None
  = shownLayer
      {[ js "_" := [js "A"]; js "app" := [js "A"; js "B"] ]}
      (overriddenKeys
         {[ js "_" := [js "A"]; js "app" := [js "A"; js "B"] ]}
         (layersOf (js "app") None))
      (js "_")
    ++ flat_map
         (fun layer =>
            [] :: shownLayer
                    {[ js "_" := [js "A"]; js "app" := [js "A"; js "B"] ]}
                    (overriddenKeys
                       {[ js "_" := [js "A"]; js "app" := [js "A"; js "B"] ]}
                       (layersOf (js "app") None))
                    layer)
         (tail (layersOf (js "app") None)).
Proof.
  apply (merged_view_of_present_layers
           {[ js "_" := [js "A"]; js "app" := [js "A"; js "B"] ]}
           (js "app") None).
  - discriminate.
  - intros layer Hl. apply list_elem_of_singleton in Hl as ->.
    vm_compute. discriminate.
Defined.

Lemma tree_lines keys layer overridden line :
  line ∈ printTreeWithOverrides keys layer overridden ->
  exists key, key ∈ keys
    /\ (line = branchMiddle ++ key \/ line = branchLast ++ key
        \/ line = branchMiddle ++ STRIKETHROUGH_START ++ key
                   ++ STRIKETHROUGH_END
        \/ line = branchLast ++ STRIKETHROUGH_START ++ key
                   ++ STRIKETHROUGH_END).
Proof.
  induction keys as [|key rest IH]; [by intros ?%elem_of_nil|].
  cbn [printTreeWithOverrides]. intros [->|H]%elem_of_cons.
  - exists key. split; [apply elem_of_cons; by left|].
    destruct (isOverridden overridden layer key), rest; tauto.
  - destruct (IH H) as (k & Hk & Hline). exists k.
    split; [apply elem_of_cons; by right|done].
Qed.

Lemma tree_has_keys keys layer overridden key :
  key ∈ keys ->
  exists line, line ∈ printTreeWithOverrides keys layer overridden
    /\ (line = branchMiddle ++ key \/ line = branchLast ++ key
        \/ line = branchMiddle ++ STRIKETHROUGH_START ++ key
                   ++ STRIKETHROUGH_END
        \/ line = branchLast ++ STRIKETHROUGH_START ++ key
                   ++ STRIKETHROUGH_END).
Proof.
  induction keys as [|k rest IH]; [by intros ?%elem_of_nil|].
  cbn [printTreeWithOverrides]. intros [->|H]%elem_of_cons.
  - eexists. split; [apply elem_of_cons; by left|].
    destruct (isOverridden overridden layer k), rest; tauto.
  - destruct (IH H) as (line & Hline & Hshape). exists line.
    split; [apply elem_of_cons; by right|done].
Qed.

Lemma printLayers_lines groups overridden (i : nat) layers line :
  line ∈ printLayers groups overridden i layers ->
  line = []
  \/ line ∈ layers
  \/ exists layer, layer ∈ layers
       /\ line ∈ printTreeWithOverrides (default [] (groups !! layer)) layer
                  overridden.
Proof.
  revert i. induction layers as [|layer rest IH]; intros i;
    [by intros ?%elem_of_nil|].
  assert (Hrest : forall j,
    line ∈ printLayers groups overridden j rest ->
    line = [] \/ line ∈ layer :: rest
    \/ exists l, l ∈ layer :: rest
         /\ line ∈ printTreeWithOverrides (default [] (groups !! l)) l
                    overridden).
  { intros j [->|[H|(l & Hl & H)]]%IH; [by left| |].
    - right. left. apply elem_of_cons. by right.
    - right. right. exists l. split; [apply elem_of_cons; by right|done]. }
  cbn [printLayers].
  destruct (negb (nonEmpty layer)); [apply Hrest|].
  intros [H|H]%elem_of_app.
  { destruct (0 <? i)%nat; [|by apply elem_of_nil in H].
    apply list_elem_of_singleton in H. by left. }
  destruct ((length (default [] (groups !! layer)) =? 0)%nat
            && negb (eqb layer (js "_"))); [by apply (Hrest (S i))|].
  apply elem_of_app in H as [H|H].
  { apply list_elem_of_singleton in H as ->. right. left.
    apply elem_of_cons. by left. }
  destruct (length (default [] (groups !! layer)) =? 0)%nat;
    [by apply (Hrest (S i))|].
  apply elem_of_app in H as [H|H]; [|by apply (Hrest (S i))].
  right. right. exists layer. split; [apply elem_of_cons; by left|done].
Qed.

Lemma printLayers_keys groups overridden (i : nat) layers layer line :
  layer ∈ layers -> layer <> [] ->
  line ∈ printTreeWithOverrides (default [] (groups !! layer)) layer
           overridden ->
  line ∈ printLayers groups overridden i layers.
Proof.
  revert i. induction layers as [|l rest IH]; intros i;
    [by intros ?%elem_of_nil|].
  intros Hin Hne Hline. apply elem_of_cons in Hin as [E|Hin].
  - subst l. cbn [printLayers]. destruct layer as [|c layer]; [done|].
    cbn [nonEmpty negb]. apply elem_of_app. right.
    destruct (default [] (groups !! (c :: layer))) as [|k ks];
      [by apply elem_of_nil in Hline|].
    cbn [length Nat.eqb andb]. apply elem_of_app. right.
    apply elem_of_app. by left.
  - specialize (IH (S i) Hin Hne Hline). cbn [printLayers].
    destruct (negb (nonEmpty l)); [done|].
    apply elem_of_app. right.
    destruct ((length (default [] (groups !! l)) =? 0)%nat
              && negb (eqb l (js "_"))); [done|].
    apply elem_of_app. right.
    destruct (length (default [] (groups !! l)) =? 0)%nat; [done|].
    apply elem_of_app. by right.
Qed.

(** X10. Every line of the merged view is blank, the name of a layer of
    the request, or a branch that shows a key of a layer of the request,
    plain or struck through: the keys of other namespaces never appear.
    In the other direction, every key of a layer of the request with a
    name that is not empty has a branch in the view. *)
Theorem merged_view_shows_the_request_layers groups service env :
  let layers := layersOf service env in
  let shows line key :=
    line = branchMiddle ++ key \/ line = branchLast ++ key
    \/ line = branchMiddle ++ STRIKETHROUGH_START ++ key
               ++ STRIKETHROUGH_END
    \/ line = branchLast ++ STRIKETHROUGH_START ++ key
               ++ STRIKETHROUGH_END in
  (forall line, line ∈ printMergedView groups service env ->
     line = [] \/ line ∈ layers
     \/ exists layer key,
          layer ∈ layers /\ key ∈ default [] (groups !! layer)
          /\ shows line key)
  /\ (forall layer key,
        layer ∈ layers -> layer <> [] ->
        key ∈ default [] (groups !! layer) ->
        exists line,
          line ∈ printMergedView groups service env /\ shows line key).
Proof.
  intros layers shows. unfold printMergedView. fold layers. split.
  - intros line [->|[H|(layer & Hl & H)]]%printLayers_lines;
      [by left|by right; left|].
    right. right. apply tree_lines in H as (key & Hk & H). by exists layer, key.
  - intros layer key Hl Hne Hk.
    destruct (tree_has_keys _ layer (overriddenKeys groups layers) key Hk)
      as (line & Hline & Hshape).
    exists line. split; [|done]. by eapply printLayers_keys.
Qed.

Lemma merged_view_shows_the_request_layers_witness :
  exists line,
    line ∈ printMergedView
             {[ js "_" := [js "A"]; js "app" := [js "A"; js "B"] ]}
             (js "app") None
    /\ (line = branchMiddle ++ js "B" \/ line = branchLast ++ js "B"
        \/ line = branchMiddle ++ STRIKETHROUGH_START ++ js "B"
                   ++ STRIKETHROUGH_END
        \/ line = branchLast ++ STRIKETHROUGH_START ++ js "B"
                   ++ STRIKETHROUGH_END).
Proof.
  apply (proj2 (merged_view_shows_the_request_layers
                  {[ js "_" := [js "A"]; js "app" := [js "A"; js "B"] ]}
                  (js "app") None)
           (js "app") (js "B")).
  - apply elem_of_cons. right. apply elem_of_cons. by left.
  - discriminate.
  - vm_compute. apply elem_of_cons. right. apply elem_of_cons. by left.
Defined.

End ViewMore.

Section ListAndRun.
Import Enumerate ListCmd.

(** X11. The list command and the run command agree.  For a service that
    is not empty and a store that holds a value for every enumerated key
    of the layers of the request, the run command ends with a map in which
    a key holds the value v exactly when v is stored for it under a layer
    in which the merged view shows the key without strikethrough. *)
Theorem run_injects_what_list_shows_plain allEntries (store : Store)
    (service : list N) (env : option (list N)) :
  let groups := groupByService (filterShhEnvEntries allEntries) in
  let layers := layersOf service env in
  service <> [] ->
  (forall layer k, layer ∈ layers -> k ∈ default [] (groups !! layer) ->
     exists v, store layer k = Ok (Some v)) ->
  exists merged,
    outcome (Run.getMergedSecrets (Ok allEntries) store (Some service) env)
    = Ok merged
    /\ forall k v,
         merged !! k = Some v <->
         exists layer,
           layer ∈ layers /\ k ∈ default [] (groups !! layer)
           /\ isOverridden (overriddenKeys groups layers) layer k = false
           /\ store layer k = Ok (Some v).
Proof.
  intros groups layers Hs Hstore.
  assert (Hsame : Run.layersOf (Some service) env = layers)
    by by destruct service.
  rewrite getMergedSecrets_unfold, Hsame. fold groups.
  destruct (mergeLayers_ok store groups layers ∅) as (merged & Hm & Hchar).
  { intros layer k Hl Hk. destruct (Hstore layer k Hl Hk) as [v Hv]. eauto. }
  assert (Hnone : forall l k, l ∈ layers ->
             Run.layerValue store groups l k = None
             <-> k ∉ default [] (groups !! l)).
  { intros l k Hl. split.
    - intros Hn Hk. destruct (Hstore l k Hl Hk) as [w Hw].
      assert (Run.layerValue store groups l k = Some w); [|congruence].
      apply fetched_Some. split; [done|]. split; [|done].
      by eapply pipeline_keys_not_proto.
    - intros Hk. destruct (Run.layerValue store groups l k) as [w|] eqn:E;
        [|done].
      by apply fetched_Some in E as (? & _). }
  assert (Hspec := isOverridden_spec groups
                     (pipeline_keys_no_colon allEntries)
                     (pipeline_named_layers allEntries) layers).
  exists merged. split; [done|]. intros k v. rewrite Hchar. split.
  - intros [(before & layer & after & E & Hv & Hafter)|[H _]];
      [|by rewrite lookup_empty in H].
    apply fetched_Some in Hv as (Hk & _ & Hv).
    assert (Hl : layer ∈ layers).
    { rewrite E. apply elem_of_app. right. apply elem_of_cons. by left. }
    exists layer. repeat split; try done.
    apply not_true_is_false. intros (last & Hlast & Hne)%Hspec; [|done..].
    apply Hne. apply (lastWith_unique groups layers k); [done|].
    exists before, after. repeat split; try done.
    intros l Hin. apply Hnone; [|by apply Hafter].
    rewrite E. apply elem_of_app. right. apply elem_of_cons. by right.
  - intros (layer & Hl & Hk & Hplain & Hv). left.
    destruct (lastWith_exists groups layers layer k Hl Hk)
      as (last & Hlast).
    destruct (decide (last = layer)) as [->|Hne].
    2:{ assert (isOverridden (overriddenKeys groups layers) layer k = true)
          by (apply Hspec; eauto).
        congruence. }
    destruct Hlast as (before & after & E & _ & Hafter).
    exists before, layer, after. split; [done|]. split.
    + apply fetched_Some. split; [done|]. split; [|done].
      by eapply pipeline_keys_not_proto.
    + intros l Hin. apply Hnone; [|by apply Hafter].
      rewrite E. apply elem_of_app. right. apply elem_of_cons. by right.
Qed.

Lemma run_injects_what_list_shows_plain_witness :
  exists merged,
    outcome (Run.getMergedSecrets
               (Ok [ {| service := js "_"; key := js "A" |};
                     {| service := js "app"; key := js "A" |};
                     {| service := js "app"; key := js "B" |} ])
               (storeOf [ (js "_", js "A", js "1");
                          (js "app", js "A", js "2");
                          (js "app", js "B", js "3") ])
               (Some (js "app")) None)
    = Ok merged
    /\ forall k v,
         merged !! k = Some v <->
         exists layer,
           layer ∈ layersOf (js "app") None
           /\ k ∈ default []
                   (groupByService
                      (filterShhEnvEntries
                         [ {| service := js "_"; key := js "A" |};
                           {| service := js "app"; key := js "A" |};
                           {| service := js "app"; key := js "B" |} ])
                    !! layer)
           /\ isOverridden
                (overriddenKeys
                   (groupByService
                      (filterShhEnvEntries
                         [ {| service := js "_"; key := js "A" |};
                           {| service := js "app"; key := js "A" |};
                           {| service := js "app"; key := js "B" |} ]))
                   (layersOf (js "app") None))
                layer k = false
           /\ storeOf [ (js "_", js "A", js "1");
                        (js "app", js "A", js "2");
                        (js "app", js "B", js "3") ] layer k
              = Ok (Some v).
Proof.
  apply (run_injects_what_list_shows_plain
           [ {| service := js "_"; key := js "A" |};
             {| service := js "app"; key := js "A" |};
             {| service := js "app"; key := js "B" |} ]
           (storeOf [ (js "_", js "A", js "1");
                      (js "app", js "A", js "2");
                      (js "app", js "B", js "3") ])
           (js "app") None).
  - discriminate.
  - intros layer k Hl Hk.
    apply elem_of_cons in Hl as [->|Hl].
    + vm_compute in Hk. apply list_elem_of_singleton in Hk as ->.
      by exists (js "1").
    + apply list_elem_of_singleton in Hl as ->.
      vm_compute in Hk. apply elem_of_cons in Hk as [->|Hk].
      * by exists (js "2").
      * apply list_elem_of_singleton in Hk as ->. by exists (js "3").
Defined.

End ListAndRun.

(** ** The keychain operations and the commands over them *)

Section KeychainFacts.
Import Enumerate Keychain Process.

Implicit Types (key value ns message : list N).
Implicit Types (service env : option (list N)).

Lemma resolve_Ok key service env ns :
  resolve key service env = Ok ns
  <-> Secrets.KEY_PATTERN key = true
      /\ Secrets.buildServiceName service env = Ok ns.
Proof.
  unfold resolve, Secrets.validateKey.
  destruct (Secrets.KEY_PATTERN key); cbn [negb bind]; [tauto|].
  split; [done|]. by intros [? _].
Qed.

(** An invalid key is reported before the namespace is looked at. *)
Lemma resolve_Throw key service env message :
  resolve key service env = Throw message
  <-> (Secrets.KEY_PATTERN key = false
       /\ Secrets.validateKey key = Throw message)
      \/ (Secrets.KEY_PATTERN key = true
          /\ Secrets.buildServiceName service env = Throw message).
Proof.
  unfold resolve, Secrets.validateKey.
  destruct (Secrets.KEY_PATTERN key); cbn [negb bind].
  - split; [intros H; right; by split|]. by intros [[? _]|[_ ?]].
  - split; [intros H; left; split; [reflexivity|congruence]|].
    intros [[_ H]|[? _]]; [congruence|done].
Qed.

Lemma resolved_is_listed key service env ns all :
  resolve key service env = Ok ns ->
  {| service := ns; key := key |} ∈ all ->
  {| service := ns; key := key |} ∈ filterShhEnvEntries all.
Proof.
  intros [Hk Hns]%resolve_Ok Hin. apply filter_entries.
  split; [done|]. split; [|done]. by eapply built_is_accepted.
Qed.

(** X12. A write either is refused before the keychain is reached, with
    the keychain as it was, or it is one call of the keychain under a
    namespace and key for which the filter keeps the entry: every secret
    that setSecret stores is among the entries that list and run work
    with. *)
Theorem written_secrets_are_listed key service env :
  (exists message,
      forall K (bun : Bun.Secrets K) value (k : K),
        setSecret bun key value service env k = (k, Throw message))
  \/ (exists ns,
        (forall K (bun : Bun.Secrets K) value (k : K),
            setSecret bun key value service env k
            = Bun.set bun ns key value k)
        /\ forall all,
            {| service := ns; key := key |} ∈ all ->
            {| service := ns; key := key |} ∈ filterShhEnvEntries all).
Proof.
  destruct (resolve key service env) as [ns|message] eqn:E.
  - right. exists ns. split.
    + intros K bun value k. unfold setSecret. by rewrite E.
    + intros all. by eapply resolved_is_listed.
  - left. exists message. intros K bun value k. unfold setSecret.
    by rewrite E.
Qed.

Lemma written_secrets_are_listed_witness :
  (exists message,
      forall K (bun : Bun.Secrets K) value (k : K),
        setSecret bun (js "API_KEY") value (Some (js "app")) None k
        = (k, Throw message))
  \/ (exists ns,
        (forall K (bun : Bun.Secrets K) value (k : K),
            setSecret bun (js "API_KEY") value (Some (js "app")) None k
            = Bun.set bun ns (js "API_KEY") value k)
        /\ forall all,
            {| service := ns; key := js "API_KEY" |} ∈ all ->
            {| service := ns; key := js "API_KEY" |}
            ∈ filterShhEnvEntries all).
Proof.
  apply (written_secrets_are_listed (js "API_KEY") (Some (js "app")) None).
Defined.

(** X13. Every entry that the filter keeps can be reached through the
    wrappers: there is a request for which getSecret, setSecret and
    deleteSecret are the keychain's own get, set and delete at the
    namespace and key of the entry. *)
Theorem listed_entries_are_reachable all (e : SecretEntry) :
  e ∈ filterShhEnvEntries all ->
  exists service env,
    forall K (bun : Bun.Secrets K) (k : K),
      getSecret bun (key e) service env k
      = Bun.get bun (Enumerate.service e) (key e) k
      /\ (forall value,
             setSecret bun (key e) value service env k
             = Bun.set bun (Enumerate.service e) (key e) value k)
      /\ deleteSecret bun (key e) service env k
         = (let '(k', r) := Bun.delete bun (Enumerate.service e) (key e) k in
            (k', r ;;; Ok tt)).
Proof.
  intros (_ & Hs & Hk)%filter_entries.
  destruct (accepted_is_built _ Hs) as (service & env & Hns).
  exists service, env. intros K bun k.
  assert (E : resolve (key e) service env = Ok (Enumerate.service e))
    by by apply resolve_Ok.
  unfold getSecret, setSecret, deleteSecret. by rewrite E.
Qed.

Lemma listed_entries_are_reachable_witness :
  exists service env,
    forall K (bun : Bun.Secrets K) (k : K),
      getSecret bun (js "API_KEY") service env k
      = Bun.get bun (js "app::dev") (js "API_KEY") k
      /\ (forall value,
             setSecret bun (js "API_KEY") value service env k
             = Bun.set bun (js "app::dev") (js "API_KEY") value k)
      /\ deleteSecret bun (js "API_KEY") service env k
         = (let '(k', r) := Bun.delete bun (js "app::dev") (js "API_KEY") k in
            (k', r ;;; Ok tt)).
Proof.
  apply (listed_entries_are_reachable
           [ {| service := js "com.apple.wifi"; key := js "airport" |};
             {| service := js "app::dev"; key := js "API_KEY" |} ]
           {| service := js "app::dev"; key := js "API_KEY" |}).
  vm_compute. apply elem_of_cons. by left.
Defined.

Lemma mapKeychain_lawful : Bun.Lawful Bun.mapKeychain.
Proof.
  split; cbn.
  - intros service name v k k' [= <-]. by rewrite lookup_insert_eq.
  - intros service name b k k' [= <- _]. by rewrite lookup_delete_eq.
  - intros service name v service' name' k k' [= <-] Hne.
    by rewrite lookup_insert_ne.
  - intros service name b service' name' k k' [= <- _] Hne.
    by rewrite lookup_delete_ne.
Qed.

(** The service and the environment that a request has in effect. *)
Local Abbreviation effective service env :=
  (if truthy service then Secrets.value service else js "_",
   if truthy env then Some (Secrets.value env) else None).

(** X14. Over a keychain that stores what it is given, a secret that
    setSecret stored is what getSecret returns for the same request, it is
    gone after deleteSecret with the same request, and the write changes
    the result of no read with another key or with another service or
    environment in effect. *)
Theorem secrets_round_trip {K} (bun : Bun.Secrets K) key value service env
    (k k' : K) :
  Bun.Lawful bun ->
  setSecret bun key value service env k = (k', Ok tt) ->
  (getSecret bun key service env k').2 = Ok (Some value)
  /\ (forall k'',
        deleteSecret bun key service env k' = (k'', Ok tt) ->
        (getSecret bun key service env k'').2 = Ok None)
  /\ (forall key' service' env',
        (key', effective service' env') <> (key, effective service env) ->
        (getSecret bun key' service' env' k').2
        = (getSecret bun key' service' env' k).2).
Proof.
  intros Hlaw Hset. unfold setSecret in Hset.
  destruct (resolve key service env) as [ns|message] eqn:E; [|done].
  split; [|split].
  - unfold getSecret. rewrite E. by eapply Bun.get_after_set.
  - intros k''. unfold deleteSecret, getSecret. rewrite E.
    destruct (Bun.delete bun ns key k') as [k3 [b|m]] eqn:Hdel; [|done].
    intros [= ->]. by eapply Bun.get_after_delete.
  - intros key' service' env' Hne. unfold getSecret.
    destruct (resolve key' service' env') as [ns'|message] eqn:E'; [|done].
    eapply Bun.get_after_other_set; [done..|].
    intros [= -> ->]. apply Hne.
    apply resolve_Ok in E as [_ E], E' as [_ E'].
    apply parse_built in E, E'. rewrite E in E'. by injection E' as -> ->.
Qed.

Lemma secrets_round_trip_witness :
  (getSecret Bun.mapKeychain (js "API_KEY") (Some (js "app")) None
     (<[ (js "app", js "API_KEY") := js "s3cret" ]> ∅)).2
  = Ok (Some (js "s3cret")).
Proof.
  refine (proj1 (secrets_round_trip Bun.mapKeychain (js "API_KEY")
                   (js "s3cret") (Some (js "app")) None ∅
                   (<[ (js "app", js "API_KEY") := js "s3cret" ]> ∅)
                   mapKeychain_lawful _)).
  reflexivity.
Defined.

Lemma target_built service env ns :
  Secrets.buildServiceName service env = Ok ns -> target service env = ns.
Proof.
  unfold Secrets.buildServiceName, target. intros H.
  destruct (truthy env) eqn:Henv.
  - destruct (truthy service) eqn:Hsvc; [|done]. cbn [negb] in H.
    destruct (Secrets.validateService _) as [[]|]; [|done].
    destruct (Secrets.validateEnv _) as [[]|]; [|done].
    destruct service as [s|]; [|done]. destruct env as [e|]; [|done].
    cbn [bind] in H. by injection H.
  - destruct (Secrets.validateService _) as [[]|]; [|done].
    cbn [bind] in H. by injection H.
Qed.

(** X15. For a valid key and a request that resolves to a namespace, each
    command makes the one keychain call at that namespace and key, and the
    namespace is the one its message names: get prints the value alone, or
    reports that the key was not found in the namespace; delete reports
    the deletion from the namespace whether or not a secret was removed;
    set, given a value, reports that the key was set in the namespace. *)
Theorem commands_name_the_namespace_used {K} (bun : Bun.Secrets K)
    key service env ns (k : K) :
  Secrets.KEY_PATTERN key = true ->
  Secrets.buildServiceName service env = Ok ns ->
  GetCmd.run bun key service env k
  = (let '(k', r) := Bun.get bun ns key k in
     (k', match r with
          | Ok (Some v) => {| stdout := log v; stderr := []; exitCode := 0 |}
          | Ok None => failure [] (key ++ js " not found in " ++ ns)
          | Throw message => failure [] message
          end))
  /\ DeleteCmd.run bun key service env k
     = (let '(k', r) := Bun.delete bun ns key k in
        (k', match r with
             | Ok _ =>
                 {| stdout := log (DeleteCmd.check ++ js " Deleted " ++ key
                                   ++ js " from " ++ ns);
                    stderr := [];
                    exitCode := 0 |}
             | Throw message => failure [] message
             end))
  /\ forall decode value stdin,
       value <> [] ->
       SetCmd.run bun decode key service env (Some value) stdin k
       = (let '(k', r) := Bun.set bun ns key value k in
          (k', match r with
               | Ok _ =>
                   {| stdout := log (DeleteCmd.check ++ js " Set " ++ key
                                     ++ js " in " ++ ns);
                      stderr := [];
                      exitCode := 0 |}
               | Throw message => failure [] message
               end)).
Proof.
  intros Hk Hns.
  assert (E : resolve key service env = Ok ns) by by apply resolve_Ok.
  pose proof (target_built service env ns Hns) as Ht. split; [|split].
  - unfold GetCmd.run, getSecret. rewrite E, Ht.
    by destruct (Bun.get bun ns key k) as [k' [[v|]|m]].
  - unfold DeleteCmd.run, deleteSecret. rewrite E, Ht.
    by destruct (Bun.delete bun ns key k) as [k' [b|m]].
  - intros decode value stdin Hv. unfold SetCmd.run, setSecret.
    destruct value as [|c value]; [done|].
    change (Secrets.value (Some (c :: value))) with (c :: value).
    cbn [truthy nonEmpty negb app]. rewrite E, Ht.
    by destruct (Bun.set bun ns key (c :: value) k) as [k' [[]|m]].
Qed.

Lemma commands_name_the_namespace_used_witness :
  GetCmd.run Bun.mapKeychain (js "API_KEY") (Some (js "app")) (Some (js "dev"))
    ∅
  = (let '(k', r) := Bun.get Bun.mapKeychain (js "app::dev") (js "API_KEY") ∅
     in (k', match r with
             | Ok (Some v) =>
                 {| stdout := log v; stderr := []; exitCode := 0 |}
             | Ok None =>
                 failure [] (js "API_KEY" ++ js " not found in "
                             ++ js "app::dev")
             | Throw message => failure [] message
             end)).
Proof.
  apply (proj1 (commands_name_the_namespace_used Bun.mapKeychain
                  (js "API_KEY") (Some (js "app")) (Some (js "dev"))
                  (js "app::dev") ∅ eq_refl eq_refl)).
Defined.

(** X16. A request with an invalid key, service or environment never
    reaches the keychain: for every keychain, get and delete, and set once
    it has a value that is not empty, leave the keychain as it was, write
    the error of the validation to the error stream and exit with code 1,
    set having printed nothing but its prompt.  An invalid key is reported
    before an invalid namespace. *)
Theorem invalid_requests_leave_the_keychain_alone {K} (bun : Bun.Secrets K)
    key service env message (k : K) :
  (Secrets.KEY_PATTERN key = false
   /\ Secrets.validateKey key = Throw message)
  \/ (Secrets.KEY_PATTERN key = true
      /\ Secrets.buildServiceName service env = Throw message) ->
  GetCmd.run bun key service env k = (k, failure [] message)
  /\ DeleteCmd.run bun key service env k = (k, failure [] message)
  /\ forall decode (value : option (list N)) stdin,
       (if truthy value then Secrets.value value
        else SetCmd.readSecretFromStdin decode stdin) <> [] ->
       SetCmd.run bun decode key service env value stdin k
       = (k, failure (if truthy value then []
                      else js "Enter value for " ++ key ++ js ": ")
               message).
Proof.
  intros E%resolve_Throw. split; [|split].
  - unfold GetCmd.run, getSecret. by rewrite E.
  - unfold DeleteCmd.run, deleteSecret. by rewrite E.
  - intros decode value stdin Hv. unfold SetCmd.run, setSecret. rewrite E.
    destruct (if truthy value then Secrets.value value
              else SetCmd.readSecretFromStdin decode stdin); done.
Qed.

Lemma invalid_requests_leave_the_keychain_alone_witness :
  GetCmd.run Bun.mapKeychain (js "api_key") (Some (js "a:b")) None
    {[ (js "a:b", js "api_key") := js "v" ]}
  = ({[ (js "a:b", js "api_key") := js "v" ]},
     failure []
       (js "Invalid key name: " ++ [quote] ++ js "api_key" ++ [quote]
        ++ js ". Must start with uppercase letter, allowed: A-Z, 0-9, _"))
  /\ SetCmd.run Bun.mapKeychain (fun bytes => bytes) (js "API_KEY")
       (Some (js "a:b")) None (Some (js "v")) [] ∅
     = (∅,
        failure []
          (js "Invalid service name: " ++ [quote] ++ js "a:b" ++ [quote]
           ++ js ". Allowed: a-z, A-Z, 0-9, -, _, . (no colons)")).
Proof.
  split.
  - apply (proj1 (invalid_requests_leave_the_keychain_alone Bun.mapKeychain
                    (js "api_key") (Some (js "a:b")) None _
                    {[ (js "a:b", js "api_key") := js "v" ]}
                    (or_introl (conj eq_refl eq_refl)))).
  - apply (proj2 (proj2 (invalid_requests_leave_the_keychain_alone
                           Bun.mapKeychain (js "API_KEY") (Some (js "a:b"))
                           None _ ∅ (or_intror (conj eq_refl eq_refl))))
             (fun bytes => bytes) (Some (js "v")) []).
    discriminate.
Defined.

End KeychainFacts.

Section StandardInput.
Import SetCmd Process.

Local Abbreviation notLineFeed := (fun b : N => negb (b =? 10)).

Lemma bytes_indexOf_None value rest :
  indexOf 10 value = None ->
  takeWhile notLineFeed (value ++ rest)
  = value ++ takeWhile notLineFeed rest.
Proof.
  induction value as [|b value IH]; [done|]. cbn [indexOf app takeWhile].
  destruct (b =? 10); [done|]. cbn [negb].
  destruct (indexOf 10 value); [done|]. intros _. by rewrite IH.
Qed.

Lemma bytes_indexOf_Some value rest i :
  indexOf 10 value = Some i ->
  takeWhile notLineFeed (value ++ rest) = take i value.
Proof.
  revert i. induction value as [|b value IH]; intros i; [done|].
  cbn [indexOf app takeWhile].
  destruct (b =? 10); cbn [negb]; [by intros [= <-]|].
  destruct (indexOf 10 value) as [j|]; [|done]. intros [= <-].
  cbn [take]. by rewrite (IH j).
Qed.

Lemma readChunks_concat stream :
  concat (readChunks stream) = takeWhile notLineFeed (concat stream).
Proof.
  induction stream as [|value rest IH]; [done|].
  cbn [readChunks concat].
  destruct (indexOf 10 value) as [i|] eqn:E.
  - rewrite (bytes_indexOf_Some _ _ _ E). cbn [concat]. apply app_nil_r.
  - rewrite (bytes_indexOf_None _ _ E). cbn [concat]. by rewrite IH.
Qed.

(** X17. The secret read from standard input is the text, decoded and
    trimmed, of the bytes before the first line feed of the whole stream
    (all of them when there is none): it does not depend on how the stream
    is cut into chunks. *)
Theorem stdin_secret_is_the_first_line decode stream :
  readSecretFromStdin decode stream
  = trim (decode (takeWhile (fun b => negb (b =? 10)) (concat stream))).
Proof. unfold readSecretFromStdin. by rewrite readChunks_concat. Qed.

(** X18. The set command stores the value of the option as it is, or else
    the secret read from standard input; when that is empty it fails
    with code 1 before the key is validated and without touching the
    keychain. *)
Theorem set_stores_the_given_value {K} (bun : Bun.Secrets K) decode key
    service env value stdin (k : K) :
  let line := trim (decode (takeWhile (fun b => negb (b =? 10))
                              (concat stdin))) in
  let prompt := js "Enter value for " ++ key ++ js ": " in
  (truthy value = true ->
     (run bun decode key service env value stdin k).1
     = (Keychain.setSecret bun key (Secrets.value value) service env k).1)
  /\ (truthy value = false -> line <> [] ->
        (run bun decode key service env value stdin k).1
        = (Keychain.setSecret bun key line service env k).1)
  /\ (truthy value = false -> line = [] ->
        run bun decode key service env value stdin k
        = (k, failure prompt (js "No value provided"))).
Proof.
  intros line prompt. unfold run.
  unfold readSecretFromStdin. rewrite readChunks_concat. fold line.
  destruct (truthy value) eqn:Hv; (split; [|split]); try done.
  - intros _. destruct value as [[|c v]|]; try done.
    change (Secrets.value (Some (c :: v))) with (c :: v).
    cbn [nonEmpty negb].
    by destruct (Keychain.setSecret _ _ _ _ _ _) as [k' [[]|m]].
  - intros _ Hline. destruct line; [done|]. cbn [nonEmpty negb].
    by destruct (Keychain.setSecret _ _ _ _ _ _) as [k' [[]|m]].
  - intros _ ->. done.
Qed.

Lemma set_stores_the_given_value_witness :
  (run Bun.mapKeychain (fun bytes => bytes) (js "API_KEY") (Some (js "app"))
     None None [js "s3"; js "cret" ++ [10] ++ js "more"] ∅).1
  = (Keychain.setSecret Bun.mapKeychain (js "API_KEY")
       (trim (takeWhile (fun b => negb (b =? 10))
                (concat [js "s3"; js "cret" ++ [10] ++ js "more"])))
       (Some (js "app")) None ∅).1.
Proof.
  apply (proj1 (proj2 (set_stores_the_given_value Bun.mapKeychain
                         (fun bytes => bytes) (js "API_KEY")
                         (Some (js "app")) None None
                         [js "s3"; js "cret" ++ [10] ++ js "more"] ∅))).
  - reflexivity.
  - vm_compute. discriminate.
Defined.

End StandardInput.

(** ** The command line of run and the environment of the child *)

Section CommandLine.
Import RunCmd Process.

Implicit Types (rawArgs before after args : list (list N)).
Implicit Types (arg command : list N).

Lemma args_indexOf_first x before after :
  x ∉ before -> indexOf x (before ++ x :: after) = Some (length before).
Proof.
  induction before as [|a before IH]; intros Hx; cbn [app indexOf length].
  - unfold eqb. by rewrite bool_decide_eq_true_2.
  - apply not_elem_of_cons in Hx as [Hne Hx]. unfold eqb.
    rewrite bool_decide_eq_false_2 by done. by rewrite IH.
Qed.

Lemma args_indexOf_None x rawArgs : x ∉ rawArgs -> indexOf x rawArgs = None.
Proof.
  induction rawArgs as [|a rawArgs IH]; [done|].
  intros [Hne Hx]%not_elem_of_cons. cbn [indexOf]. unfold eqb.
  rewrite bool_decide_eq_false_2 by done. by rewrite IH.
Qed.

(** X19. With a double dash on the command line, the command and its
    arguments are everything after the first one, whatever stands before
    it. *)
Theorem command_follows_the_double_dash before after :
  js "--" ∉ before ->
  findCommand (before ++ js "--" :: after) = after.
Proof.
  intros H. unfold findCommand. rewrite args_indexOf_first by done.
  rewrite cons_middle, app_assoc. apply drop_app_length'.
  rewrite length_app. cbn [length]. lia.
Qed.

Lemma command_follows_the_double_dash_witness :
  findCommand ([js "--service"; js "app"] ++ js "--" :: [js "env"; js "-0"])
  = [js "env"; js "-0"].
Proof.
  apply (command_follows_the_double_dash [js "--service"; js "app"]
           [js "env"; js "-0"]).
  intros H. apply elem_of_cons in H as [H|H]; [discriminate|].
  apply list_elem_of_singleton in H. discriminate.
Defined.

(** What the loop ends with is a suffix of the arguments that is empty or
    opens with an argument that is not empty and has no leading dash; the
    same holds from the next argument on. *)
Lemma scan_found rawArgs :
  ((exists skipped, rawArgs = skipped ++ scan rawArgs)
   /\ match scan rawArgs with
      | [] => True
      | command :: _ =>
          command <> [] /\ startsWith (js "-") command = false
      end)
  /\ ((exists skipped, tail rawArgs = skipped ++ scan (tail rawArgs))
      /\ match scan (tail rawArgs) with
         | [] => True
         | command :: _ =>
             command <> [] /\ startsWith (js "-") command = false
         end).
Proof.
  induction rawArgs as [|arg rest [IH1 IH2]].
  { split; (split; [by exists []|done]). }
  split; [|done]. cbn [scan].
  assert (Hrest :
    (exists skipped, arg :: rest = skipped ++ scan rest)
    /\ match scan rest with
       | [] => True
       | command :: _ =>
           command <> [] /\ startsWith (js "-") command = false
       end).
  { destruct IH1 as [[skipped E] Hshape]. split; [|done].
    exists (arg :: skipped). cbn [app]. by rewrite <- E. }
  destruct arg as [|c arg]; [done|]. cbn [nonEmpty negb].
  destruct (eqb _ _ || eqb _ _).
  { destruct rest as [|b rest]; [split; [by exists [c :: arg]|done]|].
    destruct IH2 as [[skipped E] Hshape]. split; [|done].
    exists ((c :: arg) :: b :: skipped). cbn [app tail] in *.
    by rewrite <- E. }
  destruct (startsWith _ _ || startsWith _ _); [done|].
  destruct (startsWith (js "-") (c :: arg)) eqn:Hdash; [done|].
  split; [by exists []|done].
Qed.

(** X20. Without a double dash, what is found is a suffix of the command
    line, and it is empty or its first argument, the command, is not empty
    and has no leading dash. *)
Theorem found_command_has_no_dash rawArgs :
  js "--" ∉ rawArgs ->
  (exists skipped, rawArgs = skipped ++ findCommand rawArgs)
  /\ match findCommand rawArgs with
     | [] => True
     | command :: _ =>
         command <> [] /\ startsWith (js "-") command = false
     end.
Proof.
  intros H. unfold findCommand. rewrite args_indexOf_None by done.
  apply (scan_found rawArgs).
Qed.

Lemma found_command_has_no_dash_witness :
  (exists skipped,
      [js "--env"; js "dev"; js "-v"; js "npm"; js "start"]
      = skipped
        ++ findCommand [js "--env"; js "dev"; js "-v"; js "npm"; js "start"])
  /\ match findCommand [js "--env"; js "dev"; js "-v"; js "npm"; js "start"]
     with
     | [] => True
     | command :: _ =>
         command <> [] /\ startsWith (js "-") command = false
     end.
Proof.
  apply (found_command_has_no_dash
           [js "--env"; js "dev"; js "-v"; js "npm"; js "start"]).
  intros H. repeat (apply elem_of_cons in H as [H|H]; [discriminate|]).
  by apply elem_of_nil in H.
Defined.

(** An option of the command line with what belongs to it: the service or
    the environment option and its value, or one argument that is empty or
    has a leading dash and is not one of these two options. *)
Lemma scan_options (opts : list (list (list N))) rest :
  (forall g, g ∈ opts ->
     (exists v, g = [js "--service"; v] \/ g = [js "--env"; v])
     \/ (exists a, g = [a]
                   /\ (a = [] \/ startsWith (js "-") a = true)
                   /\ a <> js "--service" /\ a <> js "--env")) ->
  scan (concat opts ++ rest) = scan rest.
Proof.
  induction opts as [|g opts IH]; [done|]. intros H.
  assert (IH' : scan (concat opts ++ rest) = scan rest).
  { apply IH. intros g' Hg'. apply H, elem_of_cons. by right. }
  assert (Hin : g ∈ g :: opts) by (apply elem_of_cons; by left).
  destruct (H g Hin) as [[v [E|E]]|(a & E & Ha & Hs & He)]; subst g;
    cbn [concat app].
  - done.
  - done.
  - cbn [scan]. destruct a as [|c a]; [done|]. cbn [nonEmpty negb].
    destruct Ha as [Ha|Ha]; [done|]. unfold eqb.
    rewrite !bool_decide_eq_false_2 by done. cbn [orb]. rewrite Ha.
    by destruct (startsWith _ _ || startsWith _ _).
Qed.

(** X21. On a command line without a double dash that is a sequence of
    options followed by a command that is not empty and has no leading
    dash, the command and its arguments are found whatever the values of
    the service and environment options are. *)
Theorem options_before_the_command_are_skipped
    (opts : list (list (list N))) command args :
  (forall g, g ∈ opts ->
     (exists v, g = [js "--service"; v] \/ g = [js "--env"; v])
     \/ (exists a, g = [a]
                   /\ (a = [] \/ startsWith (js "-") a = true)
                   /\ a <> js "--service" /\ a <> js "--env")) ->
  command <> [] -> startsWith (js "-") command = false ->
  js "--" ∉ concat opts ++ command :: args ->
  findCommand (concat opts ++ command :: args) = command :: args.
Proof.
  intros Hopts Hne Hdash Hdd. unfold findCommand.
  rewrite args_indexOf_None by done. rewrite scan_options by done.
  cbn [scan]. destruct command as [|c command]; [done|].
  cbn [nonEmpty negb].
  assert (H1 : eqb (c :: command) (js "--service") = false).
  { apply bool_decide_eq_false_2. by intros E; rewrite E in Hdash. }
  assert (H2 : eqb (c :: command) (js "--env") = false).
  { apply bool_decide_eq_false_2. by intros E; rewrite E in Hdash. }
  rewrite H1, H2. cbn [orb].
  assert (H3 : startsWith (js "--service=") (c :: command) = false).
  { destruct (startsWith (js "--service=") (c :: command)) eqn:E; [|done].
    apply startsWith_spec in E as [t E]. by rewrite E in Hdash. }
  assert (H4 : startsWith (js "--env=") (c :: command) = false).
  { destruct (startsWith (js "--env=") (c :: command)) eqn:E; [|done].
    apply startsWith_spec in E as [t E]. by rewrite E in Hdash. }
  by rewrite H3, H4, Hdash.
Qed.

Lemma options_before_the_command_are_skipped_witness :
  findCommand (concat [[js "--service"; js "-"]; [js "-v"]; [[]];
                       [js "--env=dev"]]
               ++ js "npm" :: [js "run"; js "dev"])
  = js "npm" :: [js "run"; js "dev"].
Proof.
  apply (options_before_the_command_are_skipped
           [[js "--service"; js "-"]; [js "-v"]; [[]]; [js "--env=dev"]]
           (js "npm") [js "run"; js "dev"]).
  - intros g Hg.
    apply elem_of_cons in Hg as [->|Hg]; [left; eexists; by left|].
    apply elem_of_cons in Hg as [->|Hg];
      [right; eexists; split; [done|]; split; [by right|done]|].
    apply elem_of_cons in Hg as [->|Hg];
      [right; eexists; split; [done|]; split; [by left|done]|].
    apply list_elem_of_singleton in Hg as ->.
    right. eexists. split; [done|]. split; [by right|done].
  - discriminate.
  - reflexivity.
  - intros H. repeat (apply elem_of_cons in H as [H|H]; [discriminate|]).
    by apply elem_of_nil in H.
Defined.

End CommandLine.

Section RunHandler.
Import Enumerate RunCmd Process.

Implicit Types (processEnv merged : gmap (list N) (list N)).
Implicit Types (layers : list (list N)) (layer k v : list N).

(** The last element of a list with a decidable property. *)
Lemma last_such {A} (P : A -> Prop) `{!forall x, Decision (P x)}
    (l : list A) :
  Exists P l ->
  exists before x after,
    l = before ++ x :: after /\ P x /\ forall y, y ∈ after -> ~ P y.
Proof.
  induction l as [|a l IH]; [by intros ?%Exists_nil|].
  intros Hex. destruct (decide (Exists P l)) as [Hl|Hl].
  - destruct (IH Hl) as (before & x & after & -> & Hx & Hafter).
    by exists (a :: before), x, after.
  - apply Exists_cons in Hex as [Ha|?]; [|done].
    exists [], a, l. split; [done|]. split; [done|].
    intros y Hy HP. apply Hl, Exists_exists. eauto.
Qed.

Lemma run_command_line os processEnv enumerated (store : Store) rawArgs
    service env command restArgs :
  findCommand rawArgs = command :: restArgs -> command <> [] ->
  (run os processEnv enumerated store rawArgs service env).2
  = match outcome (Run.getMergedSecrets enumerated store service env) with
    | Throw message => failure [] message
    | Ok mergedSecrets =>
        match os (command :: restArgs)
                (Spawn.childEnv processEnv mergedSecrets) with
        | Ok code => {| stdout := []; stderr := []; exitCode := code |}
        | Throw message => failure [] message
        end
    end.
Proof.
  intros Hfind Hne. unfold run. rewrite Hfind.
  by destruct command.
Qed.

(** X22. When a command is found and no read of an enumerated key is
    rejected, the child is started with the found command line and with an
    environment in which a variable holds the value v exactly when the
    last layer of the request that stores a value for it stores v, or no
    layer stores one and the environment of the process holds v: the
    secrets lie over the inherited environment, and the rest of it passes
    through.  The command exits with the code of the child. *)
Theorem run_spawns_with_layered_environment
    (os : list (list N) -> gmap (list N) (list N) -> result N)
    processEnv allEntries (store : Store) rawArgs service env
    command restArgs :
  let groups := groupByService (filterShhEnvEntries allEntries) in
  let layers := Run.layersOf service env in
  findCommand rawArgs = command :: restArgs -> command <> [] ->
  (forall layer k, layer ∈ layers -> k ∈ default [] (groups !! layer) ->
     exists o, store layer k = Ok o) ->
  exists childEnv : gmap (list N) (list N),
    (forall k v,
        childEnv !! k = Some v <->
        (exists before layer after,
            layers = before ++ layer :: after
            /\ (k ∈ default [] (groups !! layer)
                /\ store layer k = Ok (Some v))
            /\ forall l, l ∈ after ->
                 ~ (k ∈ default [] (groups !! l)
                    /\ exists w, store l k = Ok (Some w)))
        \/ (processEnv !! k = Some v
            /\ forall l, l ∈ layers ->
                 ~ (k ∈ default [] (groups !! l)
                    /\ exists w, store l k = Ok (Some w))))
    /\ (run os processEnv (Ok allEntries) store rawArgs service env).2
       = match os (command :: restArgs) childEnv with
         | Ok code => {| stdout := []; stderr := []; exitCode := code |}
         | Throw message => failure [] message
         end.
Proof.
  intros groups layers Hfind Hne Hok.
  destruct (mergeLayers_ok store groups layers ∅ Hok)
    as (merged & Hm & Hchar).
  exists (Spawn.childEnv processEnv merged). split.
  2:{ rewrite (run_command_line _ _ _ _ _ _ _ command restArgs) by done.
      rewrite getMergedSecrets_unfold. fold groups layers. by rewrite Hm. }
  assert (Hsome : forall l k v,
             Run.layerValue store groups l k = Some v
             <-> k ∈ default [] (groups !! l) /\ store l k = Ok (Some v)).
  { intros l k v. unfold Run.layerValue. rewrite fetched_Some. split.
    - by intros (? & _ & ?).
    - intros [Hk ?]. split; [done|]. split; [|done].
      by eapply pipeline_keys_not_proto. }
  assert (Hnone : forall l k,
             Run.layerValue store groups l k = None
             <-> ~ (k ∈ default [] (groups !! l)
                    /\ exists w, store l k = Ok (Some w))).
  { intros l k. split.
    - intros E [Hk [w Hw]].
      assert (Run.layerValue store groups l k = Some w)
        by by apply Hsome.
      congruence.
    - intros Hno. destruct (Run.layerValue store groups l k) as [w|] eqn:E;
        [|done].
      apply Hsome in E as [? ?]. exfalso. apply Hno. eauto. }
  assert (Hmerged : forall k v,
    merged !! k = Some v <->
    exists before layer after,
      layers = before ++ layer :: after
      /\ (k ∈ default [] (groups !! layer) /\ store layer k = Ok (Some v))
      /\ forall l, l ∈ after ->
           ~ (k ∈ default [] (groups !! l)
              /\ exists w, store l k = Ok (Some w))).
  { intros k v. rewrite Hchar. split.
    - intros [(before & layer & after & E & Hv & Hafter)|[H _]];
        [|by rewrite lookup_empty in H].
      exists before, layer, after. split; [done|]. split; [by apply Hsome|].
      intros l Hl. by apply Hnone, Hafter.
    - intros (before & layer & after & E & Hv & Hafter). left.
      exists before, layer, after. split; [done|]. split; [by apply Hsome|].
      intros l Hl. by apply Hnone, Hafter. }
  intros k v. unfold Spawn.childEnv.
  rewrite lookup_union_Some_raw, Hmerged. split.
  - intros [H|[Hno Hv]]; [by left|]. right. split; [done|].
    intros l Hl Hhas.
    destruct (last_such
                (fun l => Run.layerValue store groups l k <> None) layers)
      as (before & x & after & E & Hx & Hafter).
    { apply Exists_exists. exists l. split; [done|].
      by intros ?%Hnone. }
    destruct (Run.layerValue store groups x k) as [w|] eqn:Hw; [|done].
    assert (merged !! k = Some w); [|congruence].
    apply Hmerged. exists before, x, after. split; [done|].
    split; [by apply Hsome|]. intros y Hy. apply Hnone.
    destruct (Run.layerValue store groups y k) eqn:Ey; [|done].
    exfalso. apply (Hafter y Hy). by rewrite Ey.
  - intros [H|[Hv Hno]]; [by left|]. right. split; [|done].
    destruct (merged !! k) as [w|] eqn:Hw; [|done].
    apply Hmerged in Hw as (before & layer & after & E & Hhas & _).
    exfalso. apply (Hno layer).
    + rewrite E. apply elem_of_app. right. apply elem_of_cons. by left.
    + destruct Hhas. eauto.
Qed.

Lemma run_spawns_with_layered_environment_witness :
  exists childEnv : gmap (list N) (list N),
    (forall k v,
        childEnv !! k = Some v <->
        (exists before layer after,
            Run.layersOf (Some (js "app")) None = before ++ layer :: after
            /\ (k ∈ default []
                      (groupByService
                         (filterShhEnvEntries
                            [ {| service := js "app"; key := js "A" |} ])
                       !! layer)
                /\ storeOf [ (js "app", js "A", js "1") ] layer k
                   = Ok (Some v))
            /\ forall l, l ∈ after ->
                 ~ (k ∈ default []
                          (groupByService
                             (filterShhEnvEntries
                                [ {| service := js "app"; key := js "A" |} ])
                           !! l)
                    /\ exists w,
                        storeOf [ (js "app", js "A", js "1") ] l k
                        = Ok (Some w)))
        \/ (({[ js "PATH" := js "/bin" ]} : gmap (list N) (list N)) !! k
            = Some v
            /\ forall l, l ∈ Run.layersOf (Some (js "app")) None ->
                 ~ (k ∈ default []
                          (groupByService
                             (filterShhEnvEntries
                                [ {| service := js "app"; key := js "A" |} ])
                           !! l)
                    /\ exists w,
                        storeOf [ (js "app", js "A", js "1") ] l k
                        = Ok (Some w))))
    /\ (run (fun _ _ => Ok 0) {[ js "PATH" := js "/bin" ]}
          (Ok [ {| service := js "app"; key := js "A" |} ])
          (storeOf [ (js "app", js "A", js "1") ])
          [js "--service"; js "app"; js "env"] (Some (js "app")) None).2
       = match (fun _ _ => Ok 0) (js "env" :: []) childEnv with
         | Ok code => {| stdout := []; stderr := []; exitCode := code |}
         | Throw message => failure [] message
         end.
Proof.
  apply (run_spawns_with_layered_environment (fun _ _ => Ok 0)
           {[ js "PATH" := js "/bin" ]}
           [ {| service := js "app"; key := js "A" |} ]
           (storeOf [ (js "app", js "A", js "1") ])
           [js "--service"; js "app"; js "env"] (Some (js "app")) None
           (js "env") []).
  - reflexivity.
  - discriminate.
  - intros layer k _ _. unfold storeOf. eauto.
Defined.

End RunHandler.
